(** * Idefix: grid geometry (DataBlock::MakeGeometry) and the TVDLF
      hydrodynamic Riemann solver (TvdlfHD)

    A shallow embedding of [src/dataBlock/makeGeometry.cpp] and
    [src/hydro/HDsolvers/tvdlfHD.hpp].

    Numbers.  The C++ type [real] is an IEEE floating-point type.  Its
    finite values are idealised as mathematical reals: rounding and
    overflow are not modelled.  What IS modelled is where the kernels
    leave the finite numbers: a division by zero and a square root of a
    negative operand.  An expression containing one of those evaluates
    to [option R], [None] standing for the non-finite values (Inf, NaN)
    IEEE arithmetic yields there.  In both kernels every operation that
    follows such a value keeps it non-finite, so [None] is propagated
    by the option monad. *)

From Stdlib Require Import Reals ZArith List Lia Lra Bool.
Import ListNotations.

Open Scope R_scope.

(** ** Numbers *)

Definition real := R.

(** The values a [real] expression with a division or a square root can
    take: [Some r] finite, [None] non-finite. *)
Definition xreal := option real.

Definition bindx {A B : Type} (m : option A) (k : A -> option B) : option B :=
  match m with
  | Some a => k a
  | None => None
  end.

Notation "x <- m ;; k" := (bindx m (fun x => k))
  (at level 61, m at next level, right associativity).

Definition ONE_F : real := 1.
Definition HALF_F : real := 0.5.
Definition FABS (a : real) : real := Rabs a.
Definition FMAX (a b : real) : real := Rmax a b.

(** [SQRT a]: NaN on a negative operand. *)
Definition SQRT (a : real) : xreal :=
  if Rlt_dec a 0 then None else Some (sqrt a).

(** [a / b] with a divisor that is not a literal: Inf or NaN when [b] is zero. *)
Definition fdiv (a b : real) : xreal :=
  if Req_dec_T b 0 then None else Some (a / b).

(** ** Directions, geometries, dimensions *)

Inductive Dir : Type := IDIR | JDIR | KDIR.

Inductive Geometry : Type := CARTESIAN | CYLINDRICAL | POLAR | SPHERICAL.

Inductive Dimensions : Type := DIM1 | DIM2 | DIM3.

Definition Dir_eqb (a b : Dir) : bool :=
  match a, b with
  | IDIR, IDIR | JDIR, JDIR | KDIR, KDIR => true
  | _, _ => false
  end.

(** ** Arrays

    An [IdefixArray] is a dense array read and written by integer
    indices; the kernels below only touch indices inside the extents
    they loop over. *)

Definition IdefixArray1D (T : Type) := Z -> T.
Definition IdefixArray3D (T : Type) := Z -> Z -> Z -> T.
Definition IdefixArray4D (T : Type) := nat -> Z -> Z -> Z -> T.

Definition Index3 : Type := (Z * Z * Z)%type.

Definition eqb3 (a b : Index3) : bool :=
  let '(k, j, i) := a in
  let '(k', j', i') := b in
  ((k =? k') && (j =? j') && (i =? i'))%Z.

Definition upd1 {T} (a : IdefixArray1D T) (i : Z) (v : T) : IdefixArray1D T :=
  fun i' => if (i' =? i)%Z then v else a i'.

Definition upd3 {T} (a : IdefixArray3D T) (k j i : Z) (v : T) : IdefixArray3D T :=
  fun k' j' i' => if eqb3 (k', j', i') (k, j, i) then v else a k' j' i'.

Definition upd4 {T} (a : IdefixArray4D T) (nv : nat) (k j i : Z) (v : T)
  : IdefixArray4D T :=
  fun nv' k' j' i' =>
    if (nv' =? nv)%nat && eqb3 (k', j', i') (k, j, i) then v else a nv' k' j' i'.

(** Write of one member of a per-direction family, [this->A[dir]]. *)
Definition updD {T} (a : Dir -> T) (d : Dir) (v : T) : Dir -> T :=
  fun d' => if Dir_eqb d' d then v else a d'.

(** ** Loops *)

(** The indices of the half-open range [[b, e)], in increasing order,
    and the triples of a three-dimensional range, the last index
    running fastest. *)
Definition zrange (b e : Z) : list Z :=
  map (fun n => (b + Z.of_nat n)%Z) (seq 0 (Z.to_nat (e - b))).

Definition range3 (kb ke jb je ib ie : Z) : list Index3 :=
  flat_map (fun k =>
    flat_map (fun j =>
      map (fun i => (k, j, i)) (zrange ib ie)) (zrange jb je)) (zrange kb ke).

(** Modelled from the spec: [idefix_for] with one index range is
    declared in [idefix.hpp], which is not among the sources.  It runs
    its body once for every index of the half-open range [[ib, ie)]
    ("parallel-for semantics"); the bodies below write only the cell of
    their own index, so the sequential order chosen here is immaterial. *)
Definition idefix_for1 {S : Type} (ib ie : Z) (body : Z -> S -> S) (s : S) : S :=
  fold_left (fun s i => body i s) (zrange ib ie) s.

(** Modelled from the spec: [idefix_for] with three index ranges, also
    of [idefix.hpp]: "a flat index-space partition (parallel-for
    semantics over a 3D range)", the body run once at every triple of
    the three half-open ranges. *)
Definition idefix_for3 {S : Type} (kb ke jb je ib ie : Z)
  (body : Z -> Z -> Z -> S -> S) (s : S) : S :=
  fold_left (fun s '(k, j, i) => body k j i s) (range3 kb ke jb je ib ie) s.

(** ** The data block

    The members of [DataBlock] that [MakeGeometry] and [TvdlfHD] use.
    The arrays written by an expression with a division or a square root
    hold an [xreal]; the grid and the primitive states are read as
    finite numbers. *)

Record DataBlock : Type := mkDataBlock {
  np_tot : Dir -> Z;                  (* cells per direction, ghosts included *)
  beg : Dir -> Z;                     (* first interior cell *)
  end_ : Dir -> Z;                    (* one past the last interior cell *)
  x : Dir -> IdefixArray1D real;      (* cell centres *)
  dx : Dir -> IdefixArray1D real;     (* cell spacings *)
  xl : Dir -> IdefixArray1D real;     (* left faces *)
  xr : Dir -> IdefixArray1D real;     (* right faces *)
  xgc : Dir -> IdefixArray1D xreal;   (* geometrical centres *)
  rt : IdefixArray1D xreal;
  sm : IdefixArray1D real;
  s : IdefixArray1D real;
  dmu : IdefixArray1D real;
  dV : IdefixArray3D real;            (* cell volumes *)
  A : Dir -> IdefixArray3D real;      (* face areas *)
  PrimL : IdefixArray4D real;
  PrimR : IdefixArray4D real;
  FluxRiemann : IdefixArray4D xreal;
  cMax : IdefixArray3D xreal
}.

Definition set_xgc (v : Dir -> IdefixArray1D xreal) (d : DataBlock) : DataBlock :=
  mkDataBlock (np_tot d) (beg d) (end_ d) (x d) (dx d) (xl d) (xr d) v (rt d)
    (sm d) (s d) (dmu d) (dV d) (A d) (PrimL d) (PrimR d) (FluxRiemann d) (cMax d).

Definition set_rt (v : IdefixArray1D xreal) (d : DataBlock) : DataBlock :=
  mkDataBlock (np_tot d) (beg d) (end_ d) (x d) (dx d) (xl d) (xr d) (xgc d) v
    (sm d) (s d) (dmu d) (dV d) (A d) (PrimL d) (PrimR d) (FluxRiemann d) (cMax d).

Definition set_sm (v : IdefixArray1D real) (d : DataBlock) : DataBlock :=
  mkDataBlock (np_tot d) (beg d) (end_ d) (x d) (dx d) (xl d) (xr d) (xgc d) (rt d)
    v (s d) (dmu d) (dV d) (A d) (PrimL d) (PrimR d) (FluxRiemann d) (cMax d).

Definition set_s (v : IdefixArray1D real) (d : DataBlock) : DataBlock :=
  mkDataBlock (np_tot d) (beg d) (end_ d) (x d) (dx d) (xl d) (xr d) (xgc d) (rt d)
    (sm d) v (dmu d) (dV d) (A d) (PrimL d) (PrimR d) (FluxRiemann d) (cMax d).

Definition set_dmu (v : IdefixArray1D real) (d : DataBlock) : DataBlock :=
  mkDataBlock (np_tot d) (beg d) (end_ d) (x d) (dx d) (xl d) (xr d) (xgc d) (rt d)
    (sm d) (s d) v (dV d) (A d) (PrimL d) (PrimR d) (FluxRiemann d) (cMax d).

Definition set_dV (v : IdefixArray3D real) (d : DataBlock) : DataBlock :=
  mkDataBlock (np_tot d) (beg d) (end_ d) (x d) (dx d) (xl d) (xr d) (xgc d) (rt d)
    (sm d) (s d) (dmu d) v (A d) (PrimL d) (PrimR d) (FluxRiemann d) (cMax d).

Definition set_A (v : Dir -> IdefixArray3D real) (d : DataBlock) : DataBlock :=
  mkDataBlock (np_tot d) (beg d) (end_ d) (x d) (dx d) (xl d) (xr d) (xgc d) (rt d)
    (sm d) (s d) (dmu d) (dV d) v (PrimL d) (PrimR d) (FluxRiemann d) (cMax d).

Definition set_FluxRiemann (v : IdefixArray4D xreal) (d : DataBlock) : DataBlock :=
  mkDataBlock (np_tot d) (beg d) (end_ d) (x d) (dx d) (xl d) (xr d) (xgc d) (rt d)
    (sm d) (s d) (dmu d) (dV d) (A d) (PrimL d) (PrimR d) v (cMax d).

Definition set_cMax (v : IdefixArray3D xreal) (d : DataBlock) : DataBlock :=
  mkDataBlock (np_tot d) (beg d) (end_ d) (x d) (dx d) (xl d) (xr d) (xgc d) (rt d)
    (sm d) (s d) (dmu d) (dV d) (A d) (PrimL d) (PrimR d) (FluxRiemann d) v.

(** Reading one cell of the two output arrays of the solver. *)
Definition read_cMax (d : DataBlock) (idx : Index3) : xreal :=
  let '(k, j, i) := idx in cMax d k j i.

Definition read_Flux (d : DataBlock) (c : nat * Index3) : xreal :=
  let '(nv, (k, j, i)) := c in FluxRiemann d nv k j i.

(** ** The TVDLF Riemann solver, [tvdlfHD.hpp] *)

Section TvdlfHD_def.

(** Constants of [idefix.hpp] and the two functions of the physics
    module the solver calls; none of them is among the sources, so the
    solver takes them as parameters.  A state vector [real v[NVAR]] is
    read as a function of its index.  [K_PrimToCons v gamma_m1] is the
    conservative vector the C++ [K_PrimToCons(u, v, gamma_m1)] leaves in
    [u]; [K_Flux v u C2Iso Xn] the flux vector [K_Flux(F, v, u, C2Iso, Xn)]
    leaves in [F]. *)
Variable NVAR : nat.
Variables RHO PRS : nat.
Variable HAVE_ENERGY : bool.
Variable K_PrimToCons : (nat -> real) -> real -> nat -> real.
Variable K_Flux : (nat -> real) -> (nat -> real) -> real -> nat -> nat -> real.

(** Steps 1 to 5 of the kernel for one face, from the left and right
    primitive states to the flux vector and [cmax]. *)
Definition TVDLF_Kernel (Xn : nat) (gamma_m1 C2Iso : real)
  (vL vR : nat -> real) : (nat -> xreal) * xreal :=
  (* 1-- Read primitive variables *)
  let vRL := fun nv => HALF_F * (vL nv + vR nv) in
  (* 2-- Compute the conservative variables *)
  let uL := K_PrimToCons vL gamma_m1 in
  let uR := K_PrimToCons vR gamma_m1 in
  (* 3-- Compute the left and right fluxes *)
  let fluxL := K_Flux vL uL C2Iso Xn in
  let fluxR := K_Flux vR uR C2Iso Xn in
  (* 4-- Get the wave speed *)
  let cRL :=
    if HAVE_ENERGY
    then q <- fdiv (vRL PRS) (vRL RHO) ;; SQRT ((gamma_m1 + ONE_F) * q)
    else SQRT C2Iso in
  let cmax := c <- cRL ;; Some (FMAX (FABS (vRL Xn + c)) (FABS (vRL Xn - c))) in
  (* 5-- Compute the flux from the left and right states *)
  (fun nv =>
     cm <- cmax ;;
     Some (HALF_F * (fluxL nv + fluxR nv - cm * (uR nv - uL nv))),
   cmax).

(** The body of the ["TVDLF_Kernel"] loop at face [(k,j,i)]: reads the
    captured [PrimL], [PrimR], writes [Flux(nv,k,j,i)] for every
    [nv < NVAR] and then [cMax(k,j,i)]. *)
Definition TVDLF_body (Xn : nat) (gamma_m1 C2Iso : real)
  (PrimL PrimR : IdefixArray4D real) (k j i : Z) (d : DataBlock) : DataBlock :=
  let vL := fun nv => PrimL nv k j i in
  let vR := fun nv => PrimR nv k j i in
  let '(Fx, cmax) := TVDLF_Kernel Xn gamma_m1 C2Iso vL vR in
  let d :=
    fold_left
      (fun d nv => set_FluxRiemann (upd4 (FluxRiemann d) nv k j i (Fx nv)) d)
      (seq 0 NVAR) d in
  (* 6-- Compute maximum wave speed for this sweep *)
  set_cMax (upd3 (cMax d) k j i cmax) d.

Definition offset (DIR d : Dir) : Z := if Dir_eqb DIR d then 1%Z else 0%Z.

(** [template<DIR, Xn, Xt, Xb> void TvdlfHD(DataBlock&, real gamma, real C2Iso)].
    The template parameters [Xt] and [Xb] are not used by the body. *)
Definition TvdlfHD (DIR : Dir) (Xn : nat) (data : DataBlock)
  (gamma C2Iso : real) : DataBlock :=
  let ioffset := offset DIR IDIR in
  let joffset := offset DIR JDIR in
  let koffset := offset DIR KDIR in
  let gamma_m1 := gamma - ONE_F in
  idefix_for3
    (beg data KDIR) (end_ data KDIR + koffset)
    (beg data JDIR) (end_ data JDIR + joffset)
    (beg data IDIR) (end_ data IDIR + ioffset)
    (TVDLF_body Xn gamma_m1 C2Iso (PrimL data) (PrimR data))
    data.

(** The faces a sweep along [DIR] visits, in loop order. *)
Definition sweep_faces (DIR : Dir) (data : DataBlock) : list Index3 :=
  range3
    (beg data KDIR) (end_ data KDIR + offset DIR KDIR)
    (beg data JDIR) (end_ data JDIR + offset DIR JDIR)
    (beg data IDIR) (end_ data IDIR + offset DIR IDIR).

(** The number of interior cells of a block along [d], and the number
    of faces a sweep along [DIR] visits along [d]. *)
Definition ncells (data : DataBlock) (d : Dir) : Z := (end_ data d - beg data d)%Z.

Definition nfaces (DIR : Dir) (data : DataBlock) (d : Dir) : Z :=
  (ncells data d + offset DIR d)%Z.

(** [(k,j,i)] lies in the index range of the sweep along [DIR]. *)
Definition in_sweep (DIR : Dir) (data : DataBlock) (k j i : Z) : Prop :=
  (beg data KDIR <= k < end_ data KDIR + offset DIR KDIR)%Z /\
  (beg data JDIR <= j < end_ data JDIR + offset DIR JDIR)%Z /\
  (beg data IDIR <= i < end_ data IDIR + offset DIR IDIR)%Z.

(** The left and right states the kernel reads at a face, and their
    component-wise average. *)
Definition stateL (data : DataBlock) (k j i : Z) : nat -> real :=
  fun nv => PrimL data nv k j i.
Definition stateR (data : DataBlock) (k j i : Z) : nat -> real :=
  fun nv => PrimR data nv k j i.
Definition stateAvg (vL vR : nat -> real) : nat -> real :=
  fun nv => 0.5 * (vL nv + vR nv).

(** What the kernel computes at face [(k,j,i)] of [data]. *)
Definition face_result (Xn : nat) (data : DataBlock) (gamma C2Iso : real)
  (k j i : Z) : (nat -> xreal) * xreal :=
  TVDLF_Kernel Xn (gamma - ONE_F) C2Iso (stateL data k j i) (stateR data k j i).

(** The physical flux of a primitive state: the flux function applied
    to the state and its conservative transform. *)
Definition physicalFlux (Xn : nat) (gamma_m1 C2Iso : real) (v : nat -> real)
  : nat -> real :=
  K_Flux v (K_PrimToCons v gamma_m1) C2Iso Xn.

(** The spec's words for step 4: the sound speed
    [sqrt((gamma-1+1)*pressure/density)] of a state, or [sqrt(C2Iso)]. *)
Definition spec_soundSpeed (gamma C2Iso : real) (v : nat -> real) : xreal :=
  if HAVE_ENERGY
  then r <- fdiv ((gamma - 1 + 1) * v PRS) (v RHO) ;; SQRT r
  else SQRT C2Iso.

(** [cmax = max(|normalVelocity + soundSpeed|, |normalVelocity - soundSpeed|)]. *)
Definition spec_cmax (Xn : nat) (gamma C2Iso : real) (v : nat -> real) : xreal :=
  c <- spec_soundSpeed gamma C2Iso v ;;
  Some (Rmax (Rabs (v Xn + c)) (Rabs (v Xn - c))).

(** The spec's words for step 5, with a given wave speed:
    [0.5*(fluxLeft + fluxRight) - cmax*(conservativeRight - conservativeLeft)]. *)
Definition spec_blend (Xn : nat) (gamma_m1 C2Iso c : real)
  (vL vR : nat -> real) (nv : nat) : real :=
  0.5 * (physicalFlux Xn gamma_m1 C2Iso vL nv + physicalFlux Xn gamma_m1 C2Iso vR nv)
  - c * (K_PrimToCons vR gamma_m1 nv - K_PrimToCons vL gamma_m1 nv).

(** A state has a sound speed: the operand of the square root is a
    non-negative number. *)
Definition soundSpeed_defined (gamma C2Iso : real) (v : nat -> real) : Prop :=
  if HAVE_ENERGY
  then v RHO <> 0 /\ 0 <= gamma * v PRS / v RHO
  else 0 <= C2Iso.

(** The analytic sound speed and signal speed of a state. *)
Definition soundSpeed (gamma C2Iso : real) (v : nat -> real) : real :=
  if HAVE_ENERGY then sqrt (gamma * v PRS / v RHO) else sqrt C2Iso.

Definition signalSpeed (Xn : nat) (gamma C2Iso : real) (v : nat -> real) : real :=
  Rabs (v Xn) + soundSpeed gamma C2Iso v.

End TvdlfHD_def.

(** Reversal of the normal direction: the component [Xn] of a vector
    changes sign. *)
Definition mirror (Xn : nat) (v : nat -> real) : nat -> real :=
  fun nv => if (nv =? Xn)%nat then - v nv else v nv.

(** The flux vector seen from the opposite normal convention: every
    component changes sign, and the normal-momentum component, itself a
    vector component along the normal, changes sign once more. *)
Definition opposite_flux (Xn : nat) (F : nat -> xreal) : nat -> xreal :=
  fun nv => option_map (fun f => - (if (nv =? Xn)%nat then - f else f)) (F nv).

(** ** The grid geometry, [makeGeometry.cpp] *)

Section MakeGeometry_def.

(** The geometry and the number of dimensions are fixed when the code
    is compiled. *)
Variable GEOMETRY : Geometry.
Variable DIMENSIONS : Dimensions.

(** Modelled from the spec: the macro [D_EXPAND] belongs to
    [idefix.hpp], which is not among the sources.  [D_EXPAND(a, *b, *c)]
    keeps the first [DIMENSIONS] of its arguments: "inactive axes
    contribute a unit factor". *)
Definition D_EXPAND (a b c : real) : real :=
  match DIMENSIONS with
  | DIM1 => a
  | DIM2 => a * b
  | DIM3 => a * b * c
  end.

(** Modelled from the spec: the constants [IOFFSET], [JOFFSET] and
    [KOFFSET] of [idefix.hpp]: a face-centred array is "one-larger than
    cell count" along its own direction when that direction is active. *)
Definition IOFFSET : Z := 1.
Definition JOFFSET : Z := match DIMENSIONS with DIM1 => 0 | _ => 1 end.
Definition KOFFSET : Z := match DIMENSIONS with DIM3 => 1 | _ => 0 end.

Definition wr_xgc (dir : Dir) (i : Z) (v : xreal) (d : DataBlock) : DataBlock :=
  set_xgc (updD (xgc d) dir (upd1 (xgc d dir) i v)) d.

Definition wr_A (dir : Dir) (k j i : Z) (v : real) (d : DataBlock) : DataBlock :=
  set_A (updD (A d) dir (upd3 (A d dir) k j i v)) d.

Section Kernels.

(** The block whose arrays the kernels capture before the loops. *)
Variable this : DataBlock.

Let dx1 := dx this IDIR.
Let dx2 := dx this JDIR.
Let dx3 := dx this KDIR.
Let x1 := x this IDIR.
Let x2 := x this JDIR.
Let x3 := x this KDIR.
Let x1p := xr this IDIR.
Let x2p := xr this JDIR.
Let x1m := xl this IDIR.
Let x2m := xl this JDIR.

(** Kernel ["Volumes"]: the value stored in [dV(k,j,i)]. *)
Definition Volumes_cell (k j i : Z) : real :=
  match GEOMETRY with
  | CARTESIAN =>
      D_EXPAND (dx1 i) (dx2 j) (dx3 k)
  | CYLINDRICAL =>
      let dVr := FABS (x1p i * x1p i - x1m i * x1m i) / 2.0 in
      D_EXPAND dVr (dx2 j) ONE_F
  | POLAR =>
      let dVr := FABS (x1p i * x1p i - x1m i * x1m i) / 2.0 in
      D_EXPAND dVr (dx2 j) (dx3 k)
  | SPHERICAL =>
      let dVr := FABS (x1p i * x1p i * x1p i - x1m i * x1m i * x1m i) / 3.0 in
      let dmu := FABS (cos (x2m j) - cos (x2p j)) in
      D_EXPAND dVr dmu (dx3 k)
  end.

Definition Volumes (k j i : Z) (d : DataBlock) : DataBlock :=
  set_dV (upd3 (dV d) k j i (Volumes_cell k j i)) d.

(** Kernel ["GeometricalCentersX1"]: the values stored in [x1gc(i)]
    and, in spherical geometry, in [rt(i)]. *)
Definition x1gc_cell (i : Z) : xreal :=
  match GEOMETRY with
  | CARTESIAN => Some (x1 i)
  | CYLINDRICAL | POLAR =>
      q <- fdiv (dx1 i * dx1 i) (12.0 * x1 i) ;;
      Some (x1 i + q)
  | SPHERICAL =>
      q <- fdiv (2.0 * x1 i * dx1 i * dx1 i)
                (12.0 * x1 i * x1 i + dx1 i * dx1 i) ;;
      Some (x1 i + q)
  end.

Definition rt_cell (i : Z) : xreal :=
  q <- fdiv (x1p i * x1p i * x1p i - x1m i * x1m i * x1m i)
            (x1p i * x1p i - x1m i * x1m i) ;;
  Some (q / 1.5).

Definition GeometricalCentersX1 (i : Z) (d : DataBlock) : DataBlock :=
  match GEOMETRY with
  | SPHERICAL =>
      let d := wr_xgc IDIR i (x1gc_cell i) d in
      set_rt (upd1 (rt d) i (rt_cell i)) d
  | _ => wr_xgc IDIR i (x1gc_cell i) d
  end.

(** Kernel ["GeometricalCentersX2"]. *)
Definition x2gc_cell (j : Z) : xreal :=
  match GEOMETRY with
  | SPHERICAL =>
      let xL := x2m j in
      let xR := x2p j in
      fdiv (sin xR - sin xL + xL * cos xL - xR * cos xR) (cos xL - cos xR)
  | _ => Some (x2 j)
  end.

Definition GeometricalCentersX2 (j : Z) (d : DataBlock) : DataBlock :=
  match GEOMETRY with
  | SPHERICAL =>
      let xL := x2m j in
      let xR := x2p j in
      let d := wr_xgc JDIR j (x2gc_cell j) d in
      let d := set_sm (upd1 (sm d) j (FABS (sin xL))) d in
      let d := set_s (upd1 (s d) j (FABS (sin (x2 j)))) d in
      set_dmu (upd1 (dmu d) j (FABS (cos xL - cos xR))) d
  | _ => wr_xgc JDIR j (x2gc_cell j) d
  end.

(** Kernel ["GeometricalCentersX3"]. *)
Definition GeometricalCentersX3 (k : Z) (d : DataBlock) : DataBlock :=
  wr_xgc KDIR k (Some (x3 k)) d.

(** Kernel ["AreaX1"]; [end] is [np_tot[IDIR]], captured by value. *)
Definition AreaX1_face (end' : Z) (k j i : Z) : real :=
  match GEOMETRY with
  | CARTESIAN =>
      D_EXPAND 1.0 (dx2 j) (dx3 k)
  | CYLINDRICAL =>
      if (i =? end')%Z
      then D_EXPAND (FABS (x1p (i - 1)%Z)) (dx2 j) ONE_F
      else D_EXPAND (FABS (x1m i)) (dx2 j) ONE_F
  | POLAR =>
      if (i =? end')%Z
      then D_EXPAND (FABS (x1p (i - 1)%Z)) (dx2 j) (dx3 k)
      else D_EXPAND (FABS (x1m i)) (dx2 j) (dx3 k)
  | SPHERICAL =>
      let dmu := FABS (cos (x2m j) - cos (x2p j)) in
      if (i =? end')%Z
      then D_EXPAND (x1p (i - 1)%Z * x1p (i - 1)%Z) dmu (dx3 k)
      else D_EXPAND (x1m i * x1m i) dmu (dx3 k)
  end.

Definition AreaX1 (end' : Z) (k j i : Z) (d : DataBlock) : DataBlock :=
  wr_A IDIR k j i (AreaX1_face end' k j i) d.

(** Kernel ["AreaX2"]; [end] is [np_tot[JDIR]]. *)
Definition AreaX2_face (end' : Z) (k j i : Z) : real :=
  match GEOMETRY with
  | CARTESIAN => D_EXPAND (dx1 i) ONE_F (dx3 k)
  | CYLINDRICAL => D_EXPAND (FABS (x1 i)) (dx1 i) ONE_F
  | POLAR => D_EXPAND (dx1 i) ONE_F (dx3 k)
  | SPHERICAL =>
      if (j =? end')%Z
      then D_EXPAND (x1 i * dx1 i) (FABS (sin (x2p (j - 1)%Z))) (dx3 k)
      else D_EXPAND (x1 i * dx1 i) (FABS (sin (x2m j))) (dx3 k)
  end.

Definition AreaX2 (end' : Z) (k j i : Z) (d : DataBlock) : DataBlock :=
  wr_A JDIR k j i (AreaX2_face end' k j i) d.

(** Kernel ["AreaX3"]. *)
Definition AreaX3_face (k j i : Z) : real :=
  match GEOMETRY with
  | CARTESIAN => D_EXPAND (dx1 i) (dx2 j) ONE_F
  | CYLINDRICAL => ONE_F
  | POLAR => D_EXPAND (x1 i * dx1 i) (dx2 j) ONE_F
  | SPHERICAL => D_EXPAND (x1 i * dx1 i) (dx2 j) ONE_F
  end.

Definition AreaX3 (k j i : Z) (d : DataBlock) : DataBlock :=
  wr_A KDIR k j i (AreaX3_face k j i) d.

End Kernels.

(** [void DataBlock::MakeGeometry()]. *)
Definition MakeGeometry (this : DataBlock) : DataBlock :=
  let np := np_tot this in
  (* Compute Volumes *)
  let d := idefix_for3 0 (np KDIR) 0 (np JDIR) 0 (np IDIR) (Volumes this) this in
  (* Compute Geometrical cell centers *)
  let d := idefix_for1 0 (np IDIR) (GeometricalCentersX1 this) d in
  let d := idefix_for1 0 (np JDIR) (GeometricalCentersX2 this) d in
  let d := idefix_for1 0 (np KDIR) (GeometricalCentersX3 this) d in
  (* Compute Areas *)
  let end' := np IDIR in
  let d := idefix_for3 0 (np KDIR) 0 (np JDIR) 0 (np IDIR + IOFFSET)
             (AreaX1 this end') d in
  let end' := np JDIR in
  let d := idefix_for3 0 (np KDIR) 0 (np JDIR + JOFFSET) 0 (np IDIR)
             (AreaX2 this end') d in
  idefix_for3 0 (np KDIR + KOFFSET) 0 (np JDIR) 0 (np IDIR) (AreaX3 this) d.

(** A cell index of the block, ghost cells included. *)
Definition in_block (d : DataBlock) (k j i : Z) : Prop :=
  (0 <= k < np_tot d KDIR)%Z /\ (0 <= j < np_tot d JDIR)%Z /\
  (0 <= i < np_tot d IDIR)%Z.

End MakeGeometry_def.

(** ** A concrete physics module and concrete blocks

    The general theorems below hold for every pair [K_PrimToCons],
    [K_Flux]; the ideal-gas pair of this section serves to run the solver
    on concrete states. *)

(** The indices of the hydrodynamic variables, constants of
    [idefix.hpp]; the total energy shares the index of the pressure. *)
Definition NVAR_HD : nat := 5.
Definition RHO : nat := 0.
Definition VX1 : nat := 1.
Definition VX2 : nat := 2.
Definition VX3 : nat := 3.
Definition PRS : nat := 4.

(** Modelled from the spec: [K_PrimToCons] is the "equation-of-state
    transform owned by an external physics collaborator", not among the
    sources.  For an ideal gas with an energy equation the conservative
    variables are "density, momentum, total energy". *)
Definition K_PrimToCons_HD (v : nat -> real) (gamma_m1 : real) : nat -> real :=
  fun nv =>
    match nv with
    | 0%nat => v RHO
    | 1%nat => v RHO * v VX1
    | 2%nat => v RHO * v VX2
    | 3%nat => v RHO * v VX3
    | 4%nat => v PRS / gamma_m1
               + HALF_F * v RHO * (v VX1 * v VX1 + v VX2 * v VX2 + v VX3 * v VX3)
    | _ => 0
    end.

(** Modelled from the spec: [K_Flux] is the "flux function (external
    dependency), using the normal-direction index", not among the
    sources.  The flux along [Xn] carries every conservative variable
    with the normal velocity; the pressure adds to the normal momentum
    flux and to the transported energy. *)
Definition K_Flux_HD (V U : nat -> real) (C2Iso : real) (Xn : nat) : nat -> real :=
  fun nv =>
    match nv with
    | 0%nat => U Xn
    | 4%nat => (U PRS + V PRS) * V Xn
    | 1%nat | 2%nat | 3%nat =>
        U nv * V Xn + (if (nv =? Xn)%nat then V PRS else 0)
    | _ => 0
    end.

(** The primitive state with density [rho], velocity [(v1, v2, v3)] and
    pressure [p]. *)
Definition prim (rho v1 v2 v3 p : real) : nat -> real :=
  fun nv =>
    match nv with
    | 0%nat => rho
    | 1%nat => v1
    | 2%nat => v2
    | 3%nat => v3
    | 4%nat => p
    | _ => 0
    end.

(** A block of [n] interior cells per direction, without ghost cells, on
    a unit grid, whose every face has left state [vL] and right state
    [vR]; the output arrays start filled with zeros. *)
Definition faces_block (n : Z) (vL vR : nat -> real) : DataBlock :=
  mkDataBlock
    (fun _ => n) (fun _ => 0%Z) (fun _ => n)
    (fun _ i => IZR i + 0.5) (fun _ _ => 1) (fun _ i => IZR i) (fun _ i => IZR i + 1)
    (fun _ _ => Some 0) (fun _ => Some 0) (fun _ => 0) (fun _ => 0) (fun _ => 0)
    (fun _ _ _ => 0) (fun _ _ _ _ => 0)
    (fun nv _ _ _ => vL nv) (fun nv _ _ _ => vR nv)
    (fun _ _ _ _ => Some 0) (fun _ _ _ => Some 0).

(** The solver with an energy equation on the ideal-gas module. *)
Definition TvdlfHD_ideal : Dir -> nat -> DataBlock -> real -> real -> DataBlock :=
  TvdlfHD NVAR_HD RHO PRS true K_PrimToCons_HD K_Flux_HD.

Definition solveFace_ideal (Xn : nat) (gamma C2Iso : real) (vL vR : nat -> real)
  : (nat -> xreal) * xreal :=
  TVDLF_Kernel RHO PRS true K_PrimToCons_HD K_Flux_HD Xn (gamma - ONE_F) C2Iso vL vR.

(** A block of [np d] cells along [d], without ghost cells, whose cell
    [i] along [d] lies between the faces [f d i] and [f d (i + 1)], with
    its centre at their midpoint and their distance as spacing; the
    geometry arrays start filled with zeros. *)
Definition grid_block (np : Dir -> Z) (f : Dir -> Z -> real) : DataBlock :=
  mkDataBlock
    np (fun _ => 0%Z) np
    (fun d i => 0.5 * (f d i + f d (i + 1)%Z))
    (fun d i => f d (i + 1)%Z - f d i)
    (fun d i => f d i)
    (fun d i => f d (i + 1)%Z)
    (fun _ _ => Some 0) (fun _ => Some 0) (fun _ => 0) (fun _ => 0) (fun _ => 0)
    (fun _ _ _ => 0) (fun _ _ _ _ => 0)
    (fun _ _ _ _ => 0) (fun _ _ _ _ => 0)
    (fun _ _ _ _ => Some 0) (fun _ _ _ => Some 0).

(** Two radial cells, [-1, 1] and [1, 4], on unit cells in the other
    two directions. *)
Definition axis_faces (d : Dir) (i : Z) : real :=
  match d with
  | IDIR => IZR (i * (i + 3)) / 2 - 1
  | _ => IZR i
  end.

Definition axis_block : DataBlock :=
  grid_block (fun d => match d with IDIR => 2%Z | _ => 1%Z end) axis_faces.

(** Two radial cells at negative radii, [-2, -1] and [-1, 0], on unit
    cells in the other two directions. *)
Definition inner_faces (d : Dir) (i : Z) : real :=
  match d with
  | IDIR => IZR i - 2
  | _ => IZR i
  end.

Definition inner_block : DataBlock :=
  grid_block (fun d => match d with IDIR => 2%Z | _ => 1%Z end) inner_faces.

(** Three radial cells, [1, 2], [2, 3], [3, 4], on unit cells in the
    other two directions. *)
Definition shell_faces (d : Dir) (i : Z) : real :=
  match d with
  | IDIR => IZR i + 1
  | _ => IZR i
  end.

Definition shell_block : DataBlock :=
  grid_block (fun d => match d with IDIR => 3%Z | _ => 1%Z end) shell_faces.

(** A sequence of [n] reals is strictly increasing. *)
Definition strictly_increasing (n : Z) (a : IdefixArray1D real) : Prop :=
  forall i i', (0 <= i)%Z -> (i < i')%Z -> (i' < n)%Z -> a i < a i'.

(** The coordinate arrays of a block as the spec's volume-positivity
    property wants them: along every direction the cell centres, the
    spacings and the face positions are strictly increasing sequences;
    moreover every spacing is positive and every centre lies strictly
    between the two faces of its cell. *)
Definition increasing_axes (d : DataBlock) : Prop :=
  forall dir,
    strictly_increasing (np_tot d dir) (x d dir) /\
    strictly_increasing (np_tot d dir) (dx d dir) /\
    strictly_increasing (np_tot d dir) (xl d dir) /\
    strictly_increasing (np_tot d dir) (xr d dir) /\
    forall i, (0 <= i < np_tot d dir)%Z ->
              0 < dx d dir i /\ xl d dir i < x d dir i < xr d dir i.

(** Every cell has a positive spacing and its left face left of its
    right face. *)
Definition valid_spacing (d : DataBlock) : Prop :=
  forall dir i, (0 <= i < np_tot d dir)%Z ->
                0 < dx d dir i /\ xl d dir i < xr d dir i.

(** The spec's words for the radius-weighted mean, every difference of
    powers of the radii taken in absolute value before use. *)
Definition spec_rt (this : DataBlock) (i : Z) : xreal :=
  let r_right := xr this IDIR i in
  let r_left := xl this IDIR i in
  q <- fdiv (Rabs (r_right * r_right * r_right - r_left * r_left * r_left))
            (Rabs (r_right * r_right - r_left * r_left)) ;;
  Some (q / 1.5).

(** The radius, or the polar angle, a face area is built from: the left
    face of cell [i], but at the face [i = n] past the last cell the
    right face of cell [n - 1]. *)
Definition face_coordinate (this : DataBlock) (dir : Dir) (i : Z) : real :=
  if (i =? np_tot this dir)%Z then xr this dir (i - 1)%Z else xl this dir i.

(** ** Further definitions *)


(** ** The test problem [test/MHD/AxisFluxTube/setup.cpp] *)

Module Host.

(** The members of the host mirror [DataBlockHost] of a block that the
    set-up reads and writes.  The staggered field [Vs] may receive a
    quotient by the parameter [Rin] and holds an [xreal]. *)
Record DataBlockHost : Type := mkDataBlockHost {
  np_tot : Dir -> Z;
  beg : Dir -> Z;
  end_ : Dir -> Z;
  x : Dir -> IdefixArray1D real;
  A : Dir -> IdefixArray3D real;
  dV : IdefixArray3D real;
  Vc : IdefixArray4D real;
  Vs : IdefixArray4D xreal;
  Ex1 : IdefixArray3D real
}.

Definition set_Vc (v : IdefixArray4D real) (d : DataBlockHost) : DataBlockHost :=
  mkDataBlockHost (np_tot d) (beg d) (end_ d) (x d) (A d) (dV d) v (Vs d) (Ex1 d).

Definition set_Vs (v : IdefixArray4D xreal) (d : DataBlockHost) : DataBlockHost :=
  mkDataBlockHost (np_tot d) (beg d) (end_ d) (x d) (A d) (dV d) (Vc d) v (Ex1 d).

(** The two user-defined arrays [variables["divB"]] and
    [variables["Er"]] of the output container. *)
Record UserDefVariables : Type := mkUserDefVariables {
  divB : IdefixArray3D xreal;
  Er : IdefixArray3D real
}.

End Host.

Section Setup_def.

(** The indices of the cell-centred and of the staggered variables are
    constants of [idefix.hpp], which is not among the sources; the
    three globals of the set-up are read from the input file. *)
Variables RHO PRS VX1 VX2 VX3 : nat.
Variables BX1s BX2s BX3s : nat.
Variables Rtorus Ztorus Rin : real.

(** [pow(a, 2.0)]. *)
Definition pow2 (a : real) : real := a * a.

(** The toroidal field strength of [InitFlow] at a cell centre
    [(x1, x2)]: [1.0 - (pow(R-Rtorus,2.0) + pow(Z-Ztorus,2.0)) / Rin],
    replaced by zero when negative.  With [Rin] zero the quotient is
    not a finite number and the outcome of the comparison depends on
    its sign; that case is left undetermined ([None]). *)
Definition bphi (x1 x2 : real) : xreal :=
  let Rc := x1 * sin x2 in      (* Cylindrical radius *)
  let Zc := x1 * cos x2 in      (* Vertical cylindrical coordinate *)
  q <- fdiv (pow2 (Rc - Rtorus) + pow2 (Zc - Ztorus)) Rin ;;
  let b := 1.0 - q in
  Some (if Rlt_dec b 0.0 then 0.0 else b).

(** The body of the loops of [Setup::InitFlow] at cell [(k,j,i)]. *)
Definition InitFlow_body (k j i : Z) (d : Host.DataBlockHost)
  : Host.DataBlockHost :=
  let x1 := Host.x d IDIR i in
  let x2 := Host.x d JDIR j in
  let x3 := Host.x d KDIR k in
  (* Vector components in cartesian coordinates *)
  let ex_r := cos x3 * sin x2 in
  let ex_t := cos x3 * cos x2 in
  let ex_p := - sin x3 in
  let ey_r := sin x3 * sin x2 in
  let ey_t := sin x3 * cos x2 in
  let ey_p := cos x3 in
  let d := Host.set_Vc (upd4 (Host.Vc d) RHO k j i 1.0) d in
  let d := Host.set_Vc (upd4 (Host.Vc d) PRS k j i 1.0) d in
  let d := Host.set_Vc (upd4 (Host.Vc d) VX1 k j i ((ex_r + ey_r) / sqrt 2)) d in
  let d := Host.set_Vc (upd4 (Host.Vc d) VX2 k j i ((ex_t + ey_t) / sqrt 2)) d in
  let d := Host.set_Vc (upd4 (Host.Vc d) VX3 k j i ((ex_p + ey_p) / sqrt 2)) d in
  let d := Host.set_Vs (upd4 (Host.Vs d) BX1s k j i (Some 0.0)) d in
  let d := Host.set_Vs (upd4 (Host.Vs d) BX2s k j i (Some 0.0)) d in
  Host.set_Vs
    (upd4 (Host.Vs d) BX3s k j i (b <- bphi x1 x2 ;; Some (1.0e-20 * b))) d.

(** [void Setup::InitFlow(DataBlock &data)], on the host copy [d] of
    the block: three nested loops over all cells, ghost cells included. *)
Definition InitFlow (d : Host.DataBlockHost) : Host.DataBlockHost :=
  fold_left (fun d '(k, j, i) => InitFlow_body k j i d)
    (range3 0 (Host.np_tot d KDIR) 0 (Host.np_tot d JDIR) 0 (Host.np_tot d IDIR))
    d.

(** The value [ComputeUserVars] stores in [divB(k,j,i)]. *)
Definition divB_cell (d : Host.DataBlockHost) (k j i : Z) : xreal :=
  let Ax1 := Host.A d IDIR in
  let Ax2 := Host.A d JDIR in
  let Ax3 := Host.A d KDIR in
  let Vs := Host.Vs d in
  b1p <- Vs BX1s k j (i + 1)%Z ;; b1 <- Vs BX1s k j i ;;
  b2p <- Vs BX2s k (j + 1)%Z i ;; b2 <- Vs BX2s k j i ;;
  b3p <- Vs BX3s (k + 1)%Z j i ;; b3 <- Vs BX3s k j i ;;
  fdiv ((Ax1 k j (i + 1)%Z * b1p - Ax1 k j i * b1) +
        (Ax2 k (j + 1)%Z i * b2p - Ax2 k j i * b2) +
        (Ax3 (k + 1)%Z j i * b3p - Ax3 k j i * b3))
       (Host.dV d k j i).

(** [void ComputeUserVars(DataBlock &, UserDefVariablesContainer &)],
    on the synchronised host copy [d]: three nested loops over the
    interior cells. *)
Definition ComputeUserVars (d : Host.DataBlockHost)
  (variables : Host.UserDefVariables) : Host.UserDefVariables :=
  fold_left
    (fun v '(k, j, i) =>
       let v := Host.mkUserDefVariables
                  (upd3 (Host.divB v) k j i (divB_cell d k j i)) (Host.Er v) in
       Host.mkUserDefVariables
         (Host.divB v) (upd3 (Host.Er v) k j i (Host.Ex1 d k (j + 1)%Z i)))
    (range3 (Host.beg d KDIR) (Host.end_ d KDIR)
            (Host.beg d JDIR) (Host.end_ d JDIR)
            (Host.beg d IDIR) (Host.end_ d IDIR))
    variables.

End Setup_def.

(** The host mirror of a block whose staggered field and whose
    cell-centred variables are still to be initialised. *)
Definition host_mirror (data : DataBlock) : Host.DataBlockHost :=
  Host.mkDataBlockHost (np_tot data) (beg data) (end_ data) (x data)
    (A data) (dV data)
    (fun _ _ _ _ => 0) (fun _ _ _ _ => Some 0) (fun _ _ _ => 0).

(** Four cells per direction, one of them a ghost cell on each side,
    with faces at 1, 2, ..., 5 along the first direction and at
    0.5, 1, ..., 2.5 along the other two. *)
Definition tube_faces (d : Dir) (i : Z) : real :=
  match d with
  | IDIR => IZR i + 1
  | _ => (IZR i + 1) / 2
  end.

Definition tube_block : DataBlock :=
  mkDataBlock
    (fun _ => 4%Z) (fun _ => 1%Z) (fun _ => 3%Z)
    (fun d i => 0.5 * (tube_faces d i + tube_faces d (i + 1)%Z))
    (fun d i => tube_faces d (i + 1)%Z - tube_faces d i)
    (fun d i => tube_faces d i)
    (fun d i => tube_faces d (i + 1)%Z)
    (fun _ _ => Some 0) (fun _ => Some 0) (fun _ => 0) (fun _ => 0) (fun _ => 0)
    (fun _ _ _ => 0) (fun _ _ _ _ => 0)
    (fun _ _ _ _ => 0) (fun _ _ _ _ => 0)
    (fun _ _ _ _ => Some 0) (fun _ _ _ => Some 0).

(** ** The VTK writer [output/vtk.cpp] *)

Module Vtk.

(** A [float] or an [int] as the four bytes of its object
    representation, in the order of their addresses; [get] and [set]
    are the accesses [bytes[n]] through an [unsigned char *]. *)
Record float : Type := mkFloat { byte0 : Z; byte1 : Z; byte2 : Z; byte3 : Z }.

Definition get (bytes : float) (n : Z) : Z :=
  match n with
  | 0%Z => byte0 bytes
  | 1%Z => byte1 bytes
  | 2%Z => byte2 bytes
  | _ => byte3 bytes
  end.

Definition set (bytes : float) (n : Z) (v : Z) : float :=
  match n with
  | 0%Z => mkFloat v (byte1 bytes) (byte2 bytes) (byte3 bytes)
  | 1%Z => mkFloat (byte0 bytes) v (byte2 bytes) (byte3 bytes)
  | 2%Z => mkFloat (byte0 bytes) (byte1 bytes) v (byte3 bytes)
  | _ => mkFloat (byte0 bytes) (byte1 bytes) (byte2 bytes) v
  end.

(** The two byte orders a machine can store a 32-bit pattern in: the
    byte of lowest weight at the lowest address, or the byte of highest
    weight there. *)
Inductive Machine : Type := little_endian | big_endian.

(** The byte of weight [256^n] of a 32-bit pattern. *)
Definition byte_of (bits n : Z) : Z := Z.land (Z.shiftr bits (8 * n)) 255.

(** The bytes machine [m] holds for a 32-bit pattern, that of an [int]
    or of a [float] alike. *)
Definition object_representation (m : Machine) (bits : Z) : float :=
  match m with
  | little_endian =>
      mkFloat (byte_of bits 0) (byte_of bits 1) (byte_of bits 2) (byte_of bits 3)
  | big_endian =>
      mkFloat (byte_of bits 3) (byte_of bits 2) (byte_of bits 1) (byte_of bits 0)
  end.

(** The endianness test of [Vtk::Init]: the value [shouldSwapEndian]
    is left with on machine [m]. *)
Definition Init_shouldSwapEndian (m : Machine) : Z :=
  let tmp1 := object_representation m 1 in
  let shouldSwapEndian := 0%Z in
  let tmp2 := get tmp1 0 in
  if negb (tmp2 =? 0)%Z then 1%Z else shouldSwapEndian.

(** [float Vtk::BigEndian(float in_number)]. *)
Definition BigEndian (shouldSwapEndian : Z) (in_number : float) : float :=
  if negb (shouldSwapEndian =? 0)%Z then
    let bytes := in_number in
    let tmp := get bytes 0 in
    let bytes := set bytes 0 (get bytes 3) in
    let bytes := set bytes 3 tmp in
    let tmp := get bytes 1 in
    let bytes := set bytes 1 (get bytes 2) in
    let bytes := set bytes 2 tmp in
    bytes
  else in_number.

(** The buffer [vect3D] and the blocks of floats handed to [fwrite] by
    [WriteScalar] so far; the text headers are left out. *)
Record Output : Type := mkOutput {
  vect3D : IdefixArray1D float;
  file : list (list float)
}.

Section Write_def.

Variable shouldSwapEndian : Z.
(** [static_cast<float>] of a [real], as the bytes the machine holds. *)
Variable to_float : real -> float.
(** The local sizes [Vtk::Init] takes from [data.np_int]. *)
Variables nx1loc nx2loc nx3loc : Z.

(** The three nested loops of [Vtk::Write] that copy one field into
    the buffer. *)
Definition fill_vect3D (data : Host.DataBlockHost)
  (field : IdefixArray3D real) (vect3D : IdefixArray1D float)
  : IdefixArray1D float :=
  fold_left
    (fun vect3D '(k, j, i) =>
       upd1 vect3D
         (i - Host.beg data IDIR + (j - Host.beg data JDIR) * nx1loc
          + (k - Host.beg data KDIR) * nx1loc * nx2loc)%Z
         (BigEndian shouldSwapEndian (to_float (field k j i))))
    (range3 (Host.beg data KDIR) (Host.end_ data KDIR)
            (Host.beg data JDIR) (Host.end_ data JDIR)
            (Host.beg data IDIR) (Host.end_ data IDIR))
    vect3D.

(** The [fwrite] of [Vtk::WriteScalar] (no MPI): the first
    [nx1loc*nx2loc*nx3loc] floats of [Vin]. *)
Definition WriteScalar (Vin : IdefixArray1D float) : list float :=
  map Vin (zrange 0 (nx1loc * nx2loc * nx3loc)).

Definition write_field (data : Host.DataBlockHost) (out : Output)
  (field : IdefixArray3D real) : Output :=
  let v := fill_vect3D data field (vect3D out) in
  mkOutput v (file out ++ WriteScalar v :: nil).

(** The fields of [Vtk::Write]: the [NVAR] cell-centred variables,
    then, when enabled, the user-defined variables, given as the
    arrays of the map [output.userDefVariables] in the order of their
    keys. *)
Definition Write (NVAR : nat) (data : Host.DataBlockHost)
  (userDefVariablesEnabled : bool)
  (userDefVariables : list (IdefixArray3D real)) (out : Output) : Output :=
  let out := fold_left (fun out nv => write_field data out (Host.Vc data nv))
               (seq 0 NVAR) out in
  if userDefVariablesEnabled
  then fold_left (write_field data) userDefVariables out
  else out.

End Write_def.

End Vtk.

(** ** The parameter file [input.cpp] *)

From Stdlib Require Ascii String.

Module Input.

Import Ascii String.
#[local] Open Scope string_scope.

(** The "map of maps of vectors of strings": a block name gives the
    parameters of the block, a parameter name its values.  Only [find]
    and [operator[]] are used on the maps. *)
Definition IdefixBlockContainer : Type := string -> option (list string).
Definition IdefixInputContainer : Type := string -> option IdefixBlockContainer.

(** The texts streamed into [msg] before [IDEFIX_ERROR(msg)], by their
    variable parts. *)
Inductive message : Type :=
| BlockNotEnded (blockName : string)
    (* Block name '...' in file '...' not properly ended *)
| NoBlockName
    (* Input file '...' must specify a block name before the first parameter *)
| IndexNotFound (num : Z) (blockName paramName : string)
    (* Index ... cannot be found in block:parameter...:... *)
| ParameterNotFound (paramName blockName : string)
    (* Parameter ... cannot be found in block [...] *)
| BlockNotFound (blockName : string).
    (* BlockName ... cannot be found *)

(** [IDEFIX_ERROR] is a macro of [idefix.hpp], which is not among the
    sources: an outcome is either the value returned or the message the
    macro is reached with. *)
Inductive outcome (T : Type) : Type :=
| Returns (v : T)
| IDEFIX_ERROR (msg : message).

Arguments Returns {T} v.
Arguments IDEFIX_ERROR {T} msg.

(** *** Conversions between [int] (32 bits) and [std::size_t] (64 bits) *)

Definition to_size_t (z : Z) : Z := (z mod 2 ^ 64)%Z.
Definition to_int (z : Z) : Z := ((z + 2 ^ 31) mod 2 ^ 32 - 2 ^ 31)%Z.
Definition npos : Z := (2 ^ 64 - 1)%Z.

(** *** The members of [std::string] the file uses *)

(** The first position from [pos] on whose character satisfies [p];
    [None] is [std::string::npos]. *)
Fixpoint find_if (p : ascii -> bool) (s : string) (pos : nat) : option nat :=
  match s with
  | EmptyString => None
  | String c s' =>
      match pos with
      | O => if p c then Some O else option_map S (find_if p s' O)
      | S pos' => option_map S (find_if p s' pos')
      end
  end.

(** [s.find(c, pos)] and [s.find_first_of(c, pos)] for a pattern of one
    character, [s.find_first_not_of(c)]. *)
Definition find (s : string) (c : ascii) (pos : nat) : option nat :=
  find_if (Ascii.eqb c) s pos.
Definition find_first_of (s : string) (c : ascii) (pos : nat) : option nat :=
  find_if (Ascii.eqb c) s pos.
Definition find_first_not_of (s : string) (c : ascii) : option nat :=
  find_if (fun a => negb (Ascii.eqb c a)) s O.

(** [s.find_last_of(c)] for a pattern of one character. *)
Fixpoint find_last_of (s : string) (c : ascii) : option nat :=
  match s with
  | EmptyString => None
  | String a s' =>
      match find_last_of s' c with
      | Some n => Some (S n)
      | None => if Ascii.eqb c a then Some O else None
      end
  end.

(** [s.substr(pos, n)] with [pos] within the string; the count [None]
    is [npos], the rest of the string. *)
Definition substr (s : string) (pos : nat) (n : option nat) : string :=
  match n with
  | Some n => substring pos n s
  | None => substring pos (length s) s
  end.

(** [s.substr(pos)] with a position given as a [std::size_t]; past the
    end of the string it throws [std::out_of_range] ([None]). *)
Definition substr_from (s : string) (pos : Z) : option string :=
  if (pos <=? Z.of_nat (length s))%Z
  then Some (substr s (Z.to_nat pos) None)
  else None.

(** [std::isspace] in the C locale. *)
Definition isspace (c : ascii) : bool :=
  let n := nat_of_ascii c in
  (n =? 32)%nat || ((9 <=? n)%nat && (n <=? 13)%nat).

(** The strings the successive extractions [streamline >> ...] give:
    the maximal runs of characters that are not white space.  [word]
    holds the run being read. *)
Fixpoint words_from (s : string) (word : string) : list string :=
  match s with
  | EmptyString => if String.eqb word EmptyString then nil else word :: nil
  | String c s' =>
      if isspace c
      then if String.eqb word EmptyString then words_from s' EmptyString
           else word :: words_from s' EmptyString
      else words_from s' (word ++ String c EmptyString)
  end.

Definition words (s : string) : list string := words_from s EmptyString.

(** *** [Input::Input(int argc, char* argv[])], once the file is open *)

(** The locals [blockName] and [haveBlock] of the constructor and the
    member [inputParameters]. *)
Record parser : Type := mkParser {
  blockName : string;
  haveBlock : bool;
  inputParameters : IdefixInputContainer
}.

(** [inputParameters[blockName][paramName].push_back(paramValue)]. *)
Definition push_back (m : IdefixInputContainer)
  (blockName paramName paramValue : string) : IdefixInputContainer :=
  let block := match m blockName with
               | Some block => block
               | None => fun _ => None
               end in
  let values := match block paramName with
                | Some values => values
                | None => nil
                end in
  fun b =>
    if String.eqb b blockName
    then Some (fun p =>
                 if String.eqb p paramName
                 then Some (values ++ paramValue :: nil)%list
                 else block p)
    else m b.

(** The values stored for a parameter of a block, if any: the two
    [find] of the accessors. *)
Definition lookup (m : IdefixInputContainer) (blockName paramName : string)
  : option (list string) :=
  match m blockName with
  | Some block => block paramName
  | None => None
  end.

(** The body of the loop over the lines [std::getline] reads. *)
Definition parse_line (this : parser) (lineWithComments : string)
  : outcome parser :=
  let line := substr lineWithComments 0 (find lineWithComments "#" 0) in
  if String.eqb line EmptyString then Returns this     (* skip blank line *)
  else
    match find_first_not_of line " " with
    | None => Returns this                    (* line is all white space *)
    | Some firstChar =>
        if String.eqb (substr line firstChar (Some 1%nat)) "[" then
          (* a new block *)
          let firstChar := S firstChar in
          match find_first_of line "]" firstChar with
          | None => IDEFIX_ERROR (BlockNotEnded (blockName this))
          | Some lastChar =>
              Returns (mkParser (substr line firstChar (Some (lastChar - 1)%nat))
                         true (inputParameters this))
          end
        else if negb (haveBlock this) then IDEFIX_ERROR NoBlockName
        else
          match words line with
          | nil => Returns this
          | paramName :: paramValues =>
              Returns
                (mkParser (blockName this) (haveBlock this)
                   (fold_left
                      (fun m paramValue =>
                         push_back m (blockName this) paramName paramValue)
                      paramValues (inputParameters this)))
          end
    end.

(** The loop [while(std::getline(file, lineWithComments))] over the
    lines of the file, stopped by the first error. *)
Fixpoint parse_lines (lines : list string) (this : parser) : outcome parser :=
  match lines with
  | nil => Returns this
  | lineWithComments :: lines =>
      match parse_line this lineWithComments with
      | Returns this => parse_lines lines this
      | IDEFIX_ERROR msg => IDEFIX_ERROR msg
      end
  end.

Definition parse_file (lines : list string) : outcome parser :=
  parse_lines lines (mkParser EmptyString false (fun _ => None)).

(** *** The accessors *)

(** [std::string Input::getFileExtension(const std::string file_name)]:
    the position is stored in an [int]. *)
Definition getFileExtension (file_name : string) : option string :=
  let position := to_int match find_last_of file_name "." with
                         | Some p => Z.of_nat p
                         | None => npos
                         end in
  let ext := substr_from file_name (to_size_t (position + 1)) in
  ext.

Section Get.

Variable inputParameters : IdefixInputContainer.
(** [std::stod] (or [std::stof]) and [std::stoi], on a string they
    accept. *)
Variable stod : string -> real.
Variable stoi : string -> Z.




(** [int Input::CheckEntry(std::string blockName, std::string paramName)]. *)
Definition CheckEntry (blockName paramName : string) : Z :=
  let result := (-1)%Z in
  match inputParameters blockName with
  | Some block =>
      match block paramName with
      | Some param => to_int (Z.of_nat (List.length param))
      | None => result
      end
  | None => result
  end.

End Get.

End Input.

(** * Properties *)

(** ** Index ranges *)

Lemma eqb3_true (a b : Index3) : eqb3 a b = true <-> a = b.
Proof.
  destruct a as [[k j] i], b as [[k' j'] i']; unfold eqb3.
  rewrite !andb_true_iff, !Z.eqb_eq.
  split; [intros [[-> ->] ->]; reflexivity | intros [= -> -> ->]; auto].
Qed.

Lemma eqb3_refl (a : Index3) : eqb3 a a = true.
Proof. apply eqb3_true; reflexivity. Qed.

Lemma eqb3_false (a b : Index3) : eqb3 a b = false <-> a <> b.
Proof.
  rewrite <- eqb3_true. destruct (eqb3 a b); split; congruence.
Qed.

Lemma in_zrange (b e i : Z) : In i (zrange b e) <-> (b <= i < e)%Z.
Proof.
  unfold zrange. rewrite in_map_iff. split.
  - intros [n [<- Hn]]. apply in_seq in Hn. lia.
  - intros H. exists (Z.to_nat (i - b)). split; [lia |].
    apply in_seq. lia.
Qed.

Lemma length_zrange (b e : Z) : length (zrange b e) = Z.to_nat (e - b).
Proof. unfold zrange. now rewrite length_map, length_seq. Qed.

Lemma NoDup_zrange (b e : Z) : NoDup (zrange b e).
Proof.
  unfold zrange. generalize (seq_NoDup (Z.to_nat (e - b)) 0).
  generalize (seq 0 (Z.to_nat (e - b))) as l.
  induction l as [| n l IH]; intros Hnd; cbn; [constructor |].
  inversion Hnd as [| ? ? Hnotin Hnd']; subst. constructor; [| auto].
  rewrite in_map_iff. intros [m [Heq Hm]].
  assert (m = n) by lia. subst m. contradiction.
Qed.

Lemma in_range3 (kb ke jb je ib ie k j i : Z) :
  In (k, j, i) (range3 kb ke jb je ib ie) <->
  (kb <= k < ke)%Z /\ (jb <= j < je)%Z /\ (ib <= i < ie)%Z.
Proof.
  unfold range3. rewrite in_flat_map. split.
  - intros [k' [Hk H]]. apply in_flat_map in H. destruct H as [j' [Hj H]].
    apply in_map_iff in H. destruct H as [i' [[= -> -> ->] Hi]].
    rewrite in_zrange in Hk, Hj, Hi. auto.
  - intros (Hk & Hj & Hi). exists k. split; [now apply in_zrange |].
    apply in_flat_map. exists j. split; [now apply in_zrange |].
    apply in_map_iff. exists i. split; [reflexivity | now apply in_zrange].
Qed.

Lemma length_flat_map_const {X Y : Type} (f : X -> list Y) (n : nat) (l : list X) :
  (forall a, length (f a) = n) -> length (flat_map f l) = (length l * n)%nat.
Proof.
  intros Hf. induction l as [| a l IH]; cbn; [reflexivity |].
  now rewrite length_app, Hf, IH.
Qed.

Lemma length_range3 (kb ke jb je ib ie : Z) :
  length (range3 kb ke jb je ib ie) =
  (Z.to_nat (ke - kb) * (Z.to_nat (je - jb) * Z.to_nat (ie - ib)))%nat.
Proof.
  unfold range3.
  rewrite (length_flat_map_const _ (Z.to_nat (je - jb) * Z.to_nat (ie - ib))).
  - now rewrite length_zrange.
  - intros k. rewrite (length_flat_map_const _ (Z.to_nat (ie - ib))).
    + now rewrite length_zrange.
    + intros j. now rewrite length_map, length_zrange.
Qed.

Lemma NoDup_map_inj {X Y : Type} (f : X -> Y) (l : list X) :
  (forall a b, f a = f b -> a = b) -> NoDup l -> NoDup (map f l).
Proof.
  intros Hinj Hnd. induction Hnd as [| a l Hnotin Hnd IH]; cbn; constructor; auto.
  rewrite in_map_iff. intros [b [Heq Hb]]. apply Hinj in Heq. now subst.
Qed.

Lemma NoDup_flat_map {X Y : Type} (f : X -> list Y) (l : list X) :
  NoDup l ->
  (forall a, NoDup (f a)) ->
  (forall a b y, In y (f a) -> In y (f b) -> a = b) ->
  NoDup (flat_map f l).
Proof.
  intros Hnd Hf Hsep. induction Hnd as [| a l Hnotin Hnd IH]; cbn; [constructor |].
  apply NoDup_app; auto.
  intros y Hya Hyl. apply in_flat_map in Hyl. destruct Hyl as [b [Hb Hyb]].
  rewrite (Hsep a b y Hya Hyb) in Hnotin. contradiction.
Qed.

Lemma NoDup_range3 (kb ke jb je ib ie : Z) : NoDup (range3 kb ke jb je ib ie).
Proof.
  unfold range3. apply NoDup_flat_map.
  - apply NoDup_zrange.
  - intros k. apply NoDup_flat_map.
    + apply NoDup_zrange.
    + intros j. apply NoDup_map_inj; [| apply NoDup_zrange].
      intros a b [= ->]. reflexivity.
    + intros a b y Ha Hb. apply in_map_iff in Ha, Hb.
      destruct Ha as [? [<- _]], Hb as [? [[= -> _] _]]. reflexivity.
  - intros a b y Ha Hb. apply in_flat_map in Ha, Hb.
    destruct Ha as [? [_ Ha]], Hb as [? [_ Hb]].
    apply in_map_iff in Ha, Hb.
    destruct Ha as [? [<- _]], Hb as [? [[= -> _ _] _]]. reflexivity.
Qed.

(** ** What a loop of single-cell writes leaves in an array

    [p] reads a cell of one array of the state, [step] is one iteration;
    an iteration [i] overwrites the cells [j] it hits with [g j] and
    leaves the others. *)

Section LoopWrites.

Context {S I J T : Type}.
Variable p : S -> J -> T.
Variable step : S -> I -> S.
Variable hit : I -> J -> bool.
Variable g : J -> T.

Hypothesis step_writes :
  forall s i j, p (step s i) j = if hit i j then g j else p s j.

Lemma loop_hit (l : list I) (s : S) (j : J) :
  (exists i, In i l /\ hit i j = true) -> p (fold_left step l s) j = g j.
Proof.
  induction l as [| a l IH] using rev_ind; intros [i [Hin Hhit]].
  - destruct Hin.
  - rewrite fold_left_app. cbn. rewrite step_writes.
    destruct (hit a j) eqn:Ha; [reflexivity |].
    apply IH. exists i. split; [| exact Hhit].
    apply in_app_iff in Hin. destruct Hin as [Hin | [<- | []]]; [exact Hin |].
    congruence.
Qed.

Lemma loop_miss (l : list I) (s : S) (j : J) :
  (forall i, In i l -> hit i j = false) -> p (fold_left step l s) j = p s j.
Proof.
  induction l as [| a l IH] using rev_ind; intros Hmiss; [reflexivity |].
  rewrite fold_left_app. cbn. rewrite step_writes.
  rewrite (Hmiss a) by (apply in_app_iff; right; now left).
  apply IH. intros i Hi. apply Hmiss. apply in_app_iff. now left.
Qed.

End LoopWrites.

(** A loop whose iterations leave a component of the state alone leaves
    it alone. *)
Lemma loop_keeps {S I X : Type} (q : S -> X) (step : S -> I -> S) :
  (forall s i, q (step s i) = q s) ->
  forall l s, q (fold_left step l s) = q s.
Proof.
  intros Hq l. induction l as [| a l IH]; intros s; cbn; [reflexivity |].
  now rewrite IH, Hq.
Qed.

(** ** The sweep of [TvdlfHD] over the faces *)

Section TvdlfHD_sweep.

Variable NVAR : nat.
Variables RHO PRS : nat.
Variable HAVE_ENERGY : bool.
Variable K_PrimToCons : (nat -> real) -> real -> nat -> real.
Variable K_Flux : (nat -> real) -> (nat -> real) -> real -> nat -> nat -> real.

Abbreviation kernel := (TVDLF_Kernel RHO PRS HAVE_ENERGY K_PrimToCons K_Flux).
Abbreviation body := (TVDLF_body NVAR RHO PRS HAVE_ENERGY K_PrimToCons K_Flux).
Abbreviation tvdlf := (TvdlfHD NVAR RHO PRS HAVE_ENERGY K_PrimToCons K_Flux).

(** The inner loop over [nv] at one face. *)
Lemma flux_loop_cMax (k j i : Z) (Fx : nat -> xreal) (l : list nat) (d : DataBlock) :
  cMax (fold_left
          (fun d nv => set_FluxRiemann (upd4 (FluxRiemann d) nv k j i (Fx nv)) d)
          l d) = cMax d.
Proof. apply (loop_keeps cMax). reflexivity. Qed.

Lemma flux_loop_Flux (k j i : Z) (Fx : nat -> xreal) (d : DataBlock)
  (nv : nat) (idx : Index3) :
  read_Flux
    (fold_left
       (fun d nv => set_FluxRiemann (upd4 (FluxRiemann d) nv k j i (Fx nv)) d)
       (seq 0 NVAR) d) (nv, idx) =
  if (nv <? NVAR)%nat && eqb3 idx (k, j, i) then Fx nv else read_Flux d (nv, idx).
Proof.
  set (step := fun d nv => set_FluxRiemann (upd4 (FluxRiemann d) nv k j i (Fx nv)) d).
  set (hit := fun (n : nat) (c : nat * Index3) =>
                (fst c =? n)%nat && eqb3 (snd c) (k, j, i)).
  assert (Hstep : forall s n c,
             read_Flux (step s n) c =
             if hit n c then Fx (fst c) else read_Flux s c).
  { intros s n [nv' [[k' j'] i']]. unfold hit, step, read_Flux, upd4. cbn.
    destruct (Nat.eqb_spec nv' n) as [-> |]; cbn; [| reflexivity].
    reflexivity. }
  destruct ((nv <? NVAR)%nat && eqb3 idx (k, j, i)) eqn:E.
  - apply andb_true_iff in E. destruct E as [Hnv Hidx].
    apply Nat.ltb_lt in Hnv.
    apply (loop_hit read_Flux step hit (fun c => Fx (fst c)) Hstep).
    exists nv. split; [apply in_seq; lia |].
    unfold hit. cbn. now rewrite Nat.eqb_refl, Hidx.
  - apply (loop_miss read_Flux step hit (fun c => Fx (fst c)) Hstep).
    intros n Hn. apply in_seq in Hn. unfold hit. cbn.
    destruct (Nat.eqb_spec nv n) as [-> |]; [| reflexivity].
    cbn. apply andb_false_iff in E. destruct E as [E | E]; [| exact E].
    apply Nat.ltb_ge in E. lia.
Qed.

Section OneSweep.

Variable DIR : Dir.
Variable Xn : nat.
Variable data : DataBlock.
Variables gamma C2Iso : real.

Abbreviation face_result :=
  (face_result RHO PRS HAVE_ENERGY K_PrimToCons K_Flux Xn data gamma C2Iso).

Let step : DataBlock -> Index3 -> DataBlock :=
  fun s '(k, j, i) => body Xn (gamma - ONE_F) C2Iso (PrimL data) (PrimR data) k j i s.

Lemma step_cMax (s0 : DataBlock) (idx c : Index3) :
  read_cMax (step s0 idx) c =
  if eqb3 idx c
  then (let '(k, j, i) := c in snd (face_result k j i))
  else read_cMax s0 c.
Proof.
  destruct idx as [[k j] i], c as [[k' j'] i'].
  unfold step, TVDLF_body.
  change (kernel Xn (gamma - ONE_F) C2Iso
            (fun nv => PrimL data nv k j i) (fun nv => PrimR data nv k j i))
    with (face_result k j i).
  destruct (face_result k j i) as [Fx cm] eqn:Ek.
  cbn [read_cMax cMax set_cMax]. unfold upd3. rewrite flux_loop_cMax.
  destruct (eqb3 (k', j', i') (k, j, i)) eqn:E.
  - apply eqb3_true in E. injection E as -> -> ->.
    rewrite eqb3_refl, Ek. reflexivity.
  - assert (E' : eqb3 (k, j, i) (k', j', i') = false).
    { apply eqb3_false. apply eqb3_false in E. congruence. }
    rewrite E'. reflexivity.
Qed.

Lemma step_Flux (s0 : DataBlock) (idx : Index3) (c : nat * Index3) :
  read_Flux (step s0 idx) c =
  if (fst c <? NVAR)%nat && eqb3 idx (snd c)
  then (let '(nv, (k, j, i)) := c in fst (face_result k j i) nv)
  else read_Flux s0 c.
Proof.
  destruct idx as [[k j] i], c as [nv [[k' j'] i']].
  unfold step, TVDLF_body.
  change (kernel Xn (gamma - ONE_F) C2Iso
            (fun nv => PrimL data nv k j i) (fun nv => PrimR data nv k j i))
    with (face_result k j i).
  destruct (face_result k j i) as [Fx cm] eqn:Ek.
  cbv zeta.
  match goal with
  | |- read_Flux (set_cMax ?v ?d) ?c = _ =>
      change (read_Flux (set_cMax v d) c) with (read_Flux d c)
  end.
  rewrite flux_loop_Flux. cbn [fst snd].
  destruct (eqb3 (k', j', i') (k, j, i)) eqn:E.
  - apply eqb3_true in E. injection E as -> -> ->.
    rewrite eqb3_refl, Ek. reflexivity.
  - assert (E' : eqb3 (k, j, i) (k', j', i') = false).
    { apply eqb3_false. apply eqb3_false in E. congruence. }
    rewrite E', andb_false_r. reflexivity.
Qed.

Lemma TvdlfHD_fold :
  tvdlf DIR Xn data gamma C2Iso = fold_left step (sweep_faces DIR data) data.
Proof. reflexivity. Qed.

Lemma in_sweep_faces (k j i : Z) :
  In (k, j, i) (sweep_faces DIR data) <-> in_sweep DIR data k j i.
Proof. unfold sweep_faces, in_sweep. apply in_range3. Qed.

Lemma TvdlfHD_cMax_in (k j i : Z) :
  in_sweep DIR data k j i ->
  cMax (tvdlf DIR Xn data gamma C2Iso) k j i = snd (face_result k j i).
Proof.
  intros Hin. rewrite TvdlfHD_fold.
  apply (loop_hit read_cMax step eqb3
           (fun c => let '(k, j, i) := c in snd (face_result k j i))
           step_cMax _ _ (k, j, i)).
  exists (k, j, i). split; [now apply in_sweep_faces | apply eqb3_refl].
Qed.

Lemma TvdlfHD_cMax_out (k j i : Z) :
  ~ in_sweep DIR data k j i ->
  cMax (tvdlf DIR Xn data gamma C2Iso) k j i = cMax data k j i.
Proof.
  intros Hout. rewrite TvdlfHD_fold.
  apply (loop_miss read_cMax step eqb3
           (fun c => let '(k, j, i) := c in snd (face_result k j i))
           step_cMax _ _ (k, j, i)).
  intros [[k' j'] i'] Hin. apply eqb3_false. intros [= -> -> ->].
  apply Hout. now apply in_sweep_faces.
Qed.

Lemma TvdlfHD_Flux_in (nv : nat) (k j i : Z) :
  in_sweep DIR data k j i -> (nv < NVAR)%nat ->
  FluxRiemann (tvdlf DIR Xn data gamma C2Iso) nv k j i =
  fst (face_result k j i) nv.
Proof.
  intros Hin Hnv. rewrite TvdlfHD_fold.
  apply (loop_hit read_Flux step
           (fun idx c => (fst c <? NVAR)%nat && eqb3 idx (snd c))
           (fun c => let '(nv, (k, j, i)) := c in fst (face_result k j i) nv)
           step_Flux _ _ (nv, (k, j, i))).
  exists (k, j, i). split; [now apply in_sweep_faces |].
  cbn -[eqb3]. rewrite eqb3_refl, andb_true_r. now apply Nat.ltb_lt.
Qed.

Lemma TvdlfHD_Flux_out (nv : nat) (k j i : Z) :
  ~ in_sweep DIR data k j i \/ (NVAR <= nv)%nat ->
  FluxRiemann (tvdlf DIR Xn data gamma C2Iso) nv k j i =
  FluxRiemann data nv k j i.
Proof.
  intros Hout. rewrite TvdlfHD_fold.
  apply (loop_miss read_Flux step
           (fun idx c => (fst c <? NVAR)%nat && eqb3 idx (snd c))
           (fun c => let '(nv, (k, j, i)) := c in fst (face_result k j i) nv)
           step_Flux _ _ (nv, (k, j, i))).
  intros [[k' j'] i'] Hin. cbn -[eqb3]. apply andb_false_iff.
  destruct Hout as [Hout | Hout].
  - right. apply eqb3_false. intros [= -> -> ->].
    apply Hout. now apply in_sweep_faces.
  - left. apply Nat.ltb_ge. exact Hout.
Qed.

End OneSweep.

End TvdlfHD_sweep.

(** ** The solver for one face *)

Lemma Rmax_abs_sum (v c : real) :
  0 <= c -> Rmax (Rabs (v + c)) (Rabs (v - c)) = Rabs v + c.
Proof.
  intros Hc. unfold Rmax, Rabs.
  destruct (Rcase_abs (v + c)), (Rcase_abs (v - c)), (Rcase_abs v);
    destruct (Rle_dec _ _); lra.
Qed.

Lemma SQRT_defined (a : real) : 0 <= a -> SQRT a = Some (sqrt a).
Proof. intros Ha. unfold SQRT. destruct (Rlt_dec a 0); [lra | reflexivity]. Qed.

Lemma SQRT_undefined (a : real) : a < 0 -> SQRT a = None.
Proof. intros Ha. unfold SQRT. destruct (Rlt_dec a 0); [reflexivity | lra]. Qed.

Lemma fdiv_defined (a b : real) : b <> 0 -> fdiv a b = Some (a / b).
Proof. intros Hb. unfold fdiv. destruct (Req_dec_T b 0); [contradiction | reflexivity]. Qed.

Lemma fdiv_undefined (a : real) : fdiv a 0 = None.
Proof. unfold fdiv. destruct (Req_dec_T 0 0); [reflexivity | contradiction]. Qed.

Lemma fdiv_Some (a b q : real) : fdiv a b = Some q -> b <> 0 /\ q = a / b.
Proof.
  unfold fdiv. destruct (Req_dec_T b 0); [discriminate |].
  intros [= <-]. auto.
Qed.

Lemma SQRT_Some (a c : real) : SQRT a = Some c -> 0 <= a /\ c = sqrt a.
Proof.
  unfold SQRT. destruct (Rlt_dec a 0); [discriminate |].
  intros [= <-]. split; [lra | reflexivity].
Qed.

Section TvdlfHD_face.

Variables RHO PRS : nat.
Variable HAVE_ENERGY : bool.
Variable K_PrimToCons : (nat -> real) -> real -> nat -> real.
Variable K_Flux : (nat -> real) -> (nat -> real) -> real -> nat -> nat -> real.

Abbreviation kernel := (TVDLF_Kernel RHO PRS HAVE_ENERGY K_PrimToCons K_Flux).

(** The wave speed of a face is the spec's [cmax] of the averaged state. *)
Lemma kernel_cmax (Xn : nat) (gamma C2Iso : real) (vL vR : nat -> real) :
  snd (kernel Xn (gamma - ONE_F) C2Iso vL vR) =
  spec_cmax RHO PRS HAVE_ENERGY Xn gamma C2Iso (stateAvg vL vR).
Proof.
  unfold TVDLF_Kernel, spec_cmax, spec_soundSpeed, stateAvg. cbn [snd].
  unfold HALF_F, ONE_F, FMAX, FABS.
  destruct HAVE_ENERGY; [| reflexivity].
  unfold fdiv. destruct (Req_dec_T _ 0) as [E | E]; [reflexivity |].
  cbn [bindx].
  replace ((gamma - 1 + 1) * (0.5 * (vL PRS + vR PRS) / (0.5 * (vL RHO + vR RHO))))
    with ((gamma - 1 + 1) * (0.5 * (vL PRS + vR PRS)) / (0.5 * (vL RHO + vR RHO)))
    by (field; split; [intros H; apply E; rewrite H; lra | lra]).
  reflexivity.
Qed.

(** The flux of a face is the Rusanov blend with the face's wave
    speed: half the sum of the two physical fluxes minus half the wave
    speed times the jump of the conservative variables. *)
Lemma kernel_flux (Xn : nat) (gamma_m1 C2Iso : real) (vL vR : nat -> real) (nv : nat) :
  let uL := K_PrimToCons vL gamma_m1 in
  let uR := K_PrimToCons vR gamma_m1 in
  let fluxL := K_Flux vL uL C2Iso Xn in
  let fluxR := K_Flux vR uR C2Iso Xn in
  fst (kernel Xn gamma_m1 C2Iso vL vR) nv =
  (c <- snd (kernel Xn gamma_m1 C2Iso vL vR) ;;
   Some (0.5 * (fluxL nv + fluxR nv) - 0.5 * c * (uR nv - uL nv))).
Proof.
  unfold TVDLF_Kernel. cbn [fst snd].
  match goal with |- bindx ?m _ = bindx ?m _ => destruct m as [c |] end;
    [| reflexivity].
  cbn [bindx]. f_equal. unfold HALF_F. lra.
Qed.

(** The spec's [cmax] of a state whose sound speed is defined. *)
Lemma spec_cmax_defined (Xn : nat) (gamma C2Iso : real) (v : nat -> real) :
  soundSpeed_defined RHO PRS HAVE_ENERGY gamma C2Iso v ->
  spec_cmax RHO PRS HAVE_ENERGY Xn gamma C2Iso v =
  Some (signalSpeed RHO PRS HAVE_ENERGY Xn gamma C2Iso v).
Proof.
  unfold soundSpeed_defined, spec_cmax, spec_soundSpeed, signalSpeed, soundSpeed.
  destruct HAVE_ENERGY.
  - intros [Hrho Hq]. rewrite fdiv_defined by exact Hrho. cbn [bindx].
    replace ((gamma - 1 + 1) * v PRS / v RHO) with (gamma * v PRS / v RHO)
      by (field; exact Hrho).
    rewrite SQRT_defined by exact Hq. cbn [bindx].
    now rewrite Rmax_abs_sum by apply sqrt_pos.
  - intros Hc. rewrite SQRT_defined by exact Hc. cbn [bindx].
    now rewrite Rmax_abs_sum by apply sqrt_pos.
Qed.

(** Conversely the spec's [cmax] is a number only on such a state, and
    then it is not negative. *)
Lemma spec_cmax_Some (Xn : nat) (gamma C2Iso : real) (v : nat -> real) (c : real) :
  spec_cmax RHO PRS HAVE_ENERGY Xn gamma C2Iso v = Some c ->
  soundSpeed_defined RHO PRS HAVE_ENERGY gamma C2Iso v /\ 0 <= c.
Proof.
  unfold soundSpeed_defined, spec_cmax, spec_soundSpeed.
  destruct HAVE_ENERGY.
  - destruct (fdiv _ _) as [q |] eqn:Eq; [| discriminate]. cbn [bindx].
    apply fdiv_Some in Eq. destruct Eq as [Hrho ->].
    destruct (SQRT _) as [cs |] eqn:Es; [| discriminate]. cbn [bindx].
    apply SQRT_Some in Es. destruct Es as [Hq _]. intros [= <-].
    split; [split; [exact Hrho |] |].
    + replace (gamma * v PRS / v RHO) with ((gamma - 1 + 1) * v PRS / v RHO)
        by (field; exact Hrho).
      exact Hq.
    + eapply Rle_trans; [apply Rabs_pos | apply Rmax_l].
  - destruct (SQRT _) as [cs |] eqn:Es; [| discriminate]. cbn [bindx].
    apply SQRT_Some in Es. destruct Es as [Hq _]. intros [= <-].
    split; [exact Hq |].
    eapply Rle_trans; [apply Rabs_pos | apply Rmax_l].
Qed.

End TvdlfHD_face.

(** ** The claims on the Riemann solver *)

Lemma in_sweep_faces_block (DIR : Dir) (vL vR : nat -> real) :
  in_sweep DIR (faces_block 1 vL vR) 0 0 0.
Proof. unfold in_sweep; destruct DIR; cbn; lia. Qed.

Lemma sqrt_of_square (a c : real) : 0 <= c -> a = c * c -> sqrt a = c.
Proof. intros Hc ->. now apply sqrt_square. Qed.

(** The wave speed of the ideal-gas solver at a face whose averaged
    state has density [rho], normal velocity zero and pressure [p], when
    [gamma * p / rho] is the square of [c]. *)
Lemma ideal_cmax_at_rest (Xn : nat) (gamma C2Iso rho p c : real) (vL vR : nat -> real) :
  0.5 * (vL RHO + vR RHO) = rho -> 0.5 * (vL PRS + vR PRS) = p ->
  0.5 * (vL Xn + vR Xn) = 0 ->
  rho <> 0 -> 0 <= c -> gamma * p / rho = c * c ->
  snd (solveFace_ideal Xn gamma C2Iso vL vR) = Some c.
Proof.
  intros Hrho Hp Hv Hrho0 Hc Hsq. unfold solveFace_ideal.
  rewrite kernel_cmax, spec_cmax_defined.
  - unfold signalSpeed, soundSpeed, stateAvg. rewrite Hrho, Hp, Hv.
    rewrite (sqrt_of_square _ c Hc Hsq), Rabs_R0. f_equal. lra.
  - unfold soundSpeed_defined, stateAvg. rewrite Hrho, Hp, Hsq.
    split; [exact Hrho0 | nra].
Qed.

(** The solver on a block of 4 x 4 x 4 cells whose faces all carry the
    state of density 1 and pressure 4 at rest on both sides, swept along
    the third direction with gamma = 2.25, so that the sound speed is 3:
    the face (4, 3, 2), last along the sweep, receives the wave speed 3
    and, as normal-momentum flux, the pressure; the index (4, 4, 2), past
    the last transverse cell, is left as it was. *)
Example uniform_state_sweep :
  let A := prim 1 0 0 0 4 in
  let d' := TvdlfHD_ideal KDIR VX3 (faces_block 4 A A) 2.25 0 in
  cMax d' 4%Z 3%Z 2%Z = Some 3 /\
  FluxRiemann d' VX3 4%Z 3%Z 2%Z = Some 4 /\
  cMax d' 4%Z 4%Z 2%Z = Some 0.
Proof.
  intros A d'.
  assert (Hin : in_sweep KDIR (faces_block 4 A A) 4 3 2) by (unfold in_sweep; cbn; lia).
  assert (Hc : snd (solveFace_ideal VX3 2.25 0 A A) = Some 3).
  { apply (ideal_cmax_at_rest VX3 2.25 0 1 4 3); unfold A; cbn; lra. }
  split; [| split].
  - unfold d', TvdlfHD_ideal. rewrite TvdlfHD_cMax_in by exact Hin. exact Hc.
  - unfold d', TvdlfHD_ideal.
    rewrite TvdlfHD_Flux_in by (try exact Hin; unfold NVAR_HD, VX3; lia).
    unfold face_result. rewrite kernel_flux.
    change (stateL (faces_block 4 A A) 4 3 2) with A.
    change (stateR (faces_block 4 A A) 4 3 2) with A.
    unfold solveFace_ideal in Hc. rewrite Hc. unfold A. cbn. f_equal. lra.
  - unfold d', TvdlfHD_ideal. rewrite TvdlfHD_cMax_out; [reflexivity |].
    unfold in_sweep. cbn. lia.
Qed.

(** C1, as the spec words it, fails: on a face with left state
    (rho 1, p 2) and right state (rho 3, p 6), both at rest, with
    gamma = 2, the wave speed is 2 and the density flux written by the
    solver is -2, where the spec's blend
    0.5*(fluxL + fluxR) - cmax*(uR - uL) is -4. *)
Lemma C1_counterexample :
  let d := faces_block 1 (prim 1 0 0 0 2) (prim 3 0 0 0 6) in
  let d' := TvdlfHD_ideal IDIR VX1 d 2 0 in
  in_sweep IDIR d 0 0 0 /\
  cMax d' 0%Z 0%Z 0%Z = Some 2 /\
  FluxRiemann d' RHO 0%Z 0%Z 0%Z = Some (- 2) /\
  spec_blend K_PrimToCons_HD K_Flux_HD VX1 (2 - ONE_F) 0 2
    (stateL d 0 0 0) (stateR d 0 0 0) RHO = - 4.
Proof.
  intros d d'.
  assert (Hin : in_sweep IDIR d 0 0 0) by apply in_sweep_faces_block.
  assert (Hc : snd (solveFace_ideal VX1 2 0 (prim 1 0 0 0 2) (prim 3 0 0 0 6)) = Some 2).
  { apply (ideal_cmax_at_rest VX1 2 0 2 4 2); cbn; lra. }
  split; [exact Hin |]. split; [| split].
  - unfold d', TvdlfHD_ideal. rewrite TvdlfHD_cMax_in by exact Hin. exact Hc.
  - unfold d', TvdlfHD_ideal.
    rewrite TvdlfHD_Flux_in by (try exact Hin; unfold NVAR_HD, RHO; lia).
    unfold face_result. rewrite kernel_flux.
    change (stateL d 0 0 0) with (prim 1 0 0 0 2).
    change (stateR d 0 0 0) with (prim 3 0 0 0 6).
    unfold solveFace_ideal in Hc. rewrite Hc. cbn. f_equal. lra.
  - unfold spec_blend, physicalFlux, stateL, stateR. cbn. lra.
Qed.

(** C1 (amended).  For every face of the sweep and every component, the
    flux the solver writes is 0.5*(fluxLeft + fluxRight)
    - 0.5*cmax*(conservativeRight - conservativeLeft), where fluxLeft and
    fluxRight are the physical fluxes of the left and right states,
    conservativeLeft and conservativeRight their conservative transforms
    and cmax the wave speed written for that face: the factor one half
    applies to the dissipation term too.  When the wave speed is not a
    finite number, neither is the flux. *)
Theorem C1_flux_is_rusanov_blend
  (NVAR RHO PRS : nat) (HAVE_ENERGY : bool)
  (K_PrimToCons : (nat -> real) -> real -> nat -> real)
  (K_Flux : (nat -> real) -> (nat -> real) -> real -> nat -> nat -> real)
  (DIR : Dir) (Xn : nat) (data : DataBlock) (gamma C2Iso : real)
  (nv : nat) (k j i : Z) :
  let data' := TvdlfHD NVAR RHO PRS HAVE_ENERGY K_PrimToCons K_Flux
                 DIR Xn data gamma C2Iso in
  let uL := K_PrimToCons (stateL data k j i) (gamma - ONE_F) in
  let uR := K_PrimToCons (stateR data k j i) (gamma - ONE_F) in
  let fluxL := K_Flux (stateL data k j i) uL C2Iso Xn in
  let fluxR := K_Flux (stateR data k j i) uR C2Iso Xn in
  in_sweep DIR data k j i -> (nv < NVAR)%nat ->
  FluxRiemann data' nv k j i =
  (cmax <- cMax data' k j i ;;
   Some (0.5 * (fluxL nv + fluxR nv) - 0.5 * cmax * (uR nv - uL nv))).
Proof.
  intros data' uL uR fluxL fluxR Hin Hnv. unfold data'.
  rewrite TvdlfHD_Flux_in, TvdlfHD_cMax_in by assumption.
  unfold face_result. apply kernel_flux.
Qed.

Lemma C1_flux_is_rusanov_blend_witness :
  let d := faces_block 1 (prim 1 0 0 0 2) (prim 3 0 0 0 6) in
  let d' := TvdlfHD_ideal IDIR VX1 d 2 0 in
  let uL := K_PrimToCons_HD (stateL d 0 0 0) (2 - ONE_F) in
  let uR := K_PrimToCons_HD (stateR d 0 0 0) (2 - ONE_F) in
  in_sweep IDIR d 0 0 0 /\ (RHO < NVAR_HD)%nat /\
  FluxRiemann d' RHO 0%Z 0%Z 0%Z =
  (cmax <- cMax d' 0%Z 0%Z 0%Z ;;
   Some (0.5 * (K_Flux_HD (stateL d 0 0 0) uL 0 VX1 RHO
                + K_Flux_HD (stateR d 0 0 0) uR 0 VX1 RHO)
         - 0.5 * cmax * (uR RHO - uL RHO))).
Proof.
  intros d d' uL uR.
  assert (Hin : in_sweep IDIR d 0 0 0) by (unfold in_sweep; cbn; lia).
  assert (Hnv : (RHO < NVAR_HD)%nat) by (unfold RHO, NVAR_HD; lia).
  split; [exact Hin |]. split; [exact Hnv |].
  exact (C1_flux_is_rusanov_blend NVAR_HD RHO PRS true K_PrimToCons_HD K_Flux_HD
           IDIR VX1 d 2 0 RHO 0 0 0 Hin Hnv).
Defined.

(** C2.  For every face of the sweep, the wave speed written to the
    max-wave-speed array is the spec's [cmax] of the component-wise
    average of the left and right states: with an energy equation the
    sound speed is sqrt((gamma-1+1)*pressure/density) of the averaged
    state, in the isothermal configuration it is sqrt(C2Iso) whatever the
    state, and cmax = max(|vn + soundSpeed|, |vn - soundSpeed|) with vn
    the averaged normal velocity. *)
Theorem C2_cmax_from_averaged_state
  (NVAR RHO PRS : nat) (HAVE_ENERGY : bool)
  (K_PrimToCons : (nat -> real) -> real -> nat -> real)
  (K_Flux : (nat -> real) -> (nat -> real) -> real -> nat -> nat -> real)
  (DIR : Dir) (Xn : nat) (data : DataBlock) (gamma C2Iso : real) (k j i : Z) :
  let data' := TvdlfHD NVAR RHO PRS HAVE_ENERGY K_PrimToCons K_Flux
                 DIR Xn data gamma C2Iso in
  let vRL := stateAvg (stateL data k j i) (stateR data k j i) in
  in_sweep DIR data k j i ->
  cMax data' k j i = spec_cmax RHO PRS HAVE_ENERGY Xn gamma C2Iso vRL /\
  spec_cmax RHO PRS HAVE_ENERGY Xn gamma C2Iso vRL =
    (c <- (if HAVE_ENERGY
           then r <- fdiv ((gamma - 1 + 1) * vRL PRS) (vRL RHO) ;; SQRT r
           else SQRT C2Iso) ;;
     Some (Rmax (Rabs (vRL Xn + c)) (Rabs (vRL Xn - c)))).
Proof.
  intros data' vRL Hin. split; [| reflexivity].
  unfold data'. rewrite TvdlfHD_cMax_in by exact Hin.
  unfold face_result. apply kernel_cmax.
Qed.

Lemma C2_cmax_from_averaged_state_witness :
  let d := faces_block 1 (prim 1 0 0 0 2) (prim 3 0 0 0 6) in
  let vRL := stateAvg (stateL d 0 0 0) (stateR d 0 0 0) in
  in_sweep IDIR d 0 0 0 /\
  cMax (TvdlfHD_ideal IDIR VX1 d 2 0) 0%Z 0%Z 0%Z = spec_cmax RHO PRS true VX1 2 0 vRL.
Proof.
  intros d vRL.
  assert (Hin : in_sweep IDIR d 0 0 0) by (unfold in_sweep; cbn; lia).
  split; [exact Hin |].
  exact (proj1 (C2_cmax_from_averaged_state NVAR_HD RHO PRS true
                  K_PrimToCons_HD K_Flux_HD IDIR VX1 d 2 0 0 0 0 Hin)).
Defined.

Lemma spec_cmax_ext (RHO PRS : nat) (HAVE_ENERGY : bool) (Xn : nat)
  (gamma C2Iso : real) (v w : nat -> real) :
  v RHO = w RHO -> v PRS = w PRS -> v Xn = w Xn ->
  spec_cmax RHO PRS HAVE_ENERGY Xn gamma C2Iso v =
  spec_cmax RHO PRS HAVE_ENERGY Xn gamma C2Iso w.
Proof.
  intros Hr Hp Hn. unfold spec_cmax, spec_soundSpeed. now rewrite Hr, Hp, Hn.
Qed.

Lemma stateAvg_same (A : nat -> real) (nv : nat) : stateAvg A A nv = A nv.
Proof. unfold stateAvg. lra. Qed.

(** C6, as the spec words it, fails on a state without a sound speed:
    for the state of density 1 and pressure -1 at rest, with gamma = 2,
    the operand of the square root is -2, the wave speed is not a number
    and neither is the flux the solver returns for equal left and right
    states, while the physical density flux of that state is 0. *)
Lemma C6_counterexample :
  let A := prim 1 0 0 0 (- 1) in
  snd (solveFace_ideal VX1 2 0 A A) = None /\
  fst (solveFace_ideal VX1 2 0 A A) RHO = None /\
  physicalFlux K_PrimToCons_HD K_Flux_HD VX1 (2 - ONE_F) 0 A RHO = 0.
Proof.
  intros A.
  assert (Hc : snd (solveFace_ideal VX1 2 0 A A) = None).
  { unfold solveFace_ideal. rewrite kernel_cmax.
    unfold spec_cmax, spec_soundSpeed, stateAvg, A. cbn [prim RHO PRS].
    rewrite fdiv_defined by lra. cbn [bindx].
    rewrite SQRT_undefined by lra. reflexivity. }
  split; [exact Hc |]. split.
  - unfold solveFace_ideal in *. rewrite kernel_flux, Hc. reflexivity.
  - unfold physicalFlux, A. cbn. lra.
Qed.

(** C6 (amended).  For every primitive state A that has a sound speed
    (with an energy equation: non-zero density and gamma*p/rho not
    negative; isothermal: C2Iso not negative) and every sweep direction,
    solving the face with left and right states both equal to A returns,
    in every component, exactly the physical flux of A, and a wave speed
    equal to the analytic signal speed |vn| + soundSpeed of A, which is
    also max(|vn + soundSpeed|, |vn - soundSpeed|). *)
Theorem C6_equal_states_give_physical_flux
  (RHO PRS : nat) (HAVE_ENERGY : bool)
  (K_PrimToCons : (nat -> real) -> real -> nat -> real)
  (K_Flux : (nat -> real) -> (nat -> real) -> real -> nat -> nat -> real)
  (Xn : nat) (gamma C2Iso : real) (A : nat -> real) :
  let solved := TVDLF_Kernel RHO PRS HAVE_ENERGY K_PrimToCons K_Flux
                  Xn (gamma - ONE_F) C2Iso A A in
  let cs := soundSpeed RHO PRS HAVE_ENERGY gamma C2Iso A in
  soundSpeed_defined RHO PRS HAVE_ENERGY gamma C2Iso A ->
  (forall nv, fst solved nv =
              Some (physicalFlux K_PrimToCons K_Flux Xn (gamma - ONE_F) C2Iso A nv)) /\
  snd solved = Some (signalSpeed RHO PRS HAVE_ENERGY Xn gamma C2Iso A) /\
  signalSpeed RHO PRS HAVE_ENERGY Xn gamma C2Iso A =
    Rmax (Rabs (A Xn + cs)) (Rabs (A Xn - cs)).
Proof.
  intros solved cs Hdef.
  assert (Hc : snd solved = Some (signalSpeed RHO PRS HAVE_ENERGY Xn gamma C2Iso A)).
  { unfold solved. rewrite kernel_cmax.
    rewrite (spec_cmax_ext _ _ _ _ _ _ (stateAvg A A) A) by apply stateAvg_same.
    now apply spec_cmax_defined. }
  split; [| split].
  - intros nv. unfold solved in *. rewrite kernel_flux, Hc. cbn [bindx].
    f_equal. unfold physicalFlux. lra.
  - exact Hc.
  - unfold signalSpeed, cs. symmetry. apply Rmax_abs_sum.
    unfold soundSpeed. destruct HAVE_ENERGY; apply sqrt_pos.
Qed.

Lemma C6_equal_states_give_physical_flux_witness :
  let A := prim 1 0 0 0 1 in
  soundSpeed_defined RHO PRS true 2 0 A /\
  fst (solveFace_ideal VX1 2 0 A A) RHO =
    Some (physicalFlux K_PrimToCons_HD K_Flux_HD VX1 (2 - ONE_F) 0 A RHO).
Proof.
  intros A.
  assert (Hdef : soundSpeed_defined RHO PRS true 2 0 A).
  { unfold soundSpeed_defined, A. cbn. split; lra. }
  split; [exact Hdef |].
  exact (proj1 (C6_equal_states_give_physical_flux RHO PRS true
                  K_PrimToCons_HD K_Flux_HD VX1 2 0 A Hdef) RHO).
Defined.

(** Reversing the normal leaves the wave speed of a face unchanged. *)
Lemma kernel_cmax_mirror (RHO PRS : nat) (HAVE_ENERGY : bool)
  (K_PrimToCons : (nat -> real) -> real -> nat -> real)
  (K_Flux : (nat -> real) -> (nat -> real) -> real -> nat -> nat -> real)
  (Xn : nat) (gamma_m1 C2Iso : real) (L R : nat -> real) :
  Xn <> RHO -> Xn <> PRS ->
  snd (TVDLF_Kernel RHO PRS HAVE_ENERGY K_PrimToCons K_Flux Xn gamma_m1 C2Iso
         (mirror Xn R) (mirror Xn L)) =
  snd (TVDLF_Kernel RHO PRS HAVE_ENERGY K_PrimToCons K_Flux Xn gamma_m1 C2Iso L R).
Proof.
  intros Hrho Hprs. unfold TVDLF_Kernel. cbn [snd]. unfold mirror.
  rewrite Nat.eqb_refl.
  destruct (Nat.eqb_spec RHO Xn) as [E |_]; [congruence |].
  destruct (Nat.eqb_spec PRS Xn) as [E |_]; [congruence |].
  replace (HALF_F * (R PRS + L PRS)) with (HALF_F * (L PRS + R PRS)) by lra.
  replace (HALF_F * (R RHO + L RHO)) with (HALF_F * (L RHO + R RHO)) by lra.
  match goal with |- bindx ?m _ = bindx ?m _ => destruct m as [c |] end;
    [| reflexivity].
  cbn [bindx]. f_equal. unfold FMAX, FABS. rewrite Rmax_comm. f_equal.
  - rewrite <- Rabs_Ropp. f_equal. lra.
  - rewrite <- Rabs_Ropp. f_equal. lra.
Qed.

(** C7.  For all left and right states L, R and every sweep direction
    (normal index Xn), the flux of the face (L, R) is the opposite of the
    flux of the face (R, L) taken in the opposite normal convention - the
    states with their normal velocity reversed, the resulting vector read
    back with its normal component reversed - and both faces have the
    same wave speed, provided the conservative transform is even in the
    normal velocity but for the normal momentum, which is odd, and the
    physical flux has the opposite parities. *)
Theorem C7_flux_antisymmetry
  (RHO PRS : nat) (HAVE_ENERGY : bool)
  (K_PrimToCons : (nat -> real) -> real -> nat -> real)
  (K_Flux : (nat -> real) -> (nat -> real) -> real -> nat -> nat -> real)
  (Xn : nat) (gamma_m1 C2Iso : real) (L R : nat -> real) :
  let solveFace := TVDLF_Kernel RHO PRS HAVE_ENERGY K_PrimToCons K_Flux
                     Xn gamma_m1 C2Iso in
  Xn <> RHO -> Xn <> PRS ->
  (forall v nv, K_PrimToCons (mirror Xn v) gamma_m1 nv =
                mirror Xn (K_PrimToCons v gamma_m1) nv) ->
  (forall v nv, physicalFlux K_PrimToCons K_Flux Xn gamma_m1 C2Iso (mirror Xn v) nv =
                - mirror Xn (physicalFlux K_PrimToCons K_Flux Xn gamma_m1 C2Iso v) nv) ->
  (forall nv, fst (solveFace L R) nv =
              opposite_flux Xn (fst (solveFace (mirror Xn R) (mirror Xn L))) nv) /\
  snd (solveFace L R) = snd (solveFace (mirror Xn R) (mirror Xn L)).
Proof.
  intros solveFace Hrho Hprs Hu Hf. unfold solveFace.
  split; [| symmetry; now apply kernel_cmax_mirror].
  intros nv. unfold opposite_flux. rewrite !kernel_flux.
  rewrite kernel_cmax_mirror by assumption.
  match goal with |- bindx ?m _ = _ => destruct m as [c |] end; [| reflexivity].
  cbn [bindx option_map]. f_equal.
  unfold physicalFlux in Hf. rewrite !Hf, !Hu. unfold mirror.
  destruct (nv =? Xn)%nat; lra.
Qed.

Lemma K_PrimToCons_HD_mirror (g : real) (v : nat -> real) (nv : nat) :
  K_PrimToCons_HD (mirror VX1 v) g nv = mirror VX1 (K_PrimToCons_HD v g) nv.
Proof.
  do 6 (destruct nv as [| nv]; [unfold mirror; cbn; lra |]).
  unfold mirror; cbn; lra.
Qed.

Lemma physicalFlux_HD_mirror (g c : real) (v : nat -> real) (nv : nat) :
  physicalFlux K_PrimToCons_HD K_Flux_HD VX1 g c (mirror VX1 v) nv =
  - mirror VX1 (physicalFlux K_PrimToCons_HD K_Flux_HD VX1 g c v) nv.
Proof.
  unfold physicalFlux.
  do 6 (destruct nv as [| nv]; [unfold mirror; cbn; lra |]).
  unfold mirror; cbn; lra.
Qed.

Lemma C7_flux_antisymmetry_witness :
  let L := prim 1 0 0 0 2 in
  let R := prim 3 0 0 0 6 in
  let solveFace := TVDLF_Kernel RHO PRS true K_PrimToCons_HD K_Flux_HD VX1 1 0 in
  VX1 <> RHO /\ VX1 <> PRS /\
  fst (solveFace L R) RHO =
    opposite_flux VX1 (fst (solveFace (mirror VX1 R) (mirror VX1 L))) RHO.
Proof.
  intros L R solveFace.
  assert (H1 : VX1 <> RHO) by discriminate.
  assert (H2 : VX1 <> PRS) by discriminate.
  split; [exact H1 |]. split; [exact H2 |].
  exact (proj1 (C7_flux_antisymmetry RHO PRS true K_PrimToCons_HD K_Flux_HD
                  VX1 1 0 L R H1 H2
                  (K_PrimToCons_HD_mirror 1) (physicalFlux_HD_mirror 1 0)) RHO).
Defined.

Lemma offset_same (DIR : Dir) : offset DIR DIR = 1%Z.
Proof. destruct DIR; reflexivity. Qed.

Lemma offset_other (DIR d : Dir) : d <> DIR -> offset DIR d = 0%Z.
Proof. destruct DIR, d; intros H; try reflexivity; congruence. Qed.

(** C8.  For every sweep direction DIR the flux-assembly loop runs the
    kernel body once at each index of the 3D range that starts at the
    first interior cell of every direction and holds, along DIR, the
    cell count plus one indices (faces = cells + 1) and, along the two
    transverse directions, the cell count; it writes the wave speed and
    the NVAR components of the flux of that face at each index of the
    range, and leaves every other entry of the two arrays as it was. *)
Theorem C8_sweep_index_range
  (NVAR RHO PRS : nat) (HAVE_ENERGY : bool)
  (K_PrimToCons : (nat -> real) -> real -> nat -> real)
  (K_Flux : (nat -> real) -> (nat -> real) -> real -> nat -> nat -> real)
  (DIR : Dir) (Xn : nat) (data : DataBlock) (gamma C2Iso : real) :
  let data' := TvdlfHD NVAR RHO PRS HAVE_ENERGY K_PrimToCons K_Flux
                 DIR Xn data gamma C2Iso in
  let body := TVDLF_body NVAR RHO PRS HAVE_ENERGY K_PrimToCons K_Flux
                Xn (gamma - ONE_F) C2Iso (PrimL data) (PrimR data) in
  let solved := face_result RHO PRS HAVE_ENERGY K_PrimToCons K_Flux
                  Xn data gamma C2Iso in
  data' = fold_left (fun s '(k, j, i) => body k j i s) (sweep_faces DIR data) data /\
  NoDup (sweep_faces DIR data) /\
  (forall k j i,
      In (k, j, i) (sweep_faces DIR data) <->
      (beg data KDIR <= k < beg data KDIR + nfaces DIR data KDIR)%Z /\
      (beg data JDIR <= j < beg data JDIR + nfaces DIR data JDIR)%Z /\
      (beg data IDIR <= i < beg data IDIR + nfaces DIR data IDIR)%Z) /\
  nfaces DIR data DIR = (ncells data DIR + 1)%Z /\
  (forall d, d <> DIR -> nfaces DIR data d = ncells data d) /\
  length (sweep_faces DIR data) =
    (Z.to_nat (nfaces DIR data KDIR) *
     (Z.to_nat (nfaces DIR data JDIR) * Z.to_nat (nfaces DIR data IDIR)))%nat /\
  (forall k j i,
      In (k, j, i) (sweep_faces DIR data) ->
      cMax data' k j i = snd (solved k j i) /\
      forall nv, (nv < NVAR)%nat ->
                 FluxRiemann data' nv k j i = fst (solved k j i) nv) /\
  (forall k j i,
      ~ In (k, j, i) (sweep_faces DIR data) ->
      cMax data' k j i = cMax data k j i /\
      forall nv, FluxRiemann data' nv k j i = FluxRiemann data nv k j i).
Proof.
  intros data' body solved.
  split; [reflexivity |].
  split; [apply NoDup_range3 |].
  split.
  { intros k j i. rewrite in_sweep_faces. unfold in_sweep, nfaces, ncells. lia. }
  split; [unfold nfaces; now rewrite offset_same |].
  split; [intros d Hd; unfold nfaces; rewrite offset_other by exact Hd; lia |].
  split.
  { unfold sweep_faces. rewrite length_range3. unfold nfaces, ncells.
    f_equal; [| f_equal]; f_equal; lia. }
  split.
  - intros k j i Hin. apply in_sweep_faces in Hin. split.
    + now apply TvdlfHD_cMax_in.
    + intros nv Hnv. now apply TvdlfHD_Flux_in.
  - intros k j i Hout. rewrite in_sweep_faces in Hout. split.
    + now apply TvdlfHD_cMax_out.
    + intros nv. apply TvdlfHD_Flux_out. now left.
Qed.

(** C10, as the spec words it, fails when gamma is negative: on a face
    whose two states have density 1 and pressure 1 at rest, the averaged
    density, the averaged pressure and their quotient are 1, yet with
    gamma = -1 the operand of the square root is -1 and the wave speed
    written is not a number. *)
Lemma C10_counterexample :
  let d := faces_block 1 (prim 1 0 0 0 1) (prim 1 0 0 0 1) in
  let vRL := stateAvg (stateL d 0 0 0) (stateR d 0 0 0) in
  in_sweep IDIR d 0 0 0 /\
  vRL RHO = 1 /\ vRL PRS = 1 /\ 0 <= vRL PRS / vRL RHO /\
  cMax (TvdlfHD_ideal IDIR VX1 d (- 1) 0) 0%Z 0%Z 0%Z = None.
Proof.
  intros d vRL.
  assert (Hin : in_sweep IDIR d 0 0 0) by apply in_sweep_faces_block.
  split; [exact Hin |].
  split; [unfold vRL, stateAvg; cbn; lra |].
  split; [unfold vRL, stateAvg; cbn; lra |].
  split; [unfold vRL, stateAvg; cbn; lra |].
  unfold TvdlfHD_ideal. rewrite TvdlfHD_cMax_in by exact Hin.
  unfold face_result. rewrite kernel_cmax.
  unfold spec_cmax, spec_soundSpeed, stateAvg, stateL, stateR.
  cbn [d faces_block PrimL PrimR prim RHO PRS].
  rewrite fdiv_defined by lra. cbn [bindx].
  rewrite SQRT_undefined by lra. reflexivity.
Qed.

(** C10 (amended).  For every face of the sweep, the wave speed written
    to the max-wave-speed array is a number and is not negative, being a
    maximum of two absolute values, provided that, with an energy
    equation, the averaged density is not zero, the averaged
    pressure/density is not negative and gamma is not negative, and, in
    the isothermal configuration, C2Iso is not negative. *)
Theorem C10_wave_speed_nonnegative
  (NVAR RHO PRS : nat) (HAVE_ENERGY : bool)
  (K_PrimToCons : (nat -> real) -> real -> nat -> real)
  (K_Flux : (nat -> real) -> (nat -> real) -> real -> nat -> nat -> real)
  (DIR : Dir) (Xn : nat) (data : DataBlock) (gamma C2Iso : real) (k j i : Z) :
  let data' := TvdlfHD NVAR RHO PRS HAVE_ENERGY K_PrimToCons K_Flux
                 DIR Xn data gamma C2Iso in
  let vRL := stateAvg (stateL data k j i) (stateR data k j i) in
  in_sweep DIR data k j i ->
  (HAVE_ENERGY = true ->
   vRL RHO <> 0 /\ 0 <= vRL PRS / vRL RHO /\ 0 <= gamma) ->
  (HAVE_ENERGY = false -> 0 <= C2Iso) ->
  exists cmax b1 b2,
    cMax data' k j i = Some cmax /\ cmax = Rmax (Rabs b1) (Rabs b2) /\ 0 <= cmax.
Proof.
  intros data' vRL Hin He Hi.
  assert (Hdef : soundSpeed_defined RHO PRS HAVE_ENERGY gamma C2Iso vRL).
  { unfold soundSpeed_defined. destruct HAVE_ENERGY.
    - destruct (He eq_refl) as (Hrho & Hq & Hg). split; [exact Hrho |].
      replace (gamma * vRL PRS / vRL RHO) with (gamma * (vRL PRS / vRL RHO))
        by (field; exact Hrho).
      now apply Rmult_le_pos.
    - now apply Hi. }
  set (cs := soundSpeed RHO PRS HAVE_ENERGY gamma C2Iso vRL).
  assert (Hcs : 0 <= cs) by (unfold cs, soundSpeed; destruct HAVE_ENERGY; apply sqrt_pos).
  exists (Rmax (Rabs (vRL Xn + cs)) (Rabs (vRL Xn - cs))), (vRL Xn + cs), (vRL Xn - cs).
  split; [| split; [reflexivity |]].
  - unfold data'. rewrite TvdlfHD_cMax_in by exact Hin.
    unfold face_result. rewrite kernel_cmax.
    fold vRL. rewrite spec_cmax_defined by exact Hdef.
    unfold signalSpeed. fold cs. now rewrite Rmax_abs_sum.
  - eapply Rle_trans; [apply Rabs_pos | apply Rmax_l].
Qed.

Lemma C10_wave_speed_nonnegative_witness :
  let d := faces_block 1 (prim 1 0 0 0 2) (prim 3 0 0 0 6) in
  let vRL := stateAvg (stateL d 0 0 0) (stateR d 0 0 0) in
  in_sweep IDIR d 0 0 0 /\
  (vRL RHO <> 0 /\ 0 <= vRL PRS / vRL RHO /\ 0 <= 2) /\
  exists cmax b1 b2,
    cMax (TvdlfHD_ideal IDIR VX1 d 2 0) 0%Z 0%Z 0%Z = Some cmax /\
    cmax = Rmax (Rabs b1) (Rabs b2) /\ 0 <= cmax.
Proof.
  intros d vRL.
  assert (Hin : in_sweep IDIR d 0 0 0) by (unfold in_sweep; cbn; lia).
  assert (He : vRL RHO <> 0 /\ 0 <= vRL PRS / vRL RHO /\ 0 <= 2).
  { unfold vRL, stateAvg. cbn. repeat split; lra. }
  split; [exact Hin |]. split; [exact He |].
  apply (C10_wave_speed_nonnegative NVAR_HD RHO PRS true K_PrimToCons_HD K_Flux_HD
           IDIR VX1 d 2 0 0 0 0 Hin).
  - intros _. exact He.
  - discriminate.
Defined.

(** ** The loops of [MakeGeometry] *)

Lemma idefix_for1_keeps {S X : Type} (q : S -> X) (ib ie : Z) (body : Z -> S -> S) :
  (forall i s, q (body i s) = q s) ->
  forall s, q (idefix_for1 ib ie body s) = q s.
Proof.
  intros H s. unfold idefix_for1. apply (loop_keeps q). intros; apply H.
Qed.

Lemma idefix_for3_keeps {S X : Type} (q : S -> X) (kb ke jb je ib ie : Z)
  (body : Z -> Z -> Z -> S -> S) :
  (forall k j i s, q (body k j i s) = q s) ->
  forall s, q (idefix_for3 kb ke jb je ib ie body s) = q s.
Proof.
  intros H s. unfold idefix_for3. apply (loop_keeps q).
  intros s0 [[k j] i]. apply H.
Qed.

Lemma idefix_for1_writes {S T : Type} (p : S -> Z -> T) (g : Z -> T)
  (ib ie : Z) (body : Z -> S -> S) :
  (forall i s i', p (body i s) i' = if (i' =? i)%Z then g i else p s i') ->
  forall s i, (ib <= i < ie)%Z -> p (idefix_for1 ib ie body s) i = g i.
Proof.
  intros H s i Hi. unfold idefix_for1.
  apply (loop_hit p (fun s i => body i s) (fun i i' => (i' =? i)%Z) g).
  - intros s0 a i'. rewrite H. destruct (Z.eqb_spec i' a) as [-> |]; reflexivity.
  - exists i. split; [now apply in_zrange | apply Z.eqb_refl].
Qed.

Lemma idefix_for3_writes {S T : Type} (p : S -> Z -> Z -> Z -> T)
  (g : Z -> Z -> Z -> T) (kb ke jb je ib ie : Z) (body : Z -> Z -> Z -> S -> S) :
  (forall k j i s k' j' i',
      p (body k j i s) k' j' i' =
      if eqb3 (k', j', i') (k, j, i) then g k j i else p s k' j' i') ->
  forall s k j i,
    (kb <= k < ke)%Z -> (jb <= j < je)%Z -> (ib <= i < ie)%Z ->
    p (idefix_for3 kb ke jb je ib ie body s) k j i = g k j i.
Proof.
  intros H s k j i Hk Hj Hi. unfold idefix_for3.
  apply (loop_hit (fun s '(k, j, i) => p s k j i)
           (fun s '(k, j, i) => body k j i s)
           (fun a c => eqb3 c a)
           (fun '(k, j, i) => g k j i)
           ltac:(intros s0 [[k0 j0] i0] [[k' j'] i']; rewrite H;
                 destruct (eqb3 (k', j', i') (k0, j0, i0)) eqn:E;
                 [apply eqb3_true in E; now inversion E | reflexivity])
           _ s (k, j, i)).
  exists (k, j, i). split; [now apply in_range3 | apply eqb3_refl].
Qed.

Ltac by_geometry :=
  intros;
  try match goal with
      | G : Geometry |- _ => destruct G
      end;
  reflexivity.

Section MakeGeometry_arrays.

Variable DIMENSIONS : Dimensions.
Variable this : DataBlock.

Abbreviation built G := (MakeGeometry G DIMENSIONS this).

Lemma MakeGeometry_dV (GEOMETRY : Geometry) (k j i : Z) :
  in_block this k j i ->
  dV (built GEOMETRY) k j i = Volumes_cell GEOMETRY DIMENSIONS this k j i.
Proof.
  intros (Hk & Hj & Hi). unfold MakeGeometry. cbv zeta.
  rewrite !(idefix_for3_keeps dV) by by_geometry.
  rewrite !(idefix_for1_keeps dV) by by_geometry.
  apply (idefix_for3_writes dV (Volumes_cell GEOMETRY DIMENSIONS this));
    [reflexivity | assumption ..].
Qed.

Lemma MakeGeometry_x1gc (GEOMETRY : Geometry) (i : Z) :
  (0 <= i < np_tot this IDIR)%Z ->
  xgc (built GEOMETRY) IDIR i = x1gc_cell GEOMETRY this i.
Proof.
  intros Hi. unfold MakeGeometry. cbv zeta.
  rewrite !(idefix_for3_keeps (fun d => xgc d IDIR)) by by_geometry.
  rewrite !(idefix_for1_keeps (fun d => xgc d IDIR)) by by_geometry.
  apply (idefix_for1_writes (fun d => xgc d IDIR) (x1gc_cell GEOMETRY this));
    [by_geometry | assumption].
Qed.

Lemma MakeGeometry_rt (GEOMETRY : Geometry) (i : Z) :
  GEOMETRY = SPHERICAL -> (0 <= i < np_tot this IDIR)%Z ->
  rt (built GEOMETRY) i = rt_cell this i.
Proof.
  intros HG Hi. unfold MakeGeometry. cbv zeta.
  rewrite !(idefix_for3_keeps rt) by by_geometry.
  rewrite !(idefix_for1_keeps rt) by by_geometry.
  apply (idefix_for1_writes rt (rt_cell this)); [| assumption].
  intros. rewrite HG. reflexivity.
Qed.

Lemma MakeGeometry_x2gc (GEOMETRY : Geometry) (j : Z) :
  (0 <= j < np_tot this JDIR)%Z ->
  xgc (built GEOMETRY) JDIR j = x2gc_cell GEOMETRY this j.
Proof.
  intros Hj. unfold MakeGeometry. cbv zeta.
  rewrite !(idefix_for3_keeps (fun d => xgc d JDIR)) by by_geometry.
  rewrite (idefix_for1_keeps (fun d => xgc d JDIR)) by by_geometry.
  apply (idefix_for1_writes (fun d => xgc d JDIR) (x2gc_cell GEOMETRY this));
    [by_geometry | assumption].
Qed.

Lemma MakeGeometry_Ax1 (GEOMETRY : Geometry) (k j i : Z) :
  (0 <= k < np_tot this KDIR)%Z -> (0 <= j < np_tot this JDIR)%Z ->
  (0 <= i < np_tot this IDIR + IOFFSET)%Z ->
  A (built GEOMETRY) IDIR k j i =
  AreaX1_face GEOMETRY DIMENSIONS this (np_tot this IDIR) k j i.
Proof.
  intros Hk Hj Hi. unfold MakeGeometry. cbv zeta.
  rewrite !(idefix_for3_keeps (fun d => A d IDIR)) by by_geometry.
  apply (idefix_for3_writes (fun d => A d IDIR)
           (AreaX1_face GEOMETRY DIMENSIONS this (np_tot this IDIR)));
    [reflexivity | assumption ..].
Qed.

Lemma MakeGeometry_Ax2 (GEOMETRY : Geometry) (k j i : Z) :
  (0 <= k < np_tot this KDIR)%Z ->
  (0 <= j < np_tot this JDIR + JOFFSET DIMENSIONS)%Z ->
  (0 <= i < np_tot this IDIR)%Z ->
  A (built GEOMETRY) JDIR k j i =
  AreaX2_face GEOMETRY DIMENSIONS this (np_tot this JDIR) k j i.
Proof.
  intros Hk Hj Hi. unfold MakeGeometry. cbv zeta.
  rewrite !(idefix_for3_keeps (fun d => A d JDIR)) by by_geometry.
  apply (idefix_for3_writes (fun d => A d JDIR)
           (AreaX2_face GEOMETRY DIMENSIONS this (np_tot this JDIR)));
    [reflexivity | assumption ..].
Qed.

End MakeGeometry_arrays.

(** ** The claims on the geometry *)

Lemma square_diff_nonzero (a b : real) : a < b -> a + b <> 0 -> b * b - a * a <> 0.
Proof.
  intros Hab Hs H. apply Hs.
  assert (E : (b - a) * (a + b) = 0) by lra.
  apply Rmult_integral in E. destruct E; lra.
Qed.

Lemma cube_diff_pos (a b : real) : a < b -> 0 < b * b * b - a * a * a.
Proof.
  intros Hab.
  replace (b * b * b - a * a * a) with ((b - a) * (a * a + a * b + b * b)) by ring.
  apply Rmult_lt_0_compat; [lra |].
  assert (E : 4 * (a * a + a * b + b * b) = (2 * a + b) * (2 * a + b) + 3 * (b * b))
    by ring.
  assert (H1 : 0 <= (2 * a + b) * (2 * a + b)) by apply Rle_0_sqr.
  assert (H2 : 0 <= b * b) by apply Rle_0_sqr.
  destruct (Req_dec_T b 0) as [Hb | Hb].
  - subst b. assert (0 < a * a) by nra. lra.
  - assert (0 < b * b) by (apply Rsqr_pos_lt; exact Hb). lra.
Qed.

Lemma Rabs_pos_nonzero (a : real) : a <> 0 -> 0 < Rabs a.
Proof. apply Rabs_pos_lt. Qed.

Ltac index_cases i :=
  match goal with
  | H : (0 <= i < 1)%Z |- _ => assert (i = 0%Z) by lia; subst i
  | H : (0 <= i < 2)%Z |- _ =>
      let E := fresh in
      assert (E : i = 0%Z \/ i = 1%Z) by lia; destruct E; subst i
  | H : (0 <= i < 3)%Z |- _ =>
      let E := fresh in
      assert (E : i = 0%Z \/ i = 1%Z \/ i = 2%Z) by lia;
      destruct E as [E | [E | E]]; subst i
  end.

Lemma axis_block_increasing : increasing_axes axis_block.
Proof.
  intros dir. unfold strictly_increasing, axis_block, grid_block.
  destruct dir; cbn [np_tot x dx xl xr axis_faces].
  - repeat split; try (intros i i' H0 Hlt Hn;
      assert (i = 0%Z) by lia; assert (i' = 1%Z) by lia; subst i i';
      cbn [Z.add Z.mul Pos.add Pos.mul Pos.succ]; lra).
    all: index_cases i; cbn [Z.add Z.mul Pos.add Pos.mul Pos.succ]; lra.
  - repeat split; try (intros; lia).
    all: index_cases i; cbn [Z.add Z.mul Pos.add Pos.mul Pos.succ]; lra.
  - repeat split; try (intros; lia).
    all: index_cases i; cbn [Z.add Z.mul Pos.add Pos.mul Pos.succ]; lra.
Qed.

Lemma in_block_axis_block : in_block axis_block 0 0 0.
Proof. unfold in_block; cbn; lia. Qed.

(** C3, as the spec words it, fails: in cylindrical geometry, on a grid
    whose centres, spacings and faces are strictly increasing but whose
    first radial cell runs from -1 to 1, the squared radii of the two
    faces are equal and the volume of that cell is 0. *)
Lemma C3_counterexample :
  increasing_axes axis_block /\
  in_block axis_block 0 0 0 /\
  xl axis_block IDIR 0%Z = - 1 /\ xr axis_block IDIR 0%Z = 1 /\
  dV (MakeGeometry CYLINDRICAL DIM2 axis_block) 0%Z 0%Z 0%Z = 0.
Proof.
  split; [apply axis_block_increasing |].
  split; [apply in_block_axis_block |].
  split; [cbn; lra |]. split; [cbn; lra |].
  rewrite MakeGeometry_dV by apply in_block_axis_block.
  unfold Volumes_cell, D_EXPAND, FABS, axis_block, grid_block.
  cbn [np_tot x dx xl xr axis_faces Z.add Z.mul Pos.add Pos.mul Pos.succ].
  replace ((IZR 4 / 2 - 1) * (IZR 4 / 2 - 1) - (IZR 0 / 2 - 1) * (IZR 0 / 2 - 1))
    with 0 by lra.
  rewrite Rabs_R0. lra.
Qed.

(** C3 (amended).  For each of the four geometries, the computed
    cellVolume[k,j,i] is strictly positive at every cell index, interior
    and ghost alike, on every grid whose cells have a positive spacing
    and a left face left of their right face, provided in addition that,
    in cylindrical and polar geometry, the two radial faces of the cell
    are not at opposite radii (r_left + r_right is not zero) and, in
    spherical geometry, the two polar faces of the cell have distinct
    cosines. *)
Theorem C3_volume_positive
  (GEOMETRY : Geometry) (DIMENSIONS : Dimensions) (this : DataBlock) (k j i : Z) :
  in_block this k j i ->
  valid_spacing this ->
  (GEOMETRY = CYLINDRICAL \/ GEOMETRY = POLAR ->
   xl this IDIR i + xr this IDIR i <> 0) ->
  (GEOMETRY = SPHERICAL -> cos (xl this JDIR j) <> cos (xr this JDIR j)) ->
  0 < dV (MakeGeometry GEOMETRY DIMENSIONS this) k j i.
Proof.
  intros Hin Hv Hcyl Hsph. rewrite MakeGeometry_dV by exact Hin.
  destruct Hin as (Hk & Hj & Hi).
  destruct (Hv IDIR i Hi) as [Hd1 Hf1].
  destruct (Hv JDIR j Hj) as [Hd2 _].
  destruct (Hv KDIR k Hk) as [Hd3 _].
  unfold Volumes_cell. cbv zeta. unfold FABS, ONE_F.
  destruct GEOMETRY.
  - unfold D_EXPAND; destruct DIMENSIONS; repeat apply Rmult_lt_0_compat; assumption.
  - assert (Hr : 0 < Rabs (xr this IDIR i * xr this IDIR i
                           - xl this IDIR i * xl this IDIR i) / 2.0).
    { apply Rdiv_lt_0_compat; [| lra]. apply Rabs_pos_nonzero.
      apply square_diff_nonzero; auto. }
    unfold D_EXPAND; destruct DIMENSIONS; repeat apply Rmult_lt_0_compat;
      (assumption || lra).
  - assert (Hr : 0 < Rabs (xr this IDIR i * xr this IDIR i
                           - xl this IDIR i * xl this IDIR i) / 2.0).
    { apply Rdiv_lt_0_compat; [| lra]. apply Rabs_pos_nonzero.
      apply square_diff_nonzero; auto. }
    unfold D_EXPAND; destruct DIMENSIONS; repeat apply Rmult_lt_0_compat;
      (assumption || lra).
  - assert (Hr : 0 < Rabs (xr this IDIR i * xr this IDIR i * xr this IDIR i
                           - xl this IDIR i * xl this IDIR i * xl this IDIR i) / 3.0).
    { apply Rdiv_lt_0_compat; [| lra]. apply Rabs_pos_nonzero.
      apply Rgt_not_eq. now apply cube_diff_pos. }
    assert (Hmu : 0 < Rabs (cos (xl this JDIR j) - cos (xr this JDIR j))).
    { apply Rabs_pos_nonzero. specialize (Hsph eq_refl). lra. }
    unfold D_EXPAND; destruct DIMENSIONS; repeat apply Rmult_lt_0_compat;
      (assumption || lra).
Qed.

Lemma shell_block_valid_spacing : valid_spacing shell_block.
Proof.
  intros dir i Hi. unfold shell_block, grid_block in *.
  cbn [np_tot dx xl xr] in *.
  destruct dir; cbn [shell_faces]; rewrite plus_IZR; lra.
Qed.

Lemma C3_volume_positive_witness :
  in_block shell_block 0 0 0 /\
  valid_spacing shell_block /\
  xl shell_block IDIR 0%Z + xr shell_block IDIR 0%Z <> 0 /\
  0 < dV (MakeGeometry POLAR DIM3 shell_block) 0%Z 0%Z 0%Z.
Proof.
  assert (Hin : in_block shell_block 0 0 0) by (unfold in_block; cbn; lia).
  assert (Hr : xl shell_block IDIR 0%Z + xr shell_block IDIR 0%Z <> 0)
    by (cbn; lra).
  split; [exact Hin |]. split; [exact shell_block_valid_spacing |].
  split; [exact Hr |].
  apply (C3_volume_positive POLAR DIM3 shell_block 0 0 0 Hin
           shell_block_valid_spacing).
  - intros _. exact Hr.
  - discriminate.
Defined.

(** The two extra conditions of the amended C3 hold on the physical
    range of the coordinates: radii that are not negative, polar angles
    between 0 and pi. *)
Lemma volume_conditions_physical (this : DataBlock) (j i : Z) :
  xl this IDIR i < xr this IDIR i -> 0 <= xl this IDIR i ->
  xl this JDIR j < xr this JDIR j -> 0 <= xl this JDIR j -> xr this JDIR j <= PI ->
  xl this IDIR i + xr this IDIR i <> 0 /\
  cos (xl this JDIR j) <> cos (xr this JDIR j).
Proof.
  intros Hr Hr0 Ht Ht0 Htpi. split; [lra |].
  apply Rgt_not_eq. apply cos_decreasing_1; lra.
Qed.

(** The radial volumes of a one-dimensional spherical grid with faces at
    1, 2, 3, 4 are (r_right^3 - r_left^3) / 3. *)
Example spherical_radial_volumes :
  let built := MakeGeometry SPHERICAL DIM1 shell_block in
  dV built 0%Z 0%Z 0%Z = 7 / 3 /\ dV built 0%Z 0%Z 1%Z = 19 / 3 /\
  dV built 0%Z 0%Z 2%Z = 37 / 3.
Proof.
  intros built. unfold built.
  rewrite !MakeGeometry_dV by (unfold in_block; cbn; lia).
  unfold Volumes_cell, D_EXPAND, FABS, shell_block, grid_block.
  cbn [xl xr shell_faces Z.add Pos.add Pos.succ].
  repeat split.
  - rewrite Rabs_pos_eq by lra. lra.
  - rewrite Rabs_pos_eq by lra. lra.
  - rewrite Rabs_pos_eq by lra. lra.
Qed.

(** C4, as the spec words it, fails for [rt]: in spherical geometry, on
    the radial cell from -2 to -1, the code stores
    rt = (-1 - (-8)) / (1 - 4) / 1.5 = -14/9, the plain quotient of the
    two differences, where the absolute values of the differences would
    give 14/9. *)
Lemma C4_counterexample :
  xl inner_block IDIR 0%Z = - 2 /\ xr inner_block IDIR 0%Z = - 1 /\
  rt (MakeGeometry SPHERICAL DIM1 inner_block) 0%Z = Some (- 14 / 9) /\
  spec_rt inner_block 0 = Some (14 / 9).
Proof.
  split; [cbn; lra |]. split; [cbn; lra |]. split.
  - rewrite MakeGeometry_rt by (reflexivity || (cbn; lia)).
    unfold rt_cell, inner_block, grid_block.
    cbn [xl xr inner_faces Z.add Pos.add].
    rewrite fdiv_defined by lra. cbn [bindx]. f_equal. lra.
  - unfold spec_rt, inner_block, grid_block.
    cbn [xl xr inner_faces Z.add Pos.add].
    replace ((IZR 1 - 2) * (IZR 1 - 2) * (IZR 1 - 2)
             - (IZR 0 - 2) * (IZR 0 - 2) * (IZR 0 - 2)) with 7 by lra.
    replace ((IZR 1 - 2) * (IZR 1 - 2) - (IZR 0 - 2) * (IZR 0 - 2)) with (- 3) by lra.
    rewrite (Rabs_pos_eq 7) by lra. rewrite (Rabs_left (- 3)) by lra.
    replace (- (- 3)) with 3 by lra.
    rewrite fdiv_defined by lra. cbn [bindx]. f_equal. lra.
Qed.

(** C4 (amended).  In the volume computation every difference of
    squared or of cubed radii is passed through an absolute value before
    further use: the cylindrical and polar volume term is
    |r_right^2 - r_left^2| / 2 and the spherical one
    |r_right^3 - r_left^3| / 3.  The spherical radius-weighted mean is
    stored as the plain quotient
    rt = (r_right^3 - r_left^3) / (r_right^2 - r_left^2) / 1.5,
    without absolute value; it agrees with the absolute-value form when
    0 <= r_left < r_right. *)
Theorem C4_absolute_value_in_volume_terms
  (GEOMETRY : Geometry) (DIMENSIONS : Dimensions) (this : DataBlock) (k j i : Z) :
  let built := MakeGeometry GEOMETRY DIMENSIONS this in
  let r_right := xr this IDIR i in
  let r_left := xl this IDIR i in
  in_block this k j i ->
  (GEOMETRY = CYLINDRICAL ->
   dV built k j i =
   D_EXPAND DIMENSIONS (Rabs (r_right * r_right - r_left * r_left) / 2)
     (dx this JDIR j) 1) /\
  (GEOMETRY = POLAR ->
   dV built k j i =
   D_EXPAND DIMENSIONS (Rabs (r_right * r_right - r_left * r_left) / 2)
     (dx this JDIR j) (dx this KDIR k)) /\
  (GEOMETRY = SPHERICAL ->
   dV built k j i =
   D_EXPAND DIMENSIONS
     (Rabs (r_right * r_right * r_right - r_left * r_left * r_left) / 3)
     (Rabs (cos (xl this JDIR j) - cos (xr this JDIR j))) (dx this KDIR k) /\
   rt built i =
   (q <- fdiv (r_right * r_right * r_right - r_left * r_left * r_left)
              (r_right * r_right - r_left * r_left) ;;
    Some (q / 1.5)) /\
   (0 <= r_left < r_right -> rt built i = spec_rt this i)).
Proof.
  intros built r_right r_left Hin. unfold built.
  rewrite MakeGeometry_dV by exact Hin.
  split; [| split].
  - intros ->. unfold Volumes_cell, FABS, ONE_F. cbv zeta.
    fold r_right r_left. f_equal. lra.
  - intros ->. unfold Volumes_cell, FABS. cbv zeta.
    fold r_right r_left. f_equal. lra.
  - intros ->. destruct Hin as (_ & _ & Hi).
    rewrite MakeGeometry_rt by (reflexivity || exact Hi).
    split; [| split].
    + unfold Volumes_cell, FABS. cbv zeta. fold r_right r_left. f_equal. lra.
    + reflexivity.
    + intros Hr. unfold rt_cell, spec_rt. cbv zeta. fold r_right r_left.
      rewrite !Rabs_pos_eq; [reflexivity | nra |].
      apply Rlt_le. apply cube_diff_pos. lra.
Qed.

Lemma C4_absolute_value_in_volume_terms_witness :
  in_block inner_block 0 0 0 /\
  rt (MakeGeometry SPHERICAL DIM1 inner_block) 0%Z =
  (q <- fdiv (xr inner_block IDIR 0%Z * xr inner_block IDIR 0%Z * xr inner_block IDIR 0%Z
              - xl inner_block IDIR 0%Z * xl inner_block IDIR 0%Z * xl inner_block IDIR 0%Z)
             (xr inner_block IDIR 0%Z * xr inner_block IDIR 0%Z
              - xl inner_block IDIR 0%Z * xl inner_block IDIR 0%Z) ;;
   Some (q / 1.5)).
Proof.
  assert (Hin : in_block inner_block 0 0 0) by (unfold in_block; cbn; lia).
  split; [exact Hin |].
  exact (proj1 (proj2 (proj2 (proj2
           (C4_absolute_value_in_volume_terms SPHERICAL DIM1 inner_block 0 0 0 Hin))
           eq_refl))).
Defined.

(** C5.  For cylindrical, polar and spherical geometry, the radial face
    area at face index i is built from the left face radius xl[i] for
    every face except the last one (i equal to the total cell count
    along the radial axis), where it is built from the right face radius
    xr[i-1] of the last cell; the spherical polar-angle face area is
    built in the same way from the sine of the left face angle of cell
    j, and at j equal to the total cell count from the sine of the right
    face angle of cell j-1. *)
Theorem C5_last_face_uses_inner_coordinate
  (GEOMETRY : Geometry) (DIMENSIONS : Dimensions) (this : DataBlock) (k j i : Z) :
  let built := MakeGeometry GEOMETRY DIMENSIONS this in
  let r := face_coordinate this IDIR i in
  let theta := face_coordinate this JDIR j in
  let dmu := Rabs (cos (xl this JDIR j) - cos (xr this JDIR j)) in
  (0 <= k < np_tot this KDIR)%Z ->
  ((0 <= j < np_tot this JDIR)%Z -> (0 <= i < np_tot this IDIR + 1)%Z ->
   (GEOMETRY = CYLINDRICAL ->
    A built IDIR k j i = D_EXPAND DIMENSIONS (Rabs r) (dx this JDIR j) 1) /\
   (GEOMETRY = POLAR ->
    A built IDIR k j i =
    D_EXPAND DIMENSIONS (Rabs r) (dx this JDIR j) (dx this KDIR k)) /\
   (GEOMETRY = SPHERICAL ->
    A built IDIR k j i = D_EXPAND DIMENSIONS (r * r) dmu (dx this KDIR k))) /\
  ((0 <= j < np_tot this JDIR + JOFFSET DIMENSIONS)%Z ->
   (0 <= i < np_tot this IDIR)%Z ->
   GEOMETRY = SPHERICAL ->
   A built JDIR k j i =
   D_EXPAND DIMENSIONS (x this IDIR i * dx this IDIR i) (Rabs (sin theta))
     (dx this KDIR k)) /\
  face_coordinate this IDIR (np_tot this IDIR) =
    xr this IDIR (np_tot this IDIR - 1)%Z /\
  (i <> np_tot this IDIR -> r = xl this IDIR i) /\
  face_coordinate this JDIR (np_tot this JDIR) =
    xr this JDIR (np_tot this JDIR - 1)%Z /\
  (j <> np_tot this JDIR -> theta = xl this JDIR j).
Proof.
  intros built r theta dmu Hk. unfold built, r, theta, dmu, face_coordinate.
  split; [| split; [| split; [| split; [| split]]]].
  - intros Hj Hi.
    rewrite MakeGeometry_Ax1 by (assumption || (unfold IOFFSET; lia)).
    unfold AreaX1_face, FABS, ONE_F. cbv zeta.
    repeat split; intros ->;
      destruct (i =? np_tot this IDIR)%Z; reflexivity.
  - intros Hj Hi ->. rewrite MakeGeometry_Ax2 by assumption.
    unfold AreaX2_face, FABS. cbv zeta.
    destruct (j =? np_tot this JDIR)%Z; reflexivity.
  - now rewrite Z.eqb_refl.
  - intros Hne. apply Z.eqb_neq in Hne. now rewrite Hne.
  - now rewrite Z.eqb_refl.
  - intros Hne. apply Z.eqb_neq in Hne. now rewrite Hne.
Qed.

Lemma C5_last_face_uses_inner_coordinate_witness :
  (0 <= 0 < np_tot shell_block KDIR)%Z /\
  (0 <= 0 < np_tot shell_block JDIR)%Z /\
  (0 <= 3 < np_tot shell_block IDIR + 1)%Z /\
  A (MakeGeometry CYLINDRICAL DIM2 shell_block) IDIR 0%Z 0%Z 3%Z =
  D_EXPAND DIM2 (Rabs (face_coordinate shell_block IDIR 3)) (dx shell_block JDIR 0%Z) 1 /\
  face_coordinate shell_block IDIR 3 = xr shell_block IDIR 2%Z.
Proof.
  assert (Hk : (0 <= 0 < np_tot shell_block KDIR)%Z) by (cbn; lia).
  assert (Hj : (0 <= 0 < np_tot shell_block JDIR)%Z) by (cbn; lia).
  assert (Hi : (0 <= 3 < np_tot shell_block IDIR + 1)%Z) by (cbn; lia).
  split; [exact Hk |]. split; [exact Hj |]. split; [exact Hi |].
  split; [| reflexivity].
  exact (proj1 (proj1 (C5_last_face_uses_inner_coordinate
                         CYLINDRICAL DIM2 shell_block 0 0 3 Hk) Hj Hi) eq_refl).
Defined.

(** C9.  In spherical geometry the geometric-centre and auxiliary
    computations divide by 12*r^2 + dr^2, by the squared-radius
    difference r_right^2 - r_left^2, by the cosine difference
    cos(theta_left) - cos(theta_right) and by the literals 1.5 and 3,
    without any guard.  On a cell whose spacing is the distance of its
    faces, if the face radii have distinct squares and the face angles
    distinct cosines, each of these divisors is non-zero and the stored
    centre, rt and polar centre are the finite quotients; when the
    squares, or the cosines, coincide, nothing fails and rt, or the
    polar centre, is stored as a non-finite value. *)
Theorem C9_spherical_divisors_nonzero
  (DIMENSIONS : Dimensions) (this : DataBlock) (j i : Z) :
  let built := MakeGeometry SPHERICAL DIMENSIONS this in
  let r := x this IDIR i in
  let dr := dx this IDIR i in
  let r_right := xr this IDIR i in
  let r_left := xl this IDIR i in
  let xL := xl this JDIR j in
  let xR := xr this JDIR j in
  (0 <= i < np_tot this IDIR)%Z -> (0 <= j < np_tot this JDIR)%Z ->
  dr = r_right - r_left ->
  (r_right * r_right <> r_left * r_left ->
   12.0 * r * r + dr * dr <> 0 /\
   xgc built IDIR i = Some (r + 2.0 * r * dr * dr / (12.0 * r * r + dr * dr)) /\
   r_right * r_right - r_left * r_left <> 0 /\
   rt built i =
   Some ((r_right * r_right * r_right - r_left * r_left * r_left)
         / (r_right * r_right - r_left * r_left) / 1.5)) /\
  (cos xL <> cos xR ->
   cos xL - cos xR <> 0 /\
   xgc built JDIR j =
   Some ((sin xR - sin xL + xL * cos xL - xR * cos xR) / (cos xL - cos xR))) /\
  (r_right * r_right = r_left * r_left -> rt built i = None) /\
  (cos xL = cos xR -> xgc built JDIR j = None) /\
  1.5 <> 0 /\ 3.0 <> 0.
Proof.
  intros built r dr r_right r_left xL xR Hi Hj Hdr. unfold built.
  rewrite MakeGeometry_x1gc, MakeGeometry_x2gc by assumption.
  rewrite MakeGeometry_rt by (reflexivity || assumption).
  unfold x1gc_cell, rt_cell, x2gc_cell. cbv zeta.
  fold r dr r_right r_left xL xR.
  split; [| split; [| split; [| split; [| split; lra]]]].
  - intros Hsq.
    assert (Hdr0 : dr <> 0).
    { rewrite Hdr. intros E. apply Hsq. replace r_right with r_left by lra.
      reflexivity. }
    assert (H1 : 12.0 * r * r + dr * dr <> 0).
    { assert (0 < dr * dr) by (apply Rsqr_pos_lt; exact Hdr0).
      assert (0 <= r * r) by apply Rle_0_sqr. lra. }
    assert (H2 : r_right * r_right - r_left * r_left <> 0) by lra.
    rewrite !fdiv_defined by assumption. cbn [bindx]. auto.
  - intros Hc. assert (H3 : cos xL - cos xR <> 0) by lra.
    rewrite fdiv_defined by exact H3. auto.
  - intros E. replace (r_right * r_right - r_left * r_left) with 0 by lra.
    now rewrite fdiv_undefined.
  - intros E. replace (cos xL - cos xR) with 0 by lra.
    now rewrite fdiv_undefined.
Qed.

Lemma C9_spherical_divisors_nonzero_witness :
  (0 <= 0 < np_tot shell_block IDIR)%Z /\ (0 <= 0 < np_tot shell_block JDIR)%Z /\
  dx shell_block IDIR 0%Z = xr shell_block IDIR 0%Z - xl shell_block IDIR 0%Z /\
  xr shell_block IDIR 0%Z * xr shell_block IDIR 0%Z <>
    xl shell_block IDIR 0%Z * xl shell_block IDIR 0%Z /\
  rt (MakeGeometry SPHERICAL DIM1 shell_block) 0%Z =
  Some ((xr shell_block IDIR 0%Z * xr shell_block IDIR 0%Z * xr shell_block IDIR 0%Z
         - xl shell_block IDIR 0%Z * xl shell_block IDIR 0%Z * xl shell_block IDIR 0%Z)
        / (xr shell_block IDIR 0%Z * xr shell_block IDIR 0%Z
           - xl shell_block IDIR 0%Z * xl shell_block IDIR 0%Z) / 1.5).
Proof.
  assert (Hi : (0 <= 0 < np_tot shell_block IDIR)%Z) by (cbn; lia).
  assert (Hj : (0 <= 0 < np_tot shell_block JDIR)%Z) by (cbn; lia).
  assert (Hdr : dx shell_block IDIR 0%Z
                = xr shell_block IDIR 0%Z - xl shell_block IDIR 0%Z) by reflexivity.
  assert (Hsq : xr shell_block IDIR 0%Z * xr shell_block IDIR 0%Z <>
                xl shell_block IDIR 0%Z * xl shell_block IDIR 0%Z) by (cbn; lra).
  split; [exact Hi |]. split; [exact Hj |]. split; [exact Hdr |].
  split; [exact Hsq |].
  exact (proj2 (proj2 (proj2
           (proj1 (C9_spherical_divisors_nonzero DIM1 shell_block 0 0 Hi Hj Hdr)
              Hsq)))).
Defined.

(** * Further properties of the code *)

(** ** The solver: failure behaviour and bounds *)

Lemma in_sweep_decide (DIR : Dir) (data : DataBlock) (k j i : Z) :
  in_sweep DIR data k j i \/ ~ in_sweep DIR data k j i.
Proof. unfold in_sweep. lia. Qed.

(** The loop body of the solver writes [FluxRiemann] and [cMax] only. *)
Lemma TVDLF_body_keeps {X : Type} (q : DataBlock -> X)
  (NVAR RHO PRS : nat) (HAVE_ENERGY : bool)
  (K_PrimToCons : (nat -> real) -> real -> nat -> real)
  (K_Flux : (nat -> real) -> (nat -> real) -> real -> nat -> nat -> real)
  (Xn : nat) (gamma_m1 C2Iso : real) (PL PR : IdefixArray4D real) (k j i : Z)
  (d : DataBlock) :
  (forall v d, q (set_FluxRiemann v d) = q d) ->
  (forall v d, q (set_cMax v d) = q d) ->
  q (TVDLF_body NVAR RHO PRS HAVE_ENERGY K_PrimToCons K_Flux Xn gamma_m1 C2Iso
       PL PR k j i d) = q d.
Proof.
  intros HF Hc. unfold TVDLF_body.
  destruct (TVDLF_Kernel _ _ _ _ _ _ _ _ _ _) as [Fx cm].
  rewrite Hc. apply (loop_keeps q). intros. apply HF.
Qed.

Lemma TvdlfHD_keeps {X : Type} (q : DataBlock -> X)
  (NVAR RHO PRS : nat) (HAVE_ENERGY : bool)
  (K_PrimToCons : (nat -> real) -> real -> nat -> real)
  (K_Flux : (nat -> real) -> (nat -> real) -> real -> nat -> nat -> real)
  (DIR : Dir) (Xn : nat) (data : DataBlock) (gamma C2Iso : real) :
  (forall v d, q (set_FluxRiemann v d) = q d) ->
  (forall v d, q (set_cMax v d) = q d) ->
  q (TvdlfHD NVAR RHO PRS HAVE_ENERGY K_PrimToCons K_Flux DIR Xn data gamma C2Iso)
  = q data.
Proof.
  intros HF Hc. rewrite TvdlfHD_fold. apply (loop_keeps q).
  intros s0 [[k j] i]. now apply TVDLF_body_keeps.
Qed.



(** X2.  Whenever the wave speed written at a face is a number, it is
    the sum of the absolute averaged normal velocity and the sound speed
    of the averaged state, and therefore bounds the absolute value of
    both characteristic speeds vn + cs and vn - cs of that state, the
    sound speed and |vn|. *)
Theorem wave_speed_bounds_characteristics
  (NVAR RHO PRS : nat) (HAVE_ENERGY : bool)
  (K_PrimToCons : (nat -> real) -> real -> nat -> real)
  (K_Flux : (nat -> real) -> (nat -> real) -> real -> nat -> nat -> real)
  (DIR : Dir) (Xn : nat) (data : DataBlock) (gamma C2Iso : real) (k j i : Z)
  (cmax : real) :
  let data' := TvdlfHD NVAR RHO PRS HAVE_ENERGY K_PrimToCons K_Flux
                 DIR Xn data gamma C2Iso in
  let vRL := stateAvg (stateL data k j i) (stateR data k j i) in
  let cs := soundSpeed RHO PRS HAVE_ENERGY gamma C2Iso vRL in
  in_sweep DIR data k j i ->
  cMax data' k j i = Some cmax ->
  cmax = Rabs (vRL Xn) + cs /\
  Rabs (vRL Xn + cs) <= cmax /\ Rabs (vRL Xn - cs) <= cmax /\
  Rabs (vRL Xn) <= cmax /\ 0 <= cs <= cmax.
Proof.
  intros data' vRL cs Hin Hc. unfold data' in Hc.
  rewrite TvdlfHD_cMax_in in Hc by exact Hin.
  unfold face_result in Hc. rewrite kernel_cmax in Hc. fold vRL in Hc.
  destruct (spec_cmax_Some _ _ _ _ _ _ _ _ Hc) as [Hdef _].
  rewrite (spec_cmax_defined _ _ _ _ _ _ _ Hdef) in Hc.
  injection Hc as <-. unfold signalSpeed. fold cs.
  assert (Hcs : 0 <= cs)
    by (unfold cs, soundSpeed; destruct HAVE_ENERGY; apply sqrt_pos).
  assert (Hv : 0 <= Rabs (vRL Xn)) by apply Rabs_pos.
  split; [reflexivity |].
  rewrite <- (Rmax_abs_sum (vRL Xn) cs Hcs).
  split; [apply Rmax_l |]. split; [apply Rmax_r |].
  rewrite (Rmax_abs_sum (vRL Xn) cs Hcs). lra.
Qed.

Lemma wave_speed_bounds_characteristics_witness :
  let d := faces_block 1 (prim 1 0 0 0 2) (prim 3 0 0 0 6) in
  let vRL := stateAvg (stateL d 0 0 0) (stateR d 0 0 0) in
  in_sweep IDIR d 0 0 0 /\
  cMax (TvdlfHD_ideal IDIR VX1 d 2 0) 0%Z 0%Z 0%Z = Some 2 /\
  2 = Rabs (vRL VX1) + soundSpeed RHO PRS true 2 0 vRL.
Proof.
  intros d vRL.
  assert (Hin : in_sweep IDIR d 0 0 0) by (unfold in_sweep; cbn; lia).
  assert (Hc : cMax (TvdlfHD_ideal IDIR VX1 d 2 0) 0%Z 0%Z 0%Z = Some 2).
  { unfold TvdlfHD_ideal. rewrite TvdlfHD_cMax_in by exact Hin.
    apply (ideal_cmax_at_rest VX1 2 0 2 4 2); cbn; lra. }
  split; [exact Hin |]. split; [exact Hc |].
  exact (proj1 (wave_speed_bounds_characteristics NVAR_HD RHO PRS true
                  K_PrimToCons_HD K_Flux_HD IDIR VX1 d 2 0 0 0 0 2 Hin Hc)).
Defined.

(** X3.  The numerical flux is dissipative: in every component the
    flux written at a face differs from the average of the two physical
    fluxes by a term opposed to the jump of the conservative variable,
    (flux - 0.5*(fluxL + fluxR)) * (uR - uL) <= 0. *)
Theorem flux_is_dissipative
  (NVAR RHO PRS : nat) (HAVE_ENERGY : bool)
  (K_PrimToCons : (nat -> real) -> real -> nat -> real)
  (K_Flux : (nat -> real) -> (nat -> real) -> real -> nat -> nat -> real)
  (DIR : Dir) (Xn : nat) (data : DataBlock) (gamma C2Iso : real)
  (nv : nat) (k j i : Z) (F : real) :
  let data' := TvdlfHD NVAR RHO PRS HAVE_ENERGY K_PrimToCons K_Flux
                 DIR Xn data gamma C2Iso in
  let uL := K_PrimToCons (stateL data k j i) (gamma - ONE_F) in
  let uR := K_PrimToCons (stateR data k j i) (gamma - ONE_F) in
  let fluxL := K_Flux (stateL data k j i) uL C2Iso Xn in
  let fluxR := K_Flux (stateR data k j i) uR C2Iso Xn in
  in_sweep DIR data k j i -> (nv < NVAR)%nat ->
  FluxRiemann data' nv k j i = Some F ->
  (F - 0.5 * (fluxL nv + fluxR nv)) * (uR nv - uL nv) <= 0.
Proof.
  intros data' uL uR fluxL fluxR Hin Hnv HF. unfold data' in HF.
  rewrite TvdlfHD_Flux_in in HF by assumption.
  unfold face_result in HF. rewrite kernel_flux in HF.
  destruct (snd _) as [c |] eqn:Hc; [| discriminate].
  cbn [bindx] in HF. injection HF as <-.
  rewrite kernel_cmax in Hc. apply spec_cmax_Some in Hc. destruct Hc as [_ Hc].
  fold uL uR fluxL fluxR.
  replace (0.5 * (fluxL nv + fluxR nv) - 0.5 * c * (uR nv - uL nv)
           - 0.5 * (fluxL nv + fluxR nv))
    with (- (0.5 * c) * (uR nv - uL nv)) by ring.
  assert (H2 : 0 <= (uR nv - uL nv) * (uR nv - uL nv)) by apply Rle_0_sqr.
  nra.
Qed.

Lemma flux_is_dissipative_witness :
  let d := faces_block 1 (prim 1 0 0 0 2) (prim 3 0 0 0 6) in
  let uL := K_PrimToCons_HD (stateL d 0 0 0) (2 - ONE_F) in
  let uR := K_PrimToCons_HD (stateR d 0 0 0) (2 - ONE_F) in
  in_sweep IDIR d 0 0 0 /\ (RHO < NVAR_HD)%nat /\
  FluxRiemann (TvdlfHD_ideal IDIR VX1 d 2 0) RHO 0%Z 0%Z 0%Z = Some (- 2) /\
  (- 2 - 0.5 * (K_Flux_HD (stateL d 0 0 0) uL 0 VX1 RHO
                + K_Flux_HD (stateR d 0 0 0) uR 0 VX1 RHO))
  * (uR RHO - uL RHO) <= 0.
Proof.
  intros d uL uR.
  assert (Hin : in_sweep IDIR d 0 0 0) by (unfold in_sweep; cbn; lia).
  assert (Hnv : (RHO < NVAR_HD)%nat) by (unfold RHO, NVAR_HD; lia).
  assert (HF : FluxRiemann (TvdlfHD_ideal IDIR VX1 d 2 0) RHO 0%Z 0%Z 0%Z
               = Some (- 2)).
  { unfold TvdlfHD_ideal. rewrite TvdlfHD_Flux_in by assumption.
    unfold face_result. rewrite kernel_flux.
    change (stateL d 0 0 0) with (prim 1 0 0 0 2).
    change (stateR d 0 0 0) with (prim 3 0 0 0 6).
    assert (Hc : snd (solveFace_ideal VX1 2 0 (prim 1 0 0 0 2) (prim 3 0 0 0 6))
                 = Some 2)
      by (apply (ideal_cmax_at_rest VX1 2 0 2 4 2); cbn; lra).
    unfold solveFace_ideal in Hc. rewrite Hc. cbn. f_equal. lra. }
  split; [exact Hin |]. split; [exact Hnv |]. split; [exact HF |].
  exact (flux_is_dissipative NVAR_HD RHO PRS true K_PrimToCons_HD K_Flux_HD
           IDIR VX1 d 2 0 RHO 0 0 0 (- 2) Hin Hnv HF).
Defined.

(** ** The solver: symmetry, repeated sweeps and loop order *)

(** X4.  Exchanging the left and right states of a face leaves its wave
    speed unchanged and only reverses the dissipation: in every
    component the fluxes of the faces (L, R) and (R, L) add up to the sum
    of the two physical fluxes. *)
Theorem exchange_of_states
  (RHO PRS : nat) (HAVE_ENERGY : bool)
  (K_PrimToCons : (nat -> real) -> real -> nat -> real)
  (K_Flux : (nat -> real) -> (nat -> real) -> real -> nat -> nat -> real)
  (Xn : nat) (gamma_m1 C2Iso : real) (L R : nat -> real) (nv : nat) (F : real) :
  let solveFace := TVDLF_Kernel RHO PRS HAVE_ENERGY K_PrimToCons K_Flux
                     Xn gamma_m1 C2Iso in
  fst (solveFace L R) nv = Some F ->
  snd (solveFace R L) = snd (solveFace L R) /\
  exists F', fst (solveFace R L) nv = Some F' /\
             F + F' = physicalFlux K_PrimToCons K_Flux Xn gamma_m1 C2Iso L nv
                      + physicalFlux K_PrimToCons K_Flux Xn gamma_m1 C2Iso R nv.
Proof.
  intros solveFace HF. unfold solveFace in *.
  assert (Hc : snd (TVDLF_Kernel RHO PRS HAVE_ENERGY K_PrimToCons K_Flux
                      Xn gamma_m1 C2Iso R L)
               = snd (TVDLF_Kernel RHO PRS HAVE_ENERGY K_PrimToCons K_Flux
                        Xn gamma_m1 C2Iso L R)).
  { unfold TVDLF_Kernel. cbn [snd].
    replace (HALF_F * (R PRS + L PRS)) with (HALF_F * (L PRS + R PRS)) by ring.
    replace (HALF_F * (R RHO + L RHO)) with (HALF_F * (L RHO + R RHO)) by ring.
    replace (HALF_F * (R Xn + L Xn)) with (HALF_F * (L Xn + R Xn)) by ring.
    reflexivity. }
  split; [exact Hc |].
  rewrite kernel_flux in HF. rewrite kernel_flux, Hc.
  destruct (snd _) as [c |]; [| discriminate].
  cbn [bindx] in *. injection HF as <-.
  eexists. split; [reflexivity |]. unfold physicalFlux. lra.
Qed.

Lemma exchange_of_states_witness :
  let L := prim 1 0 0 0 2 in
  let R := prim 3 0 0 0 6 in
  fst (solveFace_ideal VX1 2 0 L R) RHO = Some (- 2) /\
  snd (solveFace_ideal VX1 2 0 R L) = snd (solveFace_ideal VX1 2 0 L R).
Proof.
  intros L R.
  assert (HF : fst (solveFace_ideal VX1 2 0 L R) RHO = Some (- 2)).
  { unfold solveFace_ideal. rewrite kernel_flux.
    assert (Hc : snd (solveFace_ideal VX1 2 0 L R) = Some 2)
      by (apply (ideal_cmax_at_rest VX1 2 0 2 4 2); cbn; lra).
    unfold solveFace_ideal in Hc. rewrite Hc. cbn. f_equal. lra. }
  split; [exact HF |].
  exact (proj1 (exchange_of_states RHO PRS true K_PrimToCons_HD K_Flux_HD
                  VX1 (2 - ONE_F) 0 L R RHO (- 2) HF)).
Defined.

(** X5.  A sweep writes the flux and wave-speed arrays only: the
    extents, the grid, the geometry arrays and the two arrays of
    reconstructed states are left as they were.  Hence sweeping a second
    time with the same parameters changes nothing: every entry of the two
    output arrays keeps the value of the first sweep. *)
Theorem sweep_frame_and_idempotence
  (NVAR RHO PRS : nat) (HAVE_ENERGY : bool)
  (K_PrimToCons : (nat -> real) -> real -> nat -> real)
  (K_Flux : (nat -> real) -> (nat -> real) -> real -> nat -> nat -> real)
  (DIR : Dir) (Xn : nat) (data : DataBlock) (gamma C2Iso : real) :
  let sweep := fun d => TvdlfHD NVAR RHO PRS HAVE_ENERGY K_PrimToCons K_Flux
                          DIR Xn d gamma C2Iso in
  (np_tot (sweep data) = np_tot data /\ beg (sweep data) = beg data /\
   end_ (sweep data) = end_ data /\
   x (sweep data) = x data /\ dx (sweep data) = dx data /\
   xl (sweep data) = xl data /\ xr (sweep data) = xr data /\
   xgc (sweep data) = xgc data /\ rt (sweep data) = rt data /\
   sm (sweep data) = sm data /\ s (sweep data) = s data /\
   dmu (sweep data) = dmu data /\ dV (sweep data) = dV data /\
   A (sweep data) = A data /\
   PrimL (sweep data) = PrimL data /\ PrimR (sweep data) = PrimR data) /\
  (forall k j i, cMax (sweep (sweep data)) k j i = cMax (sweep data) k j i) /\
  (forall nv k j i,
      FluxRiemann (sweep (sweep data)) nv k j i = FluxRiemann (sweep data) nv k j i).
Proof.
  intros sweep.
  assert (Hkeep : forall X (q : DataBlock -> X),
             (forall v d, q (set_FluxRiemann v d) = q d) ->
             (forall v d, q (set_cMax v d) = q d) ->
             q (sweep data) = q data)
    by (intros X q HF Hc; unfold sweep; apply (TvdlfHD_keeps q); assumption).
  assert (Hbeg : beg (sweep data) = beg data) by now apply Hkeep.
  assert (Hend : end_ (sweep data) = end_ data) by now apply Hkeep.
  assert (HL : PrimL (sweep data) = PrimL data) by now apply Hkeep.
  assert (HR : PrimR (sweep data) = PrimR data) by now apply Hkeep.
  unfold sweep in Hbeg, Hend, HL, HR. unfold sweep.
  split.
  { repeat split; try assumption;
      match goal with
      | |- ?q (TvdlfHD _ _ _ _ _ _ _ _ _ _ _) = _ =>
          apply (TvdlfHD_keeps q); reflexivity
      end. }
  assert (Hsw : forall k j i,
             in_sweep DIR (sweep data) k j i <-> in_sweep DIR data k j i).
  { intros k j i. unfold in_sweep, sweep. now rewrite Hbeg, Hend. }
  assert (Hres : forall k j i,
             face_result RHO PRS HAVE_ENERGY K_PrimToCons K_Flux Xn
               (sweep data) gamma C2Iso k j i =
             face_result RHO PRS HAVE_ENERGY K_PrimToCons K_Flux Xn
               data gamma C2Iso k j i).
  { intros k j i. unfold face_result, stateL, stateR, sweep. now rewrite HL, HR. }
  unfold sweep in Hsw, Hres.
  split.
  - intros k j i. destruct (in_sweep_decide DIR data k j i) as [Hin | Hout].
    + rewrite TvdlfHD_cMax_in by (apply Hsw; exact Hin).
      rewrite Hres. symmetry. now apply TvdlfHD_cMax_in.
    + apply TvdlfHD_cMax_out. intros H. apply Hout. now apply Hsw.
  - intros nv k j i.
    destruct (in_sweep_decide DIR data k j i) as [Hin | Hout];
      [destruct (Nat.lt_ge_cases nv NVAR) as [Hnv | Hnv] |].
    + rewrite TvdlfHD_Flux_in by (try apply Hsw; assumption).
      rewrite Hres. symmetry. now apply TvdlfHD_Flux_in.
    + apply TvdlfHD_Flux_out. now right.
    + apply TvdlfHD_Flux_out. left. intros H. apply Hout. now apply Hsw.
Qed.

(** X6.  The result of a sweep does not depend on the order in which
    the faces are visited, nor on a face being visited more than once:
    running the kernel body over any list holding exactly the faces of
    the sweep range leaves the same values in every entry of the flux and
    wave-speed arrays as the loop of the code. *)
Theorem sweep_order_independent
  (NVAR RHO PRS : nat) (HAVE_ENERGY : bool)
  (K_PrimToCons : (nat -> real) -> real -> nat -> real)
  (K_Flux : (nat -> real) -> (nat -> real) -> real -> nat -> nat -> real)
  (DIR : Dir) (Xn : nat) (data : DataBlock) (gamma C2Iso : real)
  (faces : list Index3) :
  let body := TVDLF_body NVAR RHO PRS HAVE_ENERGY K_PrimToCons K_Flux
                Xn (gamma - ONE_F) C2Iso (PrimL data) (PrimR data) in
  let data' := TvdlfHD NVAR RHO PRS HAVE_ENERGY K_PrimToCons K_Flux
                 DIR Xn data gamma C2Iso in
  let other := fold_left (fun s '(k, j, i) => body k j i s) faces data in
  (forall idx, In idx faces <-> In idx (sweep_faces DIR data)) ->
  (forall k j i, cMax other k j i = cMax data' k j i) /\
  (forall nv k j i, FluxRiemann other nv k j i = FluxRiemann data' nv k j i).
Proof.
  intros body data' other Hsame. unfold other, data', body.
  set (step := fun (s : DataBlock) '(k, j, i) =>
                 TVDLF_body NVAR RHO PRS HAVE_ENERGY K_PrimToCons K_Flux Xn
                   (gamma - ONE_F) C2Iso (PrimL data) (PrimR data) k j i s).
  pose proof (step_cMax NVAR RHO PRS HAVE_ENERGY K_PrimToCons K_Flux
                Xn data gamma C2Iso) as Hs1.
  pose proof (step_Flux NVAR RHO PRS HAVE_ENERGY K_PrimToCons K_Flux
                Xn data gamma C2Iso) as Hs2.
  split.
  - intros k j i. destruct (in_sweep_decide DIR data k j i) as [Hin | Hout].
    + rewrite TvdlfHD_cMax_in by exact Hin.
      apply (loop_hit read_cMax step eqb3
               (fun c => let '(k, j, i) := c in
                         snd (face_result RHO PRS HAVE_ENERGY K_PrimToCons K_Flux
                                Xn data gamma C2Iso k j i))
               Hs1 _ _ (k, j, i)).
      exists (k, j, i). split; [| apply eqb3_refl].
      apply Hsame. now apply in_sweep_faces.
    + rewrite TvdlfHD_cMax_out by exact Hout.
      apply (loop_miss read_cMax step eqb3
               (fun c => let '(k, j, i) := c in
                         snd (face_result RHO PRS HAVE_ENERGY K_PrimToCons K_Flux
                                Xn data gamma C2Iso k j i))
               Hs1 _ _ (k, j, i)).
      intros [[k' j'] i'] Hin. apply eqb3_false. intros [= -> -> ->].
      apply Hout. apply in_sweep_faces. now apply Hsame.
  - intros nv k j i.
    set (g := fun c : nat * Index3 =>
                let '(nv, (k, j, i)) := c in
                fst (face_result RHO PRS HAVE_ENERGY K_PrimToCons K_Flux
                       Xn data gamma C2Iso k j i) nv).
    destruct (in_sweep_decide DIR data k j i) as [Hin | Hout];
      [destruct (Nat.lt_ge_cases nv NVAR) as [Hnv | Hnv] |].
    + rewrite TvdlfHD_Flux_in by assumption.
      apply (loop_hit read_Flux step
               (fun idx c => (fst c <? NVAR)%nat && eqb3 idx (snd c)) g
               Hs2 _ _ (nv, (k, j, i))).
      exists (k, j, i). split; [apply Hsame; now apply in_sweep_faces |].
      cbn -[eqb3]. rewrite eqb3_refl, andb_true_r. now apply Nat.ltb_lt.
    + rewrite TvdlfHD_Flux_out by now right.
      apply (loop_miss read_Flux step
               (fun idx c => (fst c <? NVAR)%nat && eqb3 idx (snd c)) g
               Hs2 _ _ (nv, (k, j, i))).
      intros idx _. cbn -[eqb3]. apply andb_false_iff. left.
      now apply Nat.ltb_ge.
    + rewrite TvdlfHD_Flux_out by now left.
      apply (loop_miss read_Flux step
               (fun idx c => (fst c <? NVAR)%nat && eqb3 idx (snd c)) g
               Hs2 _ _ (nv, (k, j, i))).
      intros [[k' j'] i'] Hin'. cbn -[eqb3]. apply andb_false_iff. right.
      apply eqb3_false. intros [= -> -> ->].
      apply Hout. apply in_sweep_faces. now apply Hsame.
Qed.

Lemma sweep_order_independent_witness :
  let d := faces_block 1 (prim 1 0 0 0 2) (prim 3 0 0 0 6) in
  let body := TVDLF_body NVAR_HD RHO PRS true K_PrimToCons_HD K_Flux_HD
                VX1 (2 - ONE_F) 0 (PrimL d) (PrimR d) in
  let faces := rev (sweep_faces IDIR d) ++ sweep_faces IDIR d in
  (forall idx, In idx faces <-> In idx (sweep_faces IDIR d)) /\
  forall k j i,
    cMax (fold_left (fun s '(k, j, i) => body k j i s) faces d) k j i =
    cMax (TvdlfHD_ideal IDIR VX1 d 2 0) k j i.
Proof.
  intros d body faces.
  assert (Hsame : forall idx, In idx faces <-> In idx (sweep_faces IDIR d)).
  { intros idx. unfold faces. rewrite in_app_iff, <- in_rev. tauto. }
  split; [exact Hsame |].
  exact (proj1 (sweep_order_independent NVAR_HD RHO PRS true
                  K_PrimToCons_HD K_Flux_HD IDIR VX1 d 2 0 faces Hsame)).
Defined.

(** ** The geometry: what [MakeGeometry] writes and what it leaves *)

Lemma MakeGeometry_keeps {X : Type} (q : DataBlock -> X)
  (GEOMETRY : Geometry) (DIMENSIONS : Dimensions) (this : DataBlock) :
  (forall v d, q (set_dV v d) = q d) ->
  (forall v d, q (set_xgc v d) = q d) ->
  (forall v d, q (set_rt v d) = q d) ->
  (forall v d, q (set_sm v d) = q d) ->
  (forall v d, q (set_s v d) = q d) ->
  (forall v d, q (set_dmu v d) = q d) ->
  (forall v d, q (set_A v d) = q d) ->
  q (MakeGeometry GEOMETRY DIMENSIONS this) = q this.
Proof.
  intros HdV Hxgc Hrt Hsm Hs Hdmu HA. unfold MakeGeometry. cbv zeta.
  assert (H3 : forall k j i d,
             q (Volumes GEOMETRY DIMENSIONS this k j i d) = q d /\
             (forall e, q (AreaX1 GEOMETRY DIMENSIONS this e k j i d) = q d) /\
             (forall e, q (AreaX2 GEOMETRY DIMENSIONS this e k j i d) = q d) /\
             q (AreaX3 GEOMETRY DIMENSIONS this k j i d) = q d).
  { intros. unfold Volumes, AreaX1, AreaX2, AreaX3, wr_A. cbv zeta.
    repeat split; intros; first [apply HA | apply HdV]. }
  assert (H1 : forall i d,
             q (GeometricalCentersX1 GEOMETRY this i d) = q d /\
             q (GeometricalCentersX2 GEOMETRY this i d) = q d /\
             q (GeometricalCentersX3 this i d) = q d).
  { intros. unfold GeometricalCentersX1, GeometricalCentersX2,
      GeometricalCentersX3, wr_xgc.
    destruct GEOMETRY; cbv zeta; now rewrite ?Hdmu, ?Hs, ?Hsm, ?Hrt, ?Hxgc. }
  rewrite (idefix_for3_keeps q) by (intros; apply H3).
  rewrite (idefix_for3_keeps q) by (intros; apply H3).
  rewrite (idefix_for3_keeps q) by (intros; apply H3).
  rewrite (idefix_for1_keeps q) by (intros; apply H1).
  rewrite (idefix_for1_keeps q) by (intros; apply H1).
  rewrite (idefix_for1_keeps q) by (intros; apply H1).
  apply (idefix_for3_keeps q). intros; apply H3.
Qed.


Lemma MakeGeometry_Ax3 (GEOMETRY : Geometry) (DIMENSIONS : Dimensions)
  (this : DataBlock) (k j i : Z) :
  (0 <= k < np_tot this KDIR + KOFFSET DIMENSIONS)%Z ->
  (0 <= j < np_tot this JDIR)%Z -> (0 <= i < np_tot this IDIR)%Z ->
  A (MakeGeometry GEOMETRY DIMENSIONS this) KDIR k j i =
  AreaX3_face GEOMETRY DIMENSIONS this k j i.
Proof.
  intros Hk Hj Hi. unfold MakeGeometry. cbv zeta.
  apply (idefix_for3_writes (fun d => A d KDIR)
           (AreaX3_face GEOMETRY DIMENSIONS this));
    [reflexivity | assumption ..].
Qed.

Lemma MakeGeometry_sm (DIMENSIONS : Dimensions) (this : DataBlock) (j : Z) :
  (0 <= j < np_tot this JDIR)%Z ->
  sm (MakeGeometry SPHERICAL DIMENSIONS this) j = Rabs (sin (xl this JDIR j)).
Proof.
  intros Hj. unfold MakeGeometry. cbv zeta.
  rewrite !(idefix_for3_keeps sm) by reflexivity.
  rewrite (idefix_for1_keeps sm) by reflexivity.
  apply (idefix_for1_writes sm (fun j => Rabs (sin (xl this JDIR j))));
    [reflexivity | assumption].
Qed.

Lemma MakeGeometry_s (DIMENSIONS : Dimensions) (this : DataBlock) (j : Z) :
  (0 <= j < np_tot this JDIR)%Z ->
  s (MakeGeometry SPHERICAL DIMENSIONS this) j = Rabs (sin (x this JDIR j)).
Proof.
  intros Hj. unfold MakeGeometry. cbv zeta.
  rewrite !(idefix_for3_keeps s) by reflexivity.
  rewrite (idefix_for1_keeps s) by reflexivity.
  apply (idefix_for1_writes s (fun j => Rabs (sin (x this JDIR j))));
    [reflexivity | assumption].
Qed.

Lemma MakeGeometry_dmu (DIMENSIONS : Dimensions) (this : DataBlock) (j : Z) :
  (0 <= j < np_tot this JDIR)%Z ->
  dmu (MakeGeometry SPHERICAL DIMENSIONS this) j =
  Rabs (cos (xl this JDIR j) - cos (xr this JDIR j)).
Proof.
  intros Hj. unfold MakeGeometry. cbv zeta.
  rewrite !(idefix_for3_keeps dmu) by reflexivity.
  rewrite (idefix_for1_keeps dmu) by reflexivity.
  apply (idefix_for1_writes dmu
           (fun j => Rabs (cos (xl this JDIR j) - cos (xr this JDIR j))));
    [reflexivity | assumption].
Qed.



(** ** The geometry: volumes, areas and centres fit together *)








(** X9.  In Cartesian geometry, along every active direction, the two
    opposite faces of a cell have the same area and that area times the
    spacing of the cell is its volume; so the face-area-weighted sum of
    a uniform field over the faces of a cell vanishes. *)
Theorem cartesian_opposite_faces
  (DIMENSIONS : Dimensions) (this : DataBlock) (k j i : Z) :
  let built := MakeGeometry CARTESIAN DIMENSIONS this in
  in_block this k j i ->
  (A built IDIR k j (i + 1)%Z = A built IDIR k j i /\
   A built IDIR k j i * dx this IDIR i = dV built k j i) /\
  (DIMENSIONS <> DIM1 ->
   A built JDIR k (j + 1)%Z i = A built JDIR k j i /\
   A built JDIR k j i * dx this JDIR j = dV built k j i) /\
  (DIMENSIONS = DIM3 ->
   A built KDIR (k + 1)%Z j i = A built KDIR k j i /\
   A built KDIR k j i * dx this KDIR k = dV built k j i /\
   forall b1 b2 b3 : real,
     (A built IDIR k j (i + 1)%Z * b1 - A built IDIR k j i * b1)
     + (A built JDIR k (j + 1)%Z i * b2 - A built JDIR k j i * b2)
     + (A built KDIR (k + 1)%Z j i * b3 - A built KDIR k j i * b3) = 0).
Proof.
  intros built Hin. unfold built. destruct (Hin) as (Hk & Hj & Hi).
  rewrite MakeGeometry_dV by exact Hin.
  assert (H1 : A (MakeGeometry CARTESIAN DIMENSIONS this) IDIR k j (i + 1)%Z
               = A (MakeGeometry CARTESIAN DIMENSIONS this) IDIR k j i).
  { rewrite !MakeGeometry_Ax1 by (unfold IOFFSET; auto; lia). reflexivity. }
  split; [| split].
  - split; [exact H1 |].
    rewrite MakeGeometry_Ax1 by (unfold IOFFSET; auto; lia).
    unfold AreaX1_face, Volumes_cell, D_EXPAND. destruct DIMENSIONS; lra.
  - intros HD.
    assert (HJ : JOFFSET DIMENSIONS = 1%Z) by (destruct DIMENSIONS; [congruence | reflexivity | reflexivity]).
    rewrite !MakeGeometry_Ax2 by (rewrite ?HJ; auto; lia).
    split; [reflexivity |].
    unfold AreaX2_face, Volumes_cell, D_EXPAND, ONE_F.
    destruct DIMENSIONS; [congruence | lra | lra].
  - intros ->.
    assert (H2 : A (MakeGeometry CARTESIAN DIM3 this) JDIR k (j + 1)%Z i
                 = A (MakeGeometry CARTESIAN DIM3 this) JDIR k j i).
    { rewrite !MakeGeometry_Ax2 by (cbn; auto; lia). reflexivity. }
    assert (H3 : A (MakeGeometry CARTESIAN DIM3 this) KDIR (k + 1)%Z j i
                 = A (MakeGeometry CARTESIAN DIM3 this) KDIR k j i).
    { rewrite !MakeGeometry_Ax3 by (cbn; auto; lia). reflexivity. }
    split; [exact H3 |]. split.
    + rewrite MakeGeometry_Ax3 by (cbn; auto; lia).
      unfold AreaX3_face, Volumes_cell, D_EXPAND, ONE_F. lra.
    + intros b1 b2 b3. rewrite H1, H2, H3. ring.
Qed.

Lemma cartesian_opposite_faces_witness :
  let built := MakeGeometry CARTESIAN DIM3 shell_block in
  in_block shell_block 0 0 1 /\
  A built IDIR 0%Z 0%Z 2%Z = A built IDIR 0%Z 0%Z 1%Z.
Proof.
  intros built.
  assert (Hin : in_block shell_block 0 0 1) by (unfold in_block; cbn; lia).
  split; [exact Hin |].
  exact (proj1 (proj1 (cartesian_opposite_faces DIM3 shell_block 0 0 1 Hin))).
Defined.

(** X10.  On a cell at non-negative radii whose centre is the midpoint
    of its faces and whose spacing is their distance, the geometrical
    centre stored along the first direction is a finite number that lies
    strictly between the cell centre and the right face in cylindrical,
    polar and spherical geometry, and is the cell centre itself in
    Cartesian geometry. *)
Theorem radial_centre_inside_cell
  (GEOMETRY : Geometry) (DIMENSIONS : Dimensions) (this : DataBlock) (i : Z) :
  let built := MakeGeometry GEOMETRY DIMENSIONS this in
  let r := x this IDIR i in
  let r_left := xl this IDIR i in
  let r_right := xr this IDIR i in
  (0 <= i < np_tot this IDIR)%Z ->
  2 * r = r_left + r_right -> dx this IDIR i = r_right - r_left ->
  0 <= r_left < r_right ->
  exists c, xgc built IDIR i = Some c /\
            (GEOMETRY = CARTESIAN -> c = r) /\
            (GEOMETRY <> CARTESIAN -> r < c < r_right).
Proof.
  intros built r r_left r_right Hi Hmid Hdx Hr. unfold built.
  rewrite MakeGeometry_x1gc by exact Hi.
  unfold x1gc_cell. cbv zeta. fold r. rewrite Hdx.
  set (h := r_right - r_left).
  assert (Hh : 0 < h) by (unfold h; lra).
  assert (Hr0 : 0 < r) by lra.
  assert (Hh2 : h <= 2 * r) by (unfold h; lra).
  assert (Hrr : r_right = r + h / 2) by (unfold h; lra).
  assert (Hcyl : exists c, (q <- fdiv (h * h) (12.0 * r) ;; Some (r + q)) = Some c /\
                           r < c < r_right).
  { rewrite fdiv_defined by lra. cbn [bindx]. eexists. split; [reflexivity |].
    assert (Hq : h * h / (12.0 * r) * (12.0 * r) = h * h) by (field; lra).
    assert (Hpos : 0 < h * h / (12.0 * r))
      by (apply Rdiv_lt_0_compat; nra).
    rewrite Hrr. split; [lra |].
    assert (h * h / (12.0 * r) < h / 2); [| lra].
    apply (Rmult_lt_reg_r (12.0 * r)); [lra |]. rewrite Hq. nra. }
  destruct GEOMETRY.
  - exists r. split; [reflexivity |]. split; [reflexivity | congruence].
  - destruct Hcyl as [c [Hc Hin]]. exists c. split; [exact Hc |].
    split; [discriminate | auto].
  - destruct Hcyl as [c [Hc Hin]]. exists c. split; [exact Hc |].
    split; [discriminate | auto].
  - assert (HD : 0 < 12.0 * r * r + h * h) by nra.
    rewrite fdiv_defined by lra. cbn [bindx]. eexists. split; [reflexivity |].
    split; [discriminate |]. intros _.
    set (q := 2.0 * r * h * h / (12.0 * r * r + h * h)).
    assert (Hq : q * (12.0 * r * r + h * h) = 2.0 * r * h * h)
      by (unfold q; field; lra).
    assert (Hhh : 0 < h * h) by nra.
    assert (Hrhh : 0 < r * (h * h)) by (apply Rmult_lt_0_compat; assumption).
    assert (Hpos : 0 < q).
    { unfold q. apply Rdiv_lt_0_compat; [| exact HD].
      replace (2.0 * r * h * h) with (2 * (r * (h * h))) by lra. lra. }
    rewrite Hrr. split; [lra |].
    assert (q < h / 2); [| lra].
    apply (Rmult_lt_reg_r (12.0 * r * r + h * h)); [lra |]. rewrite Hq.
    assert (Hsq : 0 <= (2 * r - h) * (2 * r - h)) by apply Rle_0_sqr.
    assert (Hr2 : 0 < r * r) by nra.
    assert (Hkey : 0 < h * (8 * (r * r) + (2 * r - h) * (2 * r - h)))
      by (apply Rmult_lt_0_compat; lra).
    replace (h / 2 * (12.0 * r * r + h * h))
      with (2.0 * r * h * h
            + h * (8 * (r * r) + (2 * r - h) * (2 * r - h)) / 2) by lra.
    lra.
Qed.

Lemma radial_centre_inside_cell_witness :
  (0 <= 0 < np_tot shell_block IDIR)%Z /\
  2 * x shell_block IDIR 0%Z = xl shell_block IDIR 0%Z + xr shell_block IDIR 0%Z /\
  0 <= xl shell_block IDIR 0%Z < xr shell_block IDIR 0%Z /\
  exists c, xgc (MakeGeometry SPHERICAL DIM3 shell_block) IDIR 0%Z = Some c /\
            (SPHERICAL <> CARTESIAN ->
             x shell_block IDIR 0%Z < c < xr shell_block IDIR 0%Z).
Proof.
  assert (Hi : (0 <= 0 < np_tot shell_block IDIR)%Z) by (cbn; lia).
  assert (Hmid : 2 * x shell_block IDIR 0%Z
                 = xl shell_block IDIR 0%Z + xr shell_block IDIR 0%Z) by (cbn; lra).
  assert (Hdx : dx shell_block IDIR 0%Z
                = xr shell_block IDIR 0%Z - xl shell_block IDIR 0%Z) by reflexivity.
  assert (Hr : 0 <= xl shell_block IDIR 0%Z < xr shell_block IDIR 0%Z) by (cbn; lra).
  split; [exact Hi |]. split; [exact Hmid |]. split; [exact Hr |].
  destruct (radial_centre_inside_cell SPHERICAL DIM3 shell_block 0 Hi Hmid Hdx Hr)
    as [c [Hc [_ Hin]]].
  exists c. split; [exact Hc | exact Hin].
Defined.

Lemma sin_increment_bounds (a b : real) :
  0 <= a -> a < b -> b <= PI ->
  (b - a) * cos b < sin b - sin a < (b - a) * cos a.
Proof.
  intros Ha Hab Hb.
  destruct (MVT_cor2 sin cos a b Hab) as [c [Hc Hin]].
  { intros c _. apply derivable_pt_lim_sin. }
  rewrite Hc.
  assert (cos b < cos c) by (apply cos_decreasing_1; lra).
  assert (cos c < cos a) by (apply cos_decreasing_1; lra).
  split; nra.
Qed.

(** X11.  In spherical geometry, on a cell whose polar faces satisfy
    0 <= theta_left < theta_right <= pi, the geometrical centre stored
    along the second direction is a finite number strictly between the
    two face angles. *)
Theorem polar_centre_inside_cell
  (DIMENSIONS : Dimensions) (this : DataBlock) (j : Z) :
  let built := MakeGeometry SPHERICAL DIMENSIONS this in
  let xL := xl this JDIR j in
  let xR := xr this JDIR j in
  (0 <= j < np_tot this JDIR)%Z ->
  0 <= xL -> xL < xR -> xR <= PI ->
  exists c, xgc built JDIR j = Some c /\ xL < c < xR.
Proof.
  intros built xL xR Hj H0 Hlt Hpi. unfold built.
  rewrite MakeGeometry_x2gc by exact Hj.
  unfold x2gc_cell. cbv zeta. fold xL xR.
  assert (Hc : 0 < cos xL - cos xR).
  { assert (cos xR < cos xL) by (apply cos_decreasing_1; lra). lra. }
  destruct (sin_increment_bounds xL xR H0 Hlt Hpi) as [Hlo Hhi].
  rewrite fdiv_defined by lra. eexists. split; [reflexivity |].
  set (N := sin xR - sin xL + xL * cos xL - xR * cos xR).
  assert (HN : N / (cos xL - cos xR) * (cos xL - cos xR) = N) by (field; lra).
  split.
  - apply (Rmult_lt_reg_r (cos xL - cos xR)); [exact Hc |].
    rewrite HN. unfold N. nra.
  - apply (Rmult_lt_reg_r (cos xL - cos xR)); [exact Hc |].
    rewrite HN. unfold N. nra.
Qed.

(** A block with a polar cell between the angles 1 and 2. *)
Lemma polar_centre_inside_cell_witness :
  let d := grid_block (fun _ => 1%Z) (fun _ i => IZR i + 1) in
  (0 <= 0 < np_tot d JDIR)%Z /\ xl d JDIR 0%Z = 1 /\ xr d JDIR 0%Z = 2 /\
  exists c, xgc (MakeGeometry SPHERICAL DIM3 d) JDIR 0%Z = Some c /\
            xl d JDIR 0%Z < c < xr d JDIR 0%Z.
Proof.
  intros d.
  assert (Hj : (0 <= 0 < np_tot d JDIR)%Z) by (cbn; lia).
  assert (Hl : xl d JDIR 0%Z = 1) by (cbn; lra).
  assert (Hr : xr d JDIR 0%Z = 2) by (cbn; lra).
  split; [exact Hj |]. split; [exact Hl |]. split; [exact Hr |].
  apply (polar_centre_inside_cell DIM3 d 0 Hj).
  - rewrite Hl. lra.
  - rewrite Hl, Hr. lra.
  - rewrite Hr. pose proof PI2_1 as H2. lra.
Defined.

(** X12.  In spherical geometry the auxiliary arrays hold the angular
    factors the volumes and areas are built from: the stored dmu[j] is
    the factor |cos theta_left - cos theta_right| of the volume and of
    the radial face area of every cell of row j, the stored sm[j] is the
    sine factor of the polar face area at face j, and dmu, sm and s are
    never negative. *)
Theorem spherical_auxiliary_factors
  (DIMENSIONS : Dimensions) (this : DataBlock) (k j i : Z) :
  let built := MakeGeometry SPHERICAL DIMENSIONS this in
  let r_left := xl this IDIR i in
  let r_right := xr this IDIR i in
  in_block this k j i ->
  dV built k j i =
    D_EXPAND DIMENSIONS
      (Rabs (r_right * r_right * r_right - r_left * r_left * r_left) / 3)
      (dmu built j) (dx this KDIR k) /\
  A built IDIR k j i =
    D_EXPAND DIMENSIONS (r_left * r_left) (dmu built j) (dx this KDIR k) /\
  A built JDIR k j i =
    D_EXPAND DIMENSIONS (x this IDIR i * dx this IDIR i) (sm built j)
      (dx this KDIR k) /\
  0 <= dmu built j /\ 0 <= sm built j /\ 0 <= s built j.
Proof.
  intros built r_left r_right Hin. unfold built.
  destruct (Hin) as (Hk & Hj & Hi).
  rewrite MakeGeometry_dV by exact Hin.
  rewrite MakeGeometry_Ax1 by (unfold IOFFSET; auto; lia).
  rewrite MakeGeometry_Ax2 by (auto; unfold JOFFSET; destruct DIMENSIONS; lia).
  rewrite MakeGeometry_dmu, MakeGeometry_sm, MakeGeometry_s by exact Hj.
  unfold Volumes_cell, AreaX1_face, AreaX2_face, FABS. cbv zeta.
  destruct (Z.eqb_spec i (np_tot this IDIR)) as [E | _]; [lia |].
  destruct (Z.eqb_spec j (np_tot this JDIR)) as [E | _]; [lia |].
  fold r_left r_right.
  repeat split; try apply Rabs_pos; try reflexivity.
  f_equal. lra.
Qed.

Lemma spherical_auxiliary_factors_witness :
  let built := MakeGeometry SPHERICAL DIM3 shell_block in
  in_block shell_block 0 0 1 /\
  A built IDIR 0%Z 0%Z 1%Z =
  D_EXPAND DIM3 (xl shell_block IDIR 1%Z * xl shell_block IDIR 1%Z)
    (dmu built 0%Z) (dx shell_block KDIR 0%Z).
Proof.
  intros built.
  assert (Hin : in_block shell_block 0 0 1) by (unfold in_block; cbn; lia).
  split; [exact Hin |].
  exact (proj1 (proj2 (spherical_auxiliary_factors DIM3 shell_block 0 0 1 Hin))).
Defined.

(** ** The test problem: initial flow and divergence of the field *)

Section LoopInvariant.

Context {S I J T : Type}.
Variable Inv : S -> Prop.
Variable p : S -> J -> T.
Variable step : S -> I -> S.
Variable hit : I -> J -> bool.
Variable g : J -> T.

Hypothesis step_inv : forall s i, Inv s -> Inv (step s i).
Hypothesis step_writes :
  forall s i j, Inv s -> p (step s i) j = if hit i j then g j else p s j.

Lemma loop_inv (l : list I) (s : S) : Inv s -> Inv (fold_left step l s).
Proof.
  revert s. induction l as [| a l IH]; intros s Hs; cbn; [exact Hs |].
  apply IH. now apply step_inv.
Qed.

Lemma loop_hit_inv (l : list I) (s : S) (j : J) :
  Inv s -> (exists i, In i l /\ hit i j = true) ->
  p (fold_left step l s) j = g j.
Proof.
  intros Hs. induction l as [| a l IH] using rev_ind; intros [i [Hin Hhit]].
  - destruct Hin.
  - rewrite fold_left_app. cbn. rewrite step_writes by now apply loop_inv.
    destruct (hit a j) eqn:Ha; [reflexivity |].
    apply IH. exists i. split; [| exact Hhit].
    apply in_app_iff in Hin. destruct Hin as [Hin | [<- | []]]; [exact Hin |].
    congruence.
Qed.

End LoopInvariant.

Section Setup_props.

Variables RHO PRS VX1 VX2 VX3 : nat.
Variables BX1s BX2s BX3s : nat.
Variables Rtorus Ztorus Rin : real.

Abbreviation initFlow :=
  (InitFlow RHO PRS VX1 VX2 VX3 BX1s BX2s BX3s Rtorus Ztorus Rin).
Abbreviation initBody :=
  (InitFlow_body RHO PRS VX1 VX2 VX3 BX1s BX2s BX3s Rtorus Ztorus Rin).
Abbreviation field := (bphi Rtorus Ztorus Rin).

Lemma InitFlow_body_keeps {X : Type} (q : Host.DataBlockHost -> X)
  (k j i : Z) (d : Host.DataBlockHost) :
  (forall v d, q (Host.set_Vc v d) = q d) ->
  (forall v d, q (Host.set_Vs v d) = q d) ->
  q (initBody k j i d) = q d.
Proof.
  intros Hc Hs. unfold InitFlow_body. cbv zeta. now rewrite !Hs, !Hc.
Qed.

Lemma InitFlow_keeps {X : Type} (q : Host.DataBlockHost -> X)
  (d : Host.DataBlockHost) :
  (forall v d, q (Host.set_Vc v d) = q d) ->
  (forall v d, q (Host.set_Vs v d) = q d) ->
  q (initFlow d) = q d.
Proof.
  intros Hc Hs. unfold InitFlow. apply (loop_keeps q).
  intros s0 [[k j] i]. now apply InitFlow_body_keeps.
Qed.

(** The staggered field after [InitFlow], at a cell of the block. *)
Lemma InitFlow_Vs (d : Host.DataBlockHost) (nv : nat) (k j i : Z) :
  (0 <= k < Host.np_tot d KDIR)%Z -> (0 <= j < Host.np_tot d JDIR)%Z ->
  (0 <= i < Host.np_tot d IDIR)%Z ->
  (nv = BX1s \/ nv = BX2s \/ nv = BX3s) ->
  Host.Vs (initFlow d) nv k j i =
  if (nv =? BX3s)%nat
  then b <- field (Host.x d IDIR i) (Host.x d JDIR j) ;; Some (1.0e-20 * b)
  else Some 0.0.
Proof.
  intros Hk Hj Hi Hnv. unfold InitFlow.
  set (step := fun d '(k, j, i) => initBody k j i d).
  set (hit := fun (a : Index3) (c : nat * Index3) =>
                eqb3 (snd c) a &&
                ((fst c =? BX3s) || (fst c =? BX2s) || (fst c =? BX1s))%nat).
  set (g := fun c : nat * Index3 =>
              let '(nv, (k, j, i)) := c in
              if (nv =? BX3s)%nat
              then b <- field (Host.x d IDIR i) (Host.x d JDIR j) ;;
                   Some (1.0e-20 * b)
              else Some 0.0).
  apply (loop_hit_inv (fun s => Host.x s = Host.x d)
           (fun s '(nv, (k, j, i)) => Host.Vs s nv k j i)
           step hit g) with (j := (nv, (k, j, i))).
  - intros s0 [[k0 j0] i0] Hx. unfold step.
    rewrite (InitFlow_body_keeps Host.x) by reflexivity. exact Hx.
  - intros s0 [[k0 j0] i0] [nv' [[k' j'] i']] Hx.
    unfold step, hit, g, InitFlow_body. cbv zeta. rewrite Hx.
    cbn [Host.Vs Host.set_Vs Host.set_Vc Host.x fst snd]. unfold upd4.
    destruct (eqb3 (k', j', i') (k0, j0, i0)) eqn:E.
    + apply eqb3_true in E. injection E as -> -> ->.
      rewrite !andb_true_r, andb_true_l.
      destruct (nv' =? BX3s)%nat; [reflexivity |].
      destruct (nv' =? BX2s)%nat; [reflexivity |].
      destruct (nv' =? BX1s)%nat; reflexivity.
    + rewrite !andb_false_r, andb_false_l. reflexivity.
  - reflexivity.
  - exists (k, j, i). split; [now apply in_range3 |].
    unfold hit. cbn [fst snd]. rewrite eqb3_refl, andb_true_l.
    destruct Hnv as [-> | [-> | ->]]; rewrite Nat.eqb_refl;
      now rewrite ?orb_true_r.
Qed.

(** The cell-centred variables after [InitFlow], at a cell of the block. *)
Lemma InitFlow_Vc (d : Host.DataBlockHost) (nv : nat) (k j i : Z) :
  (0 <= k < Host.np_tot d KDIR)%Z -> (0 <= j < Host.np_tot d JDIR)%Z ->
  (0 <= i < Host.np_tot d IDIR)%Z ->
  (nv = RHO \/ nv = PRS \/ nv = VX1 \/ nv = VX2 \/ nv = VX3) ->
  let x2 := Host.x d JDIR j in
  let x3 := Host.x d KDIR k in
  Host.Vc (initFlow d) nv k j i =
  if (nv =? VX3)%nat then (- sin x3 + cos x3) / sqrt 2
  else if (nv =? VX2)%nat then (cos x3 * cos x2 + sin x3 * cos x2) / sqrt 2
  else if (nv =? VX1)%nat then (cos x3 * sin x2 + sin x3 * sin x2) / sqrt 2
  else 1.0.
Proof.
  intros Hk Hj Hi Hnv x2 x3. unfold InitFlow.
  set (step := fun d '(k, j, i) => initBody k j i d).
  set (hit := fun (a : Index3) (c : nat * Index3) =>
                eqb3 (snd c) a &&
                ((fst c =? VX3) || (fst c =? VX2) || (fst c =? VX1)
                 || (fst c =? PRS) || (fst c =? RHO))%nat).
  set (g := fun c : nat * Index3 =>
              let '(nv, (k, j, i)) := c in
              let x2 := Host.x d JDIR j in
              let x3 := Host.x d KDIR k in
              if (nv =? VX3)%nat then (- sin x3 + cos x3) / sqrt 2
              else if (nv =? VX2)%nat
                   then (cos x3 * cos x2 + sin x3 * cos x2) / sqrt 2
              else if (nv =? VX1)%nat
                   then (cos x3 * sin x2 + sin x3 * sin x2) / sqrt 2
              else 1.0).
  apply (loop_hit_inv (fun s => Host.x s = Host.x d)
           (fun s '(nv, (k, j, i)) => Host.Vc s nv k j i)
           step hit g) with (j := (nv, (k, j, i))).
  - intros s0 [[k0 j0] i0] Hx. unfold step.
    rewrite (InitFlow_body_keeps Host.x) by reflexivity. exact Hx.
  - intros s0 [[k0 j0] i0] [nv' [[k' j'] i']] Hx.
    unfold step, hit, g, InitFlow_body. cbv zeta. rewrite Hx.
    cbn [Host.Vc Host.set_Vs Host.set_Vc Host.x fst snd]. unfold upd4.
    destruct (eqb3 (k', j', i') (k0, j0, i0)) eqn:E.
    + apply eqb3_true in E. injection E as -> -> ->.
      rewrite !andb_true_r, andb_true_l.
      destruct (nv' =? VX3)%nat; [reflexivity |].
      destruct (nv' =? VX2)%nat; [reflexivity |].
      destruct (nv' =? VX1)%nat; [reflexivity |].
      destruct (nv' =? PRS)%nat; [reflexivity |].
      destruct (nv' =? RHO)%nat; reflexivity.
    + rewrite !andb_false_r, andb_false_l. reflexivity.
  - reflexivity.
  - exists (k, j, i). split; [now apply in_range3 |].
    unfold hit. cbn [fst snd]. rewrite eqb3_refl, andb_true_l.
    destruct Hnv as [-> | [-> | [-> | [-> | ->]]]]; rewrite Nat.eqb_refl;
      now rewrite ?orb_true_r.
Qed.

(** The divergence [ComputeUserVars] leaves at an interior cell. *)
Lemma ComputeUserVars_divB (d : Host.DataBlockHost)
  (variables : Host.UserDefVariables) (k j i : Z) :
  (Host.beg d KDIR <= k < Host.end_ d KDIR)%Z ->
  (Host.beg d JDIR <= j < Host.end_ d JDIR)%Z ->
  (Host.beg d IDIR <= i < Host.end_ d IDIR)%Z ->
  Host.divB (ComputeUserVars BX1s BX2s BX3s d variables) k j i =
  divB_cell BX1s BX2s BX3s d k j i.
Proof.
  intros Hk Hj Hi. unfold ComputeUserVars.
  apply (loop_hit (fun v '(k, j, i) => Host.divB v k j i) _
           (fun a c => eqb3 c a)
           (fun '(k, j, i) => divB_cell BX1s BX2s BX3s d k j i))
    with (j := (k, j, i)).
  - intros v [[k0 j0] i0] [[k' j'] i']. cbn [Host.divB]. unfold upd3.
    destruct (eqb3 (k', j', i') (k0, j0, i0)) eqn:E; [| reflexivity].
    apply eqb3_true in E. now injection E as -> -> ->.
  - exists (k, j, i). split; [now apply in_range3 | apply eqb3_refl].
Qed.

End Setup_props.

Lemma AreaX3_face_same (GEOMETRY : Geometry) (DIMENSIONS : Dimensions)
  (this : DataBlock) (k k' j i : Z) :
  AreaX3_face GEOMETRY DIMENSIONS this k j i =
  AreaX3_face GEOMETRY DIMENSIONS this k' j i.
Proof. reflexivity. Qed.

Lemma spherical_volume_positive (this : DataBlock) (k j i : Z) :
  in_block this k j i ->
  xl this IDIR i < xr this IDIR i ->
  0 <= xl this JDIR j -> xl this JDIR j < xr this JDIR j -> xr this JDIR j <= PI ->
  0 < dx this KDIR k ->
  0 < dV (MakeGeometry SPHERICAL DIM3 this) k j i.
Proof.
  intros Hin Hr Ht0 Ht Htpi Hd. rewrite MakeGeometry_dV by exact Hin.
  unfold Volumes_cell, D_EXPAND, FABS. cbv zeta.
  assert (H1 : 0 < Rabs (xr this IDIR i * xr this IDIR i * xr this IDIR i
                         - xl this IDIR i * xl this IDIR i * xl this IDIR i)).
  { apply Rabs_pos_lt. apply Rgt_not_eq. now apply cube_diff_pos. }
  assert (H2 : 0 < Rabs (cos (xl this JDIR j) - cos (xr this JDIR j))).
  { apply Rabs_pos_lt.
    assert (cos (xr this JDIR j) < cos (xl this JDIR j))
      by (apply cos_decreasing_1; lra).
    lra. }
  repeat apply Rmult_lt_0_compat; lra.
Qed.

(** X13.  The field set by [InitFlow] has no divergence for
    [ComputeUserVars]: on a host copy whose face areas and volumes are
    those [MakeGeometry] builds (any geometry), after the flow is
    initialised the value stored in divB at every interior cell that has
    a cell of the block behind it in each direction and a non-zero
    volume is exactly 0, provided Rin is not zero and the index of the
    third staggered component differs from the other two. *)
Theorem flux_tube_divB_vanishes
  (RHO PRS VX1 VX2 VX3 BX1s BX2s BX3s : nat) (Rtorus Ztorus Rin : real)
  (GEOMETRY : Geometry) (DIMENSIONS : Dimensions) (blk : DataBlock)
  (d0 : Host.DataBlockHost) (variables : Host.UserDefVariables) (k j i : Z) :
  let built := MakeGeometry GEOMETRY DIMENSIONS blk in
  let d := InitFlow RHO PRS VX1 VX2 VX3 BX1s BX2s BX3s Rtorus Ztorus Rin d0 in
  let variables' := ComputeUserVars BX1s BX2s BX3s d variables in
  Host.np_tot d0 = np_tot blk ->
  Host.A d0 = A built -> Host.dV d0 = dV built ->
  BX3s <> BX1s -> BX3s <> BX2s -> Rin <> 0 ->
  (forall dir, (0 <= Host.beg d0 dir)%Z /\
               (Host.end_ d0 dir < Host.np_tot d0 dir)%Z) ->
  (Host.beg d0 KDIR <= k < Host.end_ d0 KDIR)%Z ->
  (Host.beg d0 JDIR <= j < Host.end_ d0 JDIR)%Z ->
  (Host.beg d0 IDIR <= i < Host.end_ d0 IDIR)%Z ->
  dV built k j i <> 0 ->
  Host.divB variables' k j i = Some 0.
Proof.
  intros built d variables' Hnp HA HdV H31 H32 HRin Hext Hk Hj Hi Hvol.
  assert (Kbeg : Host.beg d = Host.beg d0)
    by (apply (InitFlow_keeps _ _ _ _ _ _ _ _ _ _ _ Host.beg); reflexivity).
  assert (Kend : Host.end_ d = Host.end_ d0)
    by (apply (InitFlow_keeps _ _ _ _ _ _ _ _ _ _ _ Host.end_); reflexivity).
  assert (KA : Host.A d = Host.A d0)
    by (apply (InitFlow_keeps _ _ _ _ _ _ _ _ _ _ _ Host.A); reflexivity).
  assert (KdV : Host.dV d = Host.dV d0)
    by (apply (InitFlow_keeps _ _ _ _ _ _ _ _ _ _ _ Host.dV); reflexivity).
  unfold variables'.
  rewrite ComputeUserVars_divB by (rewrite Kbeg, Kend; assumption).
  destruct (Hext KDIR) as [Hk0 Hk1], (Hext JDIR) as [Hj0 Hj1],
    (Hext IDIR) as [Hi0 Hi1].
  unfold divB_cell. cbv zeta. rewrite KA, KdV, HA, HdV. unfold d.
  rewrite !InitFlow_Vs by (auto; lia).
  rewrite Nat.eqb_refl.
  assert (E1 : (BX1s =? BX3s)%nat = false) by (apply Nat.eqb_neq; congruence).
  assert (E2 : (BX2s =? BX3s)%nat = false) by (apply Nat.eqb_neq; congruence).
  rewrite E1, E2. cbn [bindx]. unfold bphi. cbv zeta.
  rewrite fdiv_defined by exact HRin. cbn [bindx].
  unfold built.
  rewrite !MakeGeometry_Ax3
    by (rewrite <- ?Hnp; try lia; destruct DIMENSIONS; cbn; lia).
  rewrite (AreaX3_face_same GEOMETRY DIMENSIONS blk (k + 1) k).
  fold built.
  match goal with
  | |- fdiv ?n _ = _ => replace n with 0 by lra
  end.
  rewrite fdiv_defined by exact Hvol. f_equal. unfold Rdiv. ring.
Qed.

Lemma flux_tube_divB_vanishes_witness :
  let built := MakeGeometry SPHERICAL DIM3 tube_block in
  let d := InitFlow 0 4 1 2 3 0 1 2 1 0 1 (host_mirror built) in
  let variables := Host.mkUserDefVariables (fun _ _ _ => None) (fun _ _ _ => 0) in
  (2 <> 0)%nat /\ (2 <> 1)%nat /\ 1 <> 0 /\
  dV built 1%Z 1%Z 1%Z <> 0 /\
  Host.divB (ComputeUserVars 0 1 2 d variables) 1%Z 1%Z 1%Z = Some 0.
Proof.
  cbv zeta.
  pose proof (flux_tube_divB_vanishes 0 4 1 2 3 0 1 2 1 0 1 SPHERICAL DIM3
                tube_block
                (host_mirror (MakeGeometry SPHERICAL DIM3 tube_block))
                (Host.mkUserDefVariables (fun _ _ _ => None) (fun _ _ _ => 0))
                1 1 1) as H.
  cbv zeta in H.
  assert (Hvol : dV (MakeGeometry SPHERICAL DIM3 tube_block) 1%Z 1%Z 1%Z <> 0).
  { apply Rgt_not_eq. apply Rlt_gt. pose proof PI2_1 as Hpi.
    apply spherical_volume_positive; [unfold in_block; cbn; lia | cbn; lra ..]. }
  assert (Hnp : np_tot (MakeGeometry SPHERICAL DIM3 tube_block) = np_tot tube_block)
    by (apply (MakeGeometry_keeps np_tot); reflexivity).
  assert (Hbeg : beg (MakeGeometry SPHERICAL DIM3 tube_block) = beg tube_block)
    by (apply (MakeGeometry_keeps beg); reflexivity).
  assert (Hend : end_ (MakeGeometry SPHERICAL DIM3 tube_block) = end_ tube_block)
    by (apply (MakeGeometry_keeps end_); reflexivity).
  revert H Hvol Hnp Hbeg Hend.
  generalize (MakeGeometry SPHERICAL DIM3 tube_block) as built.
  intros built H Hvol Hnp Hbeg Hend.
  cbn [host_mirror Host.beg Host.end_ Host.np_tot Host.A Host.dV] in H.
  rewrite Hnp, Hbeg, Hend in H.
  split; [discriminate |]. split; [discriminate |]. split; [lra |].
  split; [exact Hvol |].
  apply H; try reflexivity; try discriminate; try lra; try exact Hvol;
    try intros dir; cbn; lia.
Defined.

(** ** The initial flow of the flux-tube test *)

Lemma sqrt2_sqr : sqrt 2 * sqrt 2 = 2.
Proof. apply sqrt_sqrt. lra. Qed.

Lemma sqrt2_neq_0 : sqrt 2 <> 0.
Proof. pose proof sqrt2_sqr as H. intros E. rewrite E in H. lra. Qed.

Lemma sin_cos_sqr (a : R) : sin a * sin a + cos a * cos a = 1.
Proof. pose proof (sin2_cos2 a) as H. unfold Rsqr in H. exact H. Qed.

(** X14.  [Setup::InitFlow] leaves, at every cell of the block (ghost
    cells included), a density and a pressure equal to one and a velocity
    of norm one, whatever the cell centre: the three velocity components
    are those of the constant Cartesian vector (e_x + e_y) / sqrt 2.  The
    indices of the five cell-centred variables have to be pairwise
    distinct. *)
Theorem initial_flow_has_unit_speed
  (RHO PRS VX1 VX2 VX3 BX1s BX2s BX3s : nat) (Rtorus Ztorus Rin : real)
  (d0 : Host.DataBlockHost) (k j i : Z) :
  let d := InitFlow RHO PRS VX1 VX2 VX3 BX1s BX2s BX3s Rtorus Ztorus Rin d0 in
  let v1 := Host.Vc d VX1 k j i in
  let v2 := Host.Vc d VX2 k j i in
  let v3 := Host.Vc d VX3 k j i in
  NoDup (RHO :: PRS :: VX1 :: VX2 :: VX3 :: nil) ->
  (0 <= k < Host.np_tot d0 KDIR)%Z -> (0 <= j < Host.np_tot d0 JDIR)%Z ->
  (0 <= i < Host.np_tot d0 IDIR)%Z ->
  Host.Vc d RHO k j i = 1 /\ Host.Vc d PRS k j i = 1 /\
  v1 * v1 + v2 * v2 + v3 * v3 = 1.
Proof.
  intros d v1 v2 v3 Hnd Hk Hj Hi.
  assert (Hneq : RHO <> VX1 /\ RHO <> VX2 /\ RHO <> VX3 /\
                 PRS <> VX1 /\ PRS <> VX2 /\ PRS <> VX3 /\
                 VX1 <> VX2 /\ VX1 <> VX3 /\ VX2 <> VX3).
  { repeat match goal with
           | H : NoDup (_ :: _) |- _ => apply NoDup_cons_iff in H; destruct H
           end.
    cbn [In] in *. repeat split; intros E; subst; tauto. }
  destruct Hneq as (R1 & R2 & R3 & P1 & P2 & P3 & V12 & V13 & V23).
  unfold v1, v2, v3, d.
  rewrite !InitFlow_Vc by (auto; tauto). cbv zeta.
  rewrite !Nat.eqb_refl.
  repeat match goal with
         | |- context [(?a =? ?b)%nat] =>
             let E := fresh "E" in
             assert (E : (a =? b)%nat = false) by (apply Nat.eqb_neq; congruence);
             rewrite E; clear E
         end.
  split; [lra |]. split; [lra |].
  set (x2 := Host.x d0 JDIR j). set (x3 := Host.x d0 KDIR k).
  pose proof sqrt2_sqr as H2. pose proof sqrt2_neq_0 as Hn.
  pose proof (sin_cos_sqr x2) as S2. pose proof (sin_cos_sqr x3) as S3.
  set (q := sqrt 2) in *.
  replace ((cos x3 * sin x2 + sin x3 * sin x2) / q *
           ((cos x3 * sin x2 + sin x3 * sin x2) / q) +
           (cos x3 * cos x2 + sin x3 * cos x2) / q *
           ((cos x3 * cos x2 + sin x3 * cos x2) / q) +
           (- sin x3 + cos x3) / q * ((- sin x3 + cos x3) / q))
    with (((cos x3 + sin x3) * (cos x3 + sin x3) *
             (sin x2 * sin x2 + cos x2 * cos x2) +
           (cos x3 - sin x3) * (cos x3 - sin x3)) / (q * q))
    by (field; exact Hn).
  rewrite S2, H2.
  replace ((cos x3 + sin x3) * (cos x3 + sin x3) * 1 +
           (cos x3 - sin x3) * (cos x3 - sin x3))
    with (2 * (sin x3 * sin x3 + cos x3 * cos x3)) by ring.
  rewrite S3. lra.
Qed.

Lemma initial_flow_has_unit_speed_witness :
  let d := InitFlow 0 4 1 2 3 0 1 2 1 0 1 (host_mirror tube_block) in
  NoDup (0 :: 4 :: 1 :: 2 :: 3 :: nil)%nat /\
  Host.Vc d 0%nat 1%Z 2%Z 3%Z = 1 /\ Host.Vc d 4%nat 1%Z 2%Z 3%Z = 1 /\
  Host.Vc d 1%nat 1%Z 2%Z 3%Z * Host.Vc d 1%nat 1%Z 2%Z 3%Z +
  Host.Vc d 2%nat 1%Z 2%Z 3%Z * Host.Vc d 2%nat 1%Z 2%Z 3%Z +
  Host.Vc d 3%nat 1%Z 2%Z 3%Z * Host.Vc d 3%nat 1%Z 2%Z 3%Z = 1.
Proof.
  intros d.
  assert (Hnd : NoDup (0 :: 4 :: 1 :: 2 :: 3 :: nil)%nat).
  { repeat constructor; cbn [In]; intros H;
      repeat destruct H as [H | H]; try discriminate H; exact H. }
  split; [exact Hnd |].
  apply (initial_flow_has_unit_speed 0 4 1 2 3 0 1 2 1 0 1
           (host_mirror tube_block) 1 2 3 Hnd); cbn; lia.
Defined.

(** X15.  With a positive [Rin], [Setup::InitFlow] leaves in the third
    staggered component, at every cell of the block, a finite value
    between 0 and 1.0e-20; the value is zero exactly at the cells whose
    centre lies at a squared distance of at least [Rin] from the centre
    line (Rtorus, Ztorus) of the tube in the poloidal plane, and inside
    the tube it is 1.0e-20 * (1 - distance^2 / Rin). *)
Theorem toroidal_field_confined_to_tube
  (RHO PRS VX1 VX2 VX3 BX1s BX2s BX3s : nat) (Rtorus Ztorus Rin : real)
  (d0 : Host.DataBlockHost) (k j i : Z) :
  let d := InitFlow RHO PRS VX1 VX2 VX3 BX1s BX2s BX3s Rtorus Ztorus Rin d0 in
  let x1 := Host.x d0 IDIR i in
  let x2 := Host.x d0 JDIR j in
  let dist2 := pow2 (x1 * sin x2 - Rtorus) + pow2 (x1 * cos x2 - Ztorus) in
  0 < Rin ->
  (0 <= k < Host.np_tot d0 KDIR)%Z -> (0 <= j < Host.np_tot d0 JDIR)%Z ->
  (0 <= i < Host.np_tot d0 IDIR)%Z ->
  exists b : real,
    Host.Vs d BX3s k j i = Some b /\
    0 <= b <= 1.0e-20 /\
    (b = 0 <-> Rin <= dist2) /\
    (dist2 < Rin -> b = 1.0e-20 * (1 - dist2 / Rin)).
Proof.
  intros d x1 x2 dist2 HRin Hk Hj Hi. unfold d.
  rewrite InitFlow_Vs by auto. rewrite Nat.eqb_refl.
  unfold bphi. cbv zeta. fold x1 x2. fold dist2.
  rewrite fdiv_defined by lra. cbn [bindx].
  assert (Hd : 0 <= dist2).
  { unfold dist2, pow2.
    pose proof (Rle_0_sqr (x1 * sin x2 - Rtorus)) as A1.
    pose proof (Rle_0_sqr (x1 * cos x2 - Ztorus)) as A2.
    unfold Rsqr in A1, A2. lra. }
  assert (Hq : 0 <= dist2 / Rin).
  { apply Rmult_le_pos; [exact Hd |]. left. now apply Rinv_0_lt_compat. }
  assert (Hlt : dist2 / Rin < 1 <-> dist2 < Rin).
  { split; intros H.
    - apply (Rmult_lt_compat_r Rin) in H; [| exact HRin].
      unfold Rdiv in H. rewrite Rmult_assoc, Rinv_l in H by lra. lra.
    - apply (Rmult_lt_reg_r Rin); [exact HRin |].
      unfold Rdiv. rewrite Rmult_assoc, Rinv_l by lra. lra. }
  destruct (Rlt_dec (1.0 - dist2 / Rin) 0.0) as [Hneg | Hpos].
  - exists (1.0e-20 * 0.0). split; [reflexivity |].
    assert (Hout : Rin <= dist2).
    { destruct (Rle_lt_dec Rin dist2) as [H | H]; [exact H |].
      apply Hlt in H. lra. }
    split; [lra |]. split; [split; intros _; [exact Hout | lra] |].
    intros H. lra.
  - exists (1.0e-20 * (1.0 - dist2 / Rin)). split; [reflexivity |].
    split; [split; nra |]. split.
    + split; intros H.
      * destruct (Rle_lt_dec Rin dist2) as [H' | H']; [exact H' |].
        apply Hlt in H'. nra.
      * assert (~ dist2 / Rin < 1) by (intros H'; apply Hlt in H'; lra). nra.
    + intros _. lra.
Qed.

Lemma toroidal_field_confined_to_tube_witness :
  let d := InitFlow 0 4 1 2 3 0 1 2 1 0 1 (host_mirror tube_block) in
  let x1 := Host.x (host_mirror tube_block) IDIR 1%Z in
  let x2 := Host.x (host_mirror tube_block) JDIR 1%Z in
  let dist2 := pow2 (x1 * sin x2 - 1) + pow2 (x1 * cos x2 - 0) in
  0 < 1 /\
  exists b : real,
    Host.Vs d 2%nat 1%Z 1%Z 1%Z = Some b /\
    0 <= b <= 1.0e-20 /\
    (b = 0 <-> 1 <= dist2) /\
    (dist2 < 1 -> b = 1.0e-20 * (1 - dist2 / 1)).
Proof.
  intros d x1 x2 dist2.
  assert (H01 : 0 < 1) by lra.
  split; [exact H01 |].
  apply (toroidal_field_confined_to_tube 0 4 1 2 3 0 1 2 1 0 1
           (host_mirror tube_block) 1 1 1 H01); cbn; lia.
Defined.

(** ** The VTK writer *)

(** X16.  Whatever the byte order of the machine, the endianness test of
    [Vtk::Init] followed by [Vtk::BigEndian] leaves a 32-bit pattern with
    its byte of highest weight at the lowest address, which is the order
    [fwrite] then puts the bytes in the file; and [BigEndian] applied
    twice gives the number back. *)
Theorem written_floats_are_big_endian (m : Vtk.Machine) (bits : Z) :
  Vtk.BigEndian (Vtk.Init_shouldSwapEndian m) (Vtk.object_representation m bits)
  = Vtk.object_representation Vtk.big_endian bits /\
  forall (shouldSwapEndian : Z) (x : Vtk.float),
    Vtk.BigEndian shouldSwapEndian (Vtk.BigEndian shouldSwapEndian x) = x.
Proof.
  split.
  - destruct m; reflexivity.
  - intros s [b0 b1 b2 b3]. unfold Vtk.BigEndian.
    destruct (negb (s =? 0)%Z); reflexivity.
Qed.

Lemma map_seq_from (b : Z) (s n : nat) :
  map (fun k => (b + Z.of_nat k)%Z) (seq s n) =
  map (fun k => (b + Z.of_nat s + Z.of_nat k)%Z) (seq 0 n).
Proof.
  revert s b. induction n as [| n IH]; intros s b; [reflexivity |].
  cbn [seq map]. f_equal; [lia |].
  rewrite (IH (S s) b), (IH 1%nat (b + Z.of_nat s)%Z).
  apply map_ext. intros k. lia.
Qed.

Lemma zrange_app (b m e : Z) :
  (b <= m <= e)%Z -> zrange b e = zrange b m ++ zrange m e.
Proof.
  intros H. unfold zrange.
  replace (Z.to_nat (e - b)) with (Z.to_nat (m - b) + Z.to_nat (e - m))%nat by lia.
  rewrite seq_app, map_app. f_equal. cbn [Nat.add].
  rewrite map_seq_from. apply map_ext. intros k. lia.
Qed.

Lemma zrange_one (b : Z) : zrange b (b + 1) = b :: nil.
Proof.
  unfold zrange. replace (Z.to_nat (b + 1 - b)) with 1%nat by lia.
  cbn. f_equal. lia.
Qed.

Lemma zrange_empty (b e : Z) : (e <= b)%Z -> zrange b e = nil.
Proof.
  intros H. unfold zrange. now replace (Z.to_nat (e - b)) with 0%nat by lia.
Qed.

Lemma zrange_shift (c b e : Z) :
  map (fun i => (i + c)%Z) (zrange b e) = zrange (b + c) (e + c).
Proof.
  unfold zrange. rewrite map_map.
  replace (Z.to_nat (e + c - (b + c))) with (Z.to_nat (e - b)) by lia.
  apply map_ext. intros k. lia.
Qed.

Lemma map_flat_map {X Y W : Type} (f : Y -> W) (g : X -> list Y) (l : list X) :
  map f (flat_map g l) = flat_map (fun a => map f (g a)) l.
Proof.
  induction l as [| a l IH]; cbn; [reflexivity |].
  now rewrite map_app, IH.
Qed.

(** Consecutive blocks of [w] indices, one for each index of a range,
    make up one range. *)
Lemma zrange_blocks (a w jb : Z) (n : nat) :
  (0 <= w)%Z ->
  flat_map (fun j => zrange (a + (j - jb) * w) (a + (j - jb) * w + w))
    (zrange jb (jb + Z.of_nat n)) =
  zrange a (a + Z.of_nat n * w).
Proof.
  intros Hw. induction n as [| n IH].
  - rewrite !zrange_empty by lia. reflexivity.
  - rewrite (zrange_app jb (jb + Z.of_nat n) (jb + Z.of_nat (S n))) by lia.
    rewrite flat_map_app, IH.
    replace (jb + Z.of_nat (S n))%Z with (jb + Z.of_nat n + 1)%Z by lia.
    rewrite zrange_one. cbn [flat_map]. rewrite app_nil_r.
    rewrite (zrange_app a (a + Z.of_nat n * w) (a + Z.of_nat (S n) * w)) by nia.
    f_equal. f_equal; nia.
Qed.

Lemma fold_left_pointwise {X Y : Type} (f g : X -> Y -> X) :
  (forall a b, f a b = g a b) ->
  forall l a, fold_left f l a = fold_left g l a.
Proof.
  intros H l. induction l as [| b l IH]; intros a; cbn; [reflexivity |].
  now rewrite H, IH.
Qed.

Section Vtk_props.

Variable shouldSwapEndian : Z.
Variable to_float : real -> Vtk.float.
Variables nx1loc nx2loc nx3loc : Z.
Variable data : Host.DataBlockHost.

Hypothesis size1 : nx1loc = (Host.end_ data IDIR - Host.beg data IDIR)%Z.
Hypothesis size2 : nx2loc = (Host.end_ data JDIR - Host.beg data JDIR)%Z.
Hypothesis size3 : nx3loc = (Host.end_ data KDIR - Host.beg data KDIR)%Z.
Hypothesis extent1 : (Host.beg data IDIR <= Host.end_ data IDIR)%Z.
Hypothesis extent2 : (Host.beg data JDIR <= Host.end_ data JDIR)%Z.
Hypothesis extent3 : (Host.beg data KDIR <= Host.end_ data KDIR)%Z.

Let cells : list Index3 :=
  range3 (Host.beg data KDIR) (Host.end_ data KDIR)
         (Host.beg data JDIR) (Host.end_ data JDIR)
         (Host.beg data IDIR) (Host.end_ data IDIR).

(** The position of cell [(k,j,i)] in the buffer. *)
Let slot (c : Index3) : Z :=
  let '(k, j, i) := c in
  (i - Host.beg data IDIR + (j - Host.beg data JDIR) * nx1loc
   + (k - Host.beg data KDIR) * nx1loc * nx2loc)%Z.

Let fill := Vtk.fill_vect3D shouldSwapEndian to_float nx1loc nx2loc data.

Lemma slot_in_buffer (c : Index3) :
  In c cells -> (0 <= slot c < nx1loc * nx2loc * nx3loc)%Z.
Proof.
  clear extent1 extent2 extent3.
  destruct c as [[k j] i]. unfold cells. rewrite in_range3.
  intros (Hk & Hj & Hi). unfold slot.
  set (u := (i - Host.beg data IDIR)%Z).
  set (v := (j - Host.beg data JDIR)%Z).
  set (w := (k - Host.beg data KDIR)%Z).
  assert (Hu : (0 <= u < nx1loc)%Z) by (unfold u; lia).
  assert (Hv : (0 <= v < nx2loc)%Z) by (unfold v; lia).
  assert (Hw : (0 <= w < nx3loc)%Z) by (unfold w; lia).
  clearbody u v w. clear Hk Hj Hi size1 size2 size3.
  assert (H1 : (0 <= v * nx1loc)%Z) by (apply Z.mul_nonneg_nonneg; lia).
  assert (H2 : (0 <= w * nx1loc * nx2loc)%Z)
    by (apply Z.mul_nonneg_nonneg; [apply Z.mul_nonneg_nonneg |]; lia).
  split; [lia |].
  assert (H3 : (u + v * nx1loc <= nx1loc * nx2loc - 1)%Z).
  { assert ((v + 1) * nx1loc <= nx2loc * nx1loc)%Z
      by (apply Z.mul_le_mono_nonneg_r; lia).
    lia. }
  assert (H0 : (0 <= nx1loc * nx2loc)%Z) by (apply Z.mul_nonneg_nonneg; lia).
  assert (H4 : ((w + 1) * (nx1loc * nx2loc) <= nx3loc * (nx1loc * nx2loc))%Z)
    by (apply Z.mul_le_mono_nonneg_r; lia).
  lia.
Qed.

Lemma slot_injective (a b : Index3) :
  In a cells -> In b cells -> slot a = slot b -> a = b.
Proof.
  destruct a as [[k j] i], b as [[k' j'] i']. unfold cells.
  rewrite !in_range3. intros (Hk & Hj & Hi) (Hk' & Hj' & Hi'). unfold slot.
  set (u := (i - Host.beg data IDIR)%Z).
  set (v := (j - Host.beg data JDIR)%Z).
  set (w := (k - Host.beg data KDIR)%Z).
  set (u' := (i' - Host.beg data IDIR)%Z).
  set (v' := (j' - Host.beg data JDIR)%Z).
  set (w' := (k' - Host.beg data KDIR)%Z).
  intros E.
  assert (Hu : (0 <= u < nx1loc)%Z) by (unfold u; lia).
  assert (Hv : (0 <= v < nx2loc)%Z) by (unfold v; lia).
  assert (Hu' : (0 <= u' < nx1loc)%Z) by (unfold u'; lia).
  assert (Hv' : (0 <= v' < nx2loc)%Z) by (unfold v'; lia).
  assert (E1 : (u + nx1loc * (v + nx2loc * w) = u' + nx1loc * (v' + nx2loc * w'))%Z)
    by lia.
  assert (E2 : (v + nx2loc * w = v' + nx2loc * w')%Z) by nia.
  assert (E3 : (w = w')%Z) by nia.
  assert (E4 : (v = v')%Z) by nia.
  assert (E5 : (u = u')%Z) by nia.
  unfold u, u', v, v', w, w' in *.
  f_equal; [f_equal |]; lia.
Qed.

(** The positions of the cells, in the order of the loops, are the
    indices of the buffer in increasing order. *)
Lemma slots_in_order :
  map slot cells = zrange 0 (nx1loc * nx2loc * nx3loc).
Proof.
  unfold cells, range3. rewrite map_flat_map.
  erewrite flat_map_ext.
  2: { intros k. rewrite map_flat_map.
       erewrite flat_map_ext.
       2: { intros j. rewrite map_map. cbn [slot].
            rewrite <- (map_ext (fun i => (i + ((j - Host.beg data JDIR) * nx1loc
                            + (k - Host.beg data KDIR) * nx1loc * nx2loc
                            - Host.beg data IDIR))%Z)) by (intros; lia).
            rewrite zrange_shift.
            replace (Host.beg data IDIR + ((j - Host.beg data JDIR) * nx1loc
                        + (k - Host.beg data KDIR) * nx1loc * nx2loc
                        - Host.beg data IDIR))%Z
              with ((k - Host.beg data KDIR) * nx1loc * nx2loc
                    + (j - Host.beg data JDIR) * nx1loc)%Z by lia.
            replace (Host.end_ data IDIR + ((j - Host.beg data JDIR) * nx1loc
                        + (k - Host.beg data KDIR) * nx1loc * nx2loc
                        - Host.beg data IDIR))%Z
              with ((k - Host.beg data KDIR) * nx1loc * nx2loc
                    + (j - Host.beg data JDIR) * nx1loc + nx1loc)%Z by lia.
            reflexivity. }
       replace (Host.end_ data JDIR)
         with (Host.beg data JDIR + Z.of_nat (Z.to_nat nx2loc))%Z by lia.
       rewrite zrange_blocks by lia.
       rewrite Z2Nat.id by lia.
       replace ((k - Host.beg data KDIR) * nx1loc * nx2loc)%Z
         with (0 + (k - Host.beg data KDIR) * (nx1loc * nx2loc))%Z by ring.
       replace (nx2loc * nx1loc)%Z with (nx1loc * nx2loc)%Z by ring.
       reflexivity. }
  replace (Host.end_ data KDIR)
    with (Host.beg data KDIR + Z.of_nat (Z.to_nat nx3loc))%Z by lia.
  rewrite zrange_blocks by nia.
  rewrite Z2Nat.id by lia. f_equal. ring.
Qed.

Lemma fill_fold (field : IdefixArray3D real) (buf : IdefixArray1D Vtk.float) :
  fill field buf =
  fold_left
    (fun buf c =>
       upd1 buf (slot c)
         (Vtk.BigEndian shouldSwapEndian
            (to_float (let '(k, j, i) := c in field k j i))))
    cells buf.
Proof.
  unfold fill, Vtk.fill_vect3D, cells. apply fold_left_pointwise.
  intros buf0 [[k j] i]. reflexivity.
Qed.

Lemma fill_at_slot (field : IdefixArray3D real) (buf : IdefixArray1D Vtk.float)
  (k j i : Z) :
  In (k, j, i) cells ->
  fill field buf (slot (k, j, i)) =
  Vtk.BigEndian shouldSwapEndian (to_float (field k j i)).
Proof.
  rewrite fill_fold. generalize slot_injective.
  generalize cells as l. intros l Hinj.
  induction l as [| c l IH] using rev_ind; intros Hin; [destruct Hin |].
  rewrite fold_left_app. cbn [fold_left]. unfold upd1 at 1.
  destruct (slot (k, j, i) =? slot c)%Z eqn:E.
  - apply Z.eqb_eq in E. apply Hinj in E;
      [| exact Hin | apply in_app_iff; right; now left].
    now subst c.
  - apply IH.
    + intros a b Ha Hb. apply Hinj; apply in_app_iff; now left.
    + apply in_app_iff in Hin. destruct Hin as [Hin | [Hc | []]]; [exact Hin |].
      rewrite Hc, Z.eqb_refl in E. discriminate E.
Qed.

Lemma fill_elsewhere (field : IdefixArray3D real) (buf : IdefixArray1D Vtk.float)
  (n : Z) :
  ~ (0 <= n < nx1loc * nx2loc * nx3loc)%Z -> fill field buf n = buf n.
Proof.
  intros Hn. rewrite fill_fold. generalize slot_in_buffer.
  generalize cells as l. intros l Hin.
  induction l as [| c l IH] using rev_ind; [reflexivity |].
  rewrite fold_left_app. cbn [fold_left]. unfold upd1 at 1.
  destruct (n =? slot c)%Z eqn:E.
  - apply Z.eqb_eq in E. subst n. exfalso. apply Hn. apply Hin.
    apply in_app_iff. right. now left.
  - apply IH. intros a Ha. apply Hin. apply in_app_iff. now left.
Qed.

(** The block of floats one field contributes to the file. *)
Let block (field : IdefixArray3D real) : list Vtk.float :=
  map (fun '(k, j, i) => Vtk.BigEndian shouldSwapEndian (to_float (field k j i)))
    cells.

Lemma WriteScalar_fill (field : IdefixArray3D real) (buf : IdefixArray1D Vtk.float) :
  Vtk.WriteScalar nx1loc nx2loc nx3loc (fill field buf) = block field.
Proof.
  unfold Vtk.WriteScalar, block. rewrite <- slots_in_order, map_map.
  apply map_ext_in. intros [[k j] i] Hc. now apply fill_at_slot.
Qed.

Let write := Vtk.write_field shouldSwapEndian to_float nx1loc nx2loc nx3loc data.

Lemma write_fields_file (fields : list (IdefixArray3D real)) (out : Vtk.Output) :
  Vtk.file (fold_left write fields out) = Vtk.file out ++ map block fields.
Proof.
  revert out. induction fields as [| f fields IH]; intros out; cbn [fold_left map].
  - now rewrite app_nil_r.
  - rewrite IH. unfold write, Vtk.write_field. cbn [Vtk.file].
    fold fill. rewrite WriteScalar_fill, <- app_assoc. reflexivity.
Qed.

Lemma write_fields_elsewhere (fields : list (IdefixArray3D real))
  (out : Vtk.Output) (n : Z) :
  ~ (0 <= n < nx1loc * nx2loc * nx3loc)%Z ->
  Vtk.vect3D (fold_left write fields out) n = Vtk.vect3D out n.
Proof.
  intros Hn. revert out.
  induction fields as [| f fields IH]; intros out; cbn [fold_left]; [reflexivity |].
  rewrite IH. unfold write, Vtk.write_field. cbn [Vtk.vect3D].
  fold fill. now apply fill_elsewhere.
Qed.

Lemma Write_as_fields (NVAR : nat) (enabled : bool)
  (vars : list (IdefixArray3D real)) (out : Vtk.Output) :
  Vtk.Write shouldSwapEndian to_float nx1loc nx2loc nx3loc NVAR data enabled vars out
  = fold_left write
      (map (Host.Vc data) (seq 0 NVAR) ++ (if enabled then vars else nil)) out.
Proof.
  unfold Vtk.Write. cbv zeta. rewrite fold_left_app. fold write.
  assert (E : forall l o,
             fold_left (fun out nv => write out (Host.Vc data nv)) l o =
             fold_left write (map (Host.Vc data) l) o).
  { induction l as [| a l IH]; intros o; cbn; [reflexivity | apply IH]. }
  rewrite E. destruct enabled; reflexivity.
Qed.

End Vtk_props.

(** X17.  When the local sizes are the extents of the interior range of
    the block, [Vtk::Write] appends to the file one block of floats for
    each of the [NVAR] cell-centred variables, in the order of their
    index, then, if enabled, one for each user-defined variable; each
    block holds the byte-ordered values of its field at the interior
    cells in the order of the loops, the first index running fastest.
    Nothing of what the buffer held before, be it its first content or
    the previous field, reaches the file. *)
Theorem vtk_blocks_follow_loop_order
  (shouldSwapEndian : Z) (to_float : real -> Vtk.float)
  (nx1loc nx2loc nx3loc : Z) (NVAR : nat) (data : Host.DataBlockHost)
  (userDefVariablesEnabled : bool)
  (userDefVariables : list (IdefixArray3D real)) (out : Vtk.Output) :
  let cells :=
    range3 (Host.beg data KDIR) (Host.end_ data KDIR)
           (Host.beg data JDIR) (Host.end_ data JDIR)
           (Host.beg data IDIR) (Host.end_ data IDIR) in
  let block := fun field : IdefixArray3D real =>
    map (fun '(k, j, i) => Vtk.BigEndian shouldSwapEndian (to_float (field k j i)))
      cells in
  nx1loc = (Host.end_ data IDIR - Host.beg data IDIR)%Z ->
  nx2loc = (Host.end_ data JDIR - Host.beg data JDIR)%Z ->
  nx3loc = (Host.end_ data KDIR - Host.beg data KDIR)%Z ->
  (forall dir, (Host.beg data dir <= Host.end_ data dir)%Z) ->
  Vtk.file (Vtk.Write shouldSwapEndian to_float nx1loc nx2loc nx3loc NVAR data
              userDefVariablesEnabled userDefVariables out) =
  Vtk.file out ++ map block (map (Host.Vc data) (seq 0 NVAR))
    ++ (if userDefVariablesEnabled then map block userDefVariables else nil).
Proof.
  intros cells block H1 H2 H3 Hext.
  rewrite Write_as_fields.
  rewrite write_fields_file by auto.
  rewrite map_app. f_equal. f_equal.
  destruct userDefVariablesEnabled; reflexivity.
Qed.

Lemma vtk_blocks_follow_loop_order_witness :
  let to_float := fun r : real =>
    if Rlt_dec r 1 then Vtk.mkFloat 1 2 3 4 else Vtk.mkFloat 5 6 7 8 in
  let data := InitFlow 0 4 1 2 3 0 1 2 1 0 1 (host_mirror tube_block) in
  let out := Vtk.mkOutput (fun _ => Vtk.mkFloat 0 0 0 0) nil in
  let cells := range3 1 3 1 3 1 3 in
  let block := fun field : IdefixArray3D real =>
    map (fun '(k, j, i) => Vtk.BigEndian 1 (to_float (field k j i))) cells in
  Vtk.file (Vtk.Write 1 to_float 2 2 2 5 data true nil out) =
  map block (map (Host.Vc data) (seq 0 5)).
Proof.
  intros to_float data out cells block.
  assert (Kbeg : Host.beg data = fun _ => 1%Z)
    by (apply (InitFlow_keeps _ _ _ _ _ _ _ _ _ _ _ Host.beg); reflexivity).
  assert (Kend : Host.end_ data = fun _ => 3%Z)
    by (apply (InitFlow_keeps _ _ _ _ _ _ _ _ _ _ _ Host.end_); reflexivity).
  pose proof (vtk_blocks_follow_loop_order 1 to_float 2 2 2 5 data true nil out)
    as H.
  cbv zeta in H. rewrite Kbeg, Kend in H. cbn [app map] in H.
  rewrite app_nil_r in H. apply H; try reflexivity. intros dir. lia.
Defined.

(** X18.  Under the same condition on the local sizes, no write of
    [Vtk::Write] falls outside the [nx1loc*nx2loc*nx3loc] entries that
    [Vtk::Init] allocates for the buffer: every entry of another index
    is left as it was. *)
Theorem vtk_buffer_writes_in_bounds
  (shouldSwapEndian : Z) (to_float : real -> Vtk.float)
  (nx1loc nx2loc nx3loc : Z) (NVAR : nat) (data : Host.DataBlockHost)
  (userDefVariablesEnabled : bool)
  (userDefVariables : list (IdefixArray3D real)) (out : Vtk.Output) (n : Z) :
  nx1loc = (Host.end_ data IDIR - Host.beg data IDIR)%Z ->
  nx2loc = (Host.end_ data JDIR - Host.beg data JDIR)%Z ->
  nx3loc = (Host.end_ data KDIR - Host.beg data KDIR)%Z ->
  ~ (0 <= n < nx1loc * nx2loc * nx3loc)%Z ->
  Vtk.vect3D (Vtk.Write shouldSwapEndian to_float nx1loc nx2loc nx3loc NVAR data
                userDefVariablesEnabled userDefVariables out) n =
  Vtk.vect3D out n.
Proof.
  intros H1 H2 H3 Hn.
  rewrite Write_as_fields.
  now apply write_fields_elsewhere.
Qed.

Lemma vtk_buffer_writes_in_bounds_witness :
  let to_float := fun r : real =>
    if Rlt_dec r 1 then Vtk.mkFloat 1 2 3 4 else Vtk.mkFloat 5 6 7 8 in
  let data := host_mirror tube_block in
  let out := Vtk.mkOutput (fun _ => Vtk.mkFloat 0 0 0 0) nil in
  ~ (0 <= 8 < 2 * 2 * 2)%Z /\
  Vtk.vect3D (Vtk.Write 1 to_float 2 2 2 5 data true nil out) 8%Z =
  Vtk.mkFloat 0 0 0 0.
Proof.
  intros to_float data out.
  assert (Hn : ~ (0 <= 8 < 2 * 2 * 2)%Z) by lia.
  split; [exact Hn |].
  apply (vtk_buffer_writes_in_bounds 1 to_float 2 2 2 5 data true nil out 8%Z
           eq_refl eq_refl eq_refl Hn).
Defined.

(** ** The parameter file *)

Module InputFacts.

Import Ascii String Input.
#[local] Open Scope string_scope.

(** *** Strings *)

Lemma substring_all (s : string) : substring 0 (length s) s = s.
Proof. induction s as [| c s IH]; cbn; [reflexivity | now rewrite IH]. Qed.

Lemma substring_0_0 (s : string) : substring 0 0 s = EmptyString.
Proof. now destruct s. Qed.

Lemma substring_app_l (a b : string) (m : nat) :
  substring 0 (length a + m) (a ++ b) = a ++ substring 0 m b.
Proof.
  induction a as [| c a IH]; cbn; [reflexivity |]. now rewrite IH.
Qed.

Lemma substring_app_r (a b : string) (m : nat) :
  substring (length a) m (a ++ b) = substring 0 m b.
Proof. induction a as [| c a IH]; cbn; [reflexivity | exact IH]. Qed.

Lemma substring_long (s : string) (m : nat) :
  (length s <= m)%nat -> substring 0 m s = s.
Proof.
  revert m. induction s as [| c s IH]; intros [| m] H; cbn in *;
    try reflexivity; try lia.
  rewrite IH by lia. reflexivity.
Qed.

Lemma length_app (a b : string) : length (a ++ b) = (length a + length b)%nat.
Proof. induction a as [| c a IH]; cbn; [reflexivity | now rewrite IH]. Qed.

Lemma append_assoc (a b c : string) : (a ++ b) ++ c = a ++ b ++ c.
Proof. induction a as [| x a IH]; cbn; [reflexivity | now rewrite IH]. Qed.

Lemma append_nil_r (a : string) : a ++ EmptyString = a.
Proof. induction a as [| x a IH]; cbn; [reflexivity | now rewrite IH]. Qed.

(** *** Searches *)

Lemma find_if_app_none (p : ascii -> bool) (a b : string) :
  find_if p a 0 = None ->
  find_if p (a ++ b) 0 = option_map (Nat.add (length a)) (find_if p b 0).
Proof.
  induction a as [| c a IH]; cbn.
  - intros _. now destruct (find_if p b 0).
  - destruct (p c); [discriminate |].
    destruct (find_if p a 0) eqn:E; [discriminate |]. intros _.
    rewrite IH by reflexivity. now destruct (find_if p b 0).
Qed.

Lemma find_if_skip (p : ascii -> bool) (a b : string) (pos : nat) :
  find_if p (a ++ b) (length a + pos) =
  option_map (Nat.add (length a)) (find_if p b pos).
Proof.
  induction a as [| c a IH]; cbn.
  - now destruct (find_if p b pos).
  - rewrite IH. now destruct (find_if p b pos).
Qed.

Lemma find_if_none_app (p : ascii -> bool) (a b : string) :
  find_if p a 0 = None -> find_if p b 0 = None -> find_if p (a ++ b) 0 = None.
Proof. intros Ha Hb. now rewrite find_if_app_none, Hb. Qed.

Lemma find_if_none_weaken (p q : ascii -> bool) (s : string) :
  (forall c, q c = true -> p c = true) ->
  find_if p s 0 = None -> find_if q s 0 = None.
Proof.
  intros Hpq. induction s as [| c s IH]; cbn; [reflexivity |].
  destruct (p c) eqn:Ep; [discriminate |].
  destruct (q c) eqn:Eq; [apply Hpq in Eq; congruence |].
  destruct (find_if p s 0); [discriminate |]. intros _.
  now rewrite IH.
Qed.

(** *** The accessors *)

Lemma to_size_t_small (z : Z) : (0 <= z < 2 ^ 31)%Z -> to_size_t z = z.
Proof. intros H. unfold to_size_t. apply Z.mod_small. lia. Qed.


Lemma to_int_small (z : Z) : (- 2 ^ 31 <= z < 2 ^ 31)%Z -> to_int z = z.
Proof.
  intros H. unfold to_int. rewrite Z.mod_small by lia. lia.
Qed.



Lemma find_last_split (c : ascii) (s : string) (p : nat) :
  find_last_of s c = Some p ->
  exists stem ext,
    s = stem ++ String c ext /\ length stem = p /\ find_last_of ext c = None.
Proof.
  revert p. induction s as [| a s IH]; intros p; cbn; [discriminate |].
  destruct (find_last_of s c) as [n |] eqn:E.
  - intros [= <-]. destruct (IH n eq_refl) as (stem & ext & -> & Hlen & Hext).
    exists (String a stem), ext. cbn. now rewrite Hlen.
  - destruct (Ascii.eqb c a) eqn:Ea; [| discriminate].
    intros [= <-]. apply Ascii.eqb_eq in Ea. subst a.
    exists EmptyString, s. now repeat split.
Qed.

(** X20.  For a file name of fewer than 2^31 characters,
    [getFileExtension] returns the text after the last dot, which holds
    no dot; when the name has no dot at all it returns the whole name:
    the position [npos] stored in the [int] is -1 and the substring
    starts at 0. *)
Theorem extension_is_text_after_last_dot (file_name : string) :
  (Z.of_nat (length file_name) < 2 ^ 31)%Z ->
  exists ext,
    getFileExtension file_name = Some ext /\
    find_last_of ext "." = None /\
    match find_last_of file_name "." with
    | None => ext = file_name
    | Some p => exists stem, length stem = p /\ file_name = stem ++ "." ++ ext
    end.
Proof.
  intros Hlen. unfold getFileExtension.
  destruct (find_last_of file_name ".") as [p |] eqn:E.
  - destruct (find_last_split _ _ _ E) as (stem & ext & Hs & Hp & Hext).
    exists ext.
    assert (Hl : length file_name = (p + 1 + length ext)%nat).
    { rewrite Hs, length_app. cbn. lia. }
    rewrite to_int_small by lia.
    rewrite to_size_t_small by lia.
    unfold substr_from.
    destruct (Z.of_nat p + 1 <=? Z.of_nat (length file_name))%Z eqn:Ele;
      [| apply Z.leb_gt in Ele; lia].
    split; [| split; [exact Hext | exists stem; now split]].
    f_equal. unfold substr.
    replace (Z.to_nat (Z.of_nat p + 1)) with (length (stem ++ ".")) 
      by (rewrite length_app; cbn; lia).
    rewrite Hs at 2.
    replace (stem ++ String "." ext) with ((stem ++ ".") ++ ext)
      by (now rewrite append_assoc).
    rewrite substring_app_r. apply substring_long. lia.
  - exists file_name. split; [| split; [exact E | reflexivity]].
    change (to_int npos) with (-1)%Z. change (to_size_t (-1 + 1)) with 0%Z.
    unfold substr_from. cbn [Z.leb Z.compare Z.of_nat].
    destruct (0 <=? Z.of_nat (length file_name))%Z eqn:Ele;
      [| apply Z.leb_gt in Ele; lia].
    f_equal. apply substring_all.
Qed.

Lemma extension_is_text_after_last_dot_witness :
  (Z.of_nat (length "data.0001.vtk") < 2 ^ 31)%Z /\
  exists ext,
    getFileExtension "data.0001.vtk" = Some ext /\
    find_last_of ext "." = None /\
    match find_last_of "data.0001.vtk" "." with
    | None => ext = "data.0001.vtk"
    | Some p => exists stem, length stem = p /\ "data.0001.vtk" = stem ++ "." ++ ext
    end.
Proof.
  assert (H : (Z.of_nat (length "data.0001.vtk") < 2 ^ 31)%Z) by (cbn; lia).
  split; [exact H |].
  exact (extension_is_text_after_last_dot "data.0001.vtk" H).
Defined.

(** *** The lines of the file *)

Lemma find_if_cons_none (p : ascii -> bool) (c : ascii) (s : string) :
  p c = false -> find_if p s 0 = None -> find_if p (String c s) 0 = None.
Proof. intros Hc Hs. cbn. now rewrite Hc, Hs. Qed.

Lemma blanks_hold_no (c : ascii) (blanks : string) :
  c <> " "%char ->
  find_first_not_of blanks " " = None -> find_if (Ascii.eqb c) blanks 0 = None.
Proof.
  intros Hc. apply find_if_none_weaken. intros a Ha.
  apply Ascii.eqb_eq in Ha. subst a.
  destruct (Ascii.eqb " " c) eqn:E; [| reflexivity].
  apply Ascii.eqb_eq in E. congruence.
Qed.

Lemma line_without_comment (l : string) :
  find l "#" 0 = None -> substr l 0 (find l "#" 0) = l.
Proof. intros H. rewrite H. apply substring_all. Qed.

Lemma line_before_comment (l comment : string) :
  find l "#" 0 = None ->
  substr (l ++ "#" ++ comment) 0 (find (l ++ "#" ++ comment) "#" 0) = l.
Proof.
  intros H. unfold find in *. rewrite find_if_app_none by exact H.
  cbn [append find_if Ascii.eqb Bool.eqb option_map substr].
  rewrite substring_app_l, substring_0_0. apply append_nil_r.
Qed.

Lemma parse_block_header (this : parser) (blanks name rest : string) :
  find_first_not_of blanks " " = None ->
  find name "]" 0 = None -> find name "#" 0 = None -> find rest "#" 0 = None ->
  parse_line this (blanks ++ "[" ++ name ++ "]" ++ rest) =
  Returns (mkParser (name ++ substr ("]" ++ rest) 0 (Some (length blanks)))
             true (inputParameters this)).
Proof.
  intros Hblank Hname Hname' Hrest.
  unfold parse_line.
  rewrite line_without_comment.
  2: { unfold find in *. apply find_if_none_app;
         [apply blanks_hold_no; [discriminate | exact Hblank] |].
       apply find_if_cons_none; [reflexivity |].
       apply find_if_none_app; [exact Hname' |].
       apply find_if_cons_none; [reflexivity | exact Hrest]. }
  cbv zeta.
  assert (E0 : String.eqb (blanks ++ "[" ++ name ++ "]" ++ rest) EmptyString = false)
    by (destruct blanks; reflexivity).
  rewrite E0.
  assert (E1 : find_first_not_of (blanks ++ "[" ++ name ++ "]" ++ rest) " "
               = Some (length blanks)).
  { unfold find_first_not_of in *. rewrite find_if_app_none by exact Hblank.
    cbn. now rewrite Nat.add_0_r. }
  rewrite E1.
  assert (E2 : substr (blanks ++ "[" ++ name ++ "]" ++ rest) (length blanks)
                 (Some 1%nat) = "[").
  { unfold substr. rewrite substring_app_r. cbn.
    now rewrite substring_0_0. }
  rewrite E2. cbn [String.eqb Ascii.eqb Bool.eqb].
  assert (E3 : find_first_of (blanks ++ "[" ++ name ++ "]" ++ rest) "]"
                 (S (length blanks)) = Some (length blanks + 1 + length name)%nat).
  { unfold find_first_of, find in *.
    replace (blanks ++ "[" ++ name ++ "]" ++ rest)
      with ((blanks ++ "[") ++ name ++ "]" ++ rest)
      by (now rewrite append_assoc).
    replace (S (length blanks)) with (length (blanks ++ "[") + 0)%nat
      by (rewrite length_app; cbn; lia).
    rewrite find_if_skip, find_if_app_none by exact Hname.
    cbn. rewrite length_app. cbn. f_equal. lia. }
  rewrite E3. f_equal. f_equal.
  unfold substr.
  replace (blanks ++ "[" ++ name ++ "]" ++ rest)
    with ((blanks ++ "[") ++ name ++ "]" ++ rest)
    by (now rewrite append_assoc).
  replace (S (length blanks)) with (length (blanks ++ "["))
    by (rewrite length_app; cbn; lia).
  rewrite substring_app_r.
  replace (length blanks + 1 + length name - 1)%nat
    with (length name + length blanks)%nat by lia.
  apply substring_app_l.
Qed.

(** X21.  A block header whose name holds neither a closing bracket
    nor a comment sign sets the block name and leaves the parameters
    alone; the name is read exactly when the opening bracket is the
    first character of the line.  The count given to [assign] is
    [lastChar-1] whatever the position of the bracket, so every blank
    before the bracket adds one character after the name to the block
    name, the closing bracket first. *)
Theorem block_name_takes_leading_blanks
  (this : parser) (blanks name rest : string) :
  find_first_not_of blanks " " = None ->
  find name "]" 0 = None -> find name "#" 0 = None -> find rest "#" 0 = None ->
  parse_line this (blanks ++ "[" ++ name ++ "]" ++ rest) =
  Returns (mkParser (name ++ substr ("]" ++ rest) 0 (Some (length blanks)))
             true (inputParameters this)) /\
  (blanks = EmptyString ->
   parse_line this (blanks ++ "[" ++ name ++ "]" ++ rest) =
   Returns (mkParser name true (inputParameters this))).
Proof.
  intros Hblank Hname Hname' Hrest.
  pose proof (parse_block_header this blanks name rest Hblank Hname Hname' Hrest)
    as Main.
  split; [exact Main |].
  intros ->. rewrite Main. cbn. now rewrite append_nil_r.
Qed.

Lemma block_name_takes_leading_blanks_witness :
  let this := mkParser EmptyString false (fun _ => None) in
  find_first_not_of "  " " " = None /\
  blockName match parse_line this "  [Grid]   " with
            | Returns this' => this'
            | IDEFIX_ERROR _ => this
            end = "Grid] ".
Proof.
  intros this.
  assert (H : find_first_not_of "  " " " = None) by reflexivity.
  split; [exact H |].
  destruct (block_name_takes_leading_blanks this "  " "Grid" "   " H
              eq_refl eq_refl eq_refl) as [Hline _].
  cbn [append] in Hline. rewrite Hline. reflexivity.
Defined.

(** *** Parameter lines *)

Lemma lookup_push_back (m : IdefixInputContainer) (b p v b' p' : string) :
  lookup (push_back m b p v) b' p' =
  if (String.eqb b' b && String.eqb p' p)%bool
  then Some (match lookup m b p with
             | Some values => values
             | None => nil
             end ++ v :: nil)%list
  else lookup m b' p'.
Proof.
  unfold lookup, push_back.
  destruct (String.eqb b' b) eqn:Eb; cbn [andb]; [| reflexivity].
  apply String.eqb_eq in Eb. subst b'.
  destruct (String.eqb p' p) eqn:Ep; destruct (m b); reflexivity.
Qed.

Lemma lookup_push_all_other (b p b' p' : string) (values : list string)
  (m : IdefixInputContainer) :
  (b', p') <> (b, p) ->
  lookup (fold_left (fun m v => push_back m b p v) values m) b' p' =
  lookup m b' p'.
Proof.
  intros Hne. revert m.
  induction values as [| v values IH]; intros m; cbn [fold_left]; [reflexivity |].
  rewrite IH, lookup_push_back.
  destruct (String.eqb b' b) eqn:Eb; [| reflexivity].
  destruct (String.eqb p' p) eqn:Ep; [| reflexivity].
  apply String.eqb_eq in Eb, Ep. subst. congruence.
Qed.

Lemma lookup_push_all (b p : string) (values : list string)
  (m : IdefixInputContainer) :
  values <> nil ->
  lookup (fold_left (fun m v => push_back m b p v) values m) b p =
  Some (match lookup m b p with
        | Some old => old
        | None => nil
        end ++ values)%list.
Proof.
  revert m. induction values as [| v values IH]; intros m Hne; [congruence |].
  cbn [fold_left]. destruct values as [| w values].
  - cbn [fold_left]. rewrite lookup_push_back, !String.eqb_refl. reflexivity.
  - rewrite IH by discriminate.
    rewrite lookup_push_back, !String.eqb_refl. cbn [andb].
    now rewrite <- List.app_assoc.
Qed.

Lemma blank_line_has_no_words (line : string) :
  find_first_not_of line " " = None -> words line = nil.
Proof.
  unfold find_first_not_of, words.
  induction line as [| c line IH]; [reflexivity |].
  cbn [find_if words_from].
  destruct (negb (Ascii.eqb " " c)) eqn:E; [discriminate |].
  apply Bool.negb_false_iff, Ascii.eqb_eq in E. subst c.
  change (isspace " ") with true. cbn [String.eqb].
  destruct (find_if _ line 0) eqn:F; [discriminate |]. intros _.
  now apply IH.
Qed.

Lemma parse_parameter_line (this : parser) (l paramName : string)
  (paramValues : list string) :
  haveBlock this = true ->
  (forall firstChar,
      find_first_not_of (substr l 0 (find l "#" 0)) " " = Some firstChar ->
      substr (substr l 0 (find l "#" 0)) firstChar (Some 1%nat) <> "[") ->
  words (substr l 0 (find l "#" 0)) = paramName :: paramValues ->
  parse_line this l =
  Returns (mkParser (blockName this) true
             (fold_left (fun m v => push_back m (blockName this) paramName v)
                paramValues (inputParameters this))).
Proof.
  intros Hblock Hhead Hwords.
  unfold parse_line. cbv zeta.
  destruct (String.eqb (substr l 0 (find l "#" 0)) EmptyString) eqn:E0.
  { apply String.eqb_eq in E0. rewrite E0 in Hwords. discriminate Hwords. }
  destruct (find_first_not_of (substr l 0 (find l "#" 0)) " ")
    as [firstChar |] eqn:E1.
  2: { apply blank_line_has_no_words in E1. congruence. }
  destruct (String.eqb (substr (substr l 0 (find l "#" 0)) firstChar (Some 1%nat))
              "[") eqn:E2.
  { apply String.eqb_eq in E2. now apply Hhead in E2. }
  rewrite Hblock, Hwords. reflexivity.
Qed.

(** X22.  Inside a block, a line that is no block header and whose
    words are a name followed by values appends the values, in their
    order, to those already stored under that name in the current
    block: a parameter given on several lines accumulates its values,
    none is replaced.  Every other entry is left as it was, and a name
    without a value stores nothing. *)
Theorem parameter_line_appends_values
  (this : parser) (lineWithComments paramName : string)
  (paramValues : list string) :
  let line := substr lineWithComments 0 (find lineWithComments "#" 0) in
  let stored := match lookup (inputParameters this) (blockName this) paramName with
                | Some values => values
                | None => nil
                end in
  haveBlock this = true ->
  (forall firstChar, find_first_not_of line " " = Some firstChar ->
                     substr line firstChar (Some 1%nat) <> "[") ->
  words line = paramName :: paramValues ->
  exists m,
    parse_line this lineWithComments = Returns (mkParser (blockName this) true m) /\
    (paramValues <> nil ->
     lookup m (blockName this) paramName = Some (stored ++ paramValues)%list) /\
    (paramValues = nil -> m = inputParameters this) /\
    (forall b p, (b, p) <> (blockName this, paramName) ->
                 lookup m b p = lookup (inputParameters this) b p).
Proof.
  intros line stored Hblock Hhead Hwords.
  eexists. split;
    [exact (parse_parameter_line this lineWithComments paramName paramValues
              Hblock Hhead Hwords) |].
  split; [| split].
  - intros Hne. now apply lookup_push_all.
  - intros ->. reflexivity.
  - intros b p Hne. now apply lookup_push_all_other.
Qed.

Lemma parameter_line_appends_values_witness :
  let this := mkParser "Grid" true
                (push_back (fun _ => None) "Grid" "X1-grid" "1") in
  haveBlock this = true /\
  exists m,
    parse_line this "X1-grid  0.0 64 u   1.0  # radial" =
      Returns (mkParser "Grid" true m) /\
    lookup m "Grid" "X1-grid" = Some ("1" :: "0.0" :: "64" :: "u" :: "1.0" :: nil).
Proof.
  intros this.
  assert (H : haveBlock this = true) by reflexivity.
  split; [exact H |].
  destruct (parameter_line_appends_values this
              "X1-grid  0.0 64 u   1.0  # radial" "X1-grid"
              ("0.0" :: "64" :: "u" :: "1.0" :: nil) H)
    as (m & Hm & Happ & _).
  - intros firstChar Hf. injection Hf as <-. discriminate.
  - reflexivity.
  - exists m. split; [exact Hm |]. apply Happ. discriminate.
Defined.

(** X23.  Whatever follows the first comment sign of a line has no
    effect: the line is treated as the text before the sign. *)
Theorem comments_are_ignored (this : parser) (l comment : string) :
  find l "#" 0 = None ->
  parse_line this (l ++ "#" ++ comment) = parse_line this l.
Proof.
  intros H. unfold parse_line.
  now rewrite line_before_comment, line_without_comment.
Qed.

Lemma comments_are_ignored_witness :
  let this := mkParser "Setup" true (fun _ => None) in
  find "Rin 1.0  " "#" 0 = None /\
  parse_line this "Rin 1.0  # inner radius" = parse_line this "Rin 1.0  ".
Proof.
  intros this.
  assert (H : find "Rin 1.0  " "#" 0 = None) by reflexivity.
  split; [exact H |].
  exact (comments_are_ignored this "Rin 1.0  " " inner radius" H).
Defined.

(** *** Invariant of the stored parameters *)

(** Every stored block holds a parameter and every stored parameter a
    value. *)
Abbreviation populated m :=
  (forall b block, m b = Some block ->
     (exists p values, block p = Some values) /\
     (forall p values, block p = Some values -> values <> nil)).

Lemma push_back_populated (m : IdefixInputContainer) (b p v : string) :
  populated m -> populated (push_back m b p v).
Proof.
  intros Hm b' block. unfold push_back.
  destruct (String.eqb b' b) eqn:Eb; [| apply Hm].
  intros [= <-]. split.
  - exists p. rewrite String.eqb_refl. eauto.
  - intros p' values. destruct (String.eqb p' p).
    + intros [= <-] H. apply List.app_eq_nil in H. destruct H as [_ H].
      discriminate H.
    + destruct (m b) as [block |] eqn:E; [| discriminate].
      now apply (Hm b block E).
Qed.

Lemma parse_line_populated (this this' : parser) (l : string) :
  populated (inputParameters this) ->
  parse_line this l = Returns this' -> populated (inputParameters this').
Proof.
  intros Hm. unfold parse_line. cbv zeta.
  destruct (String.eqb _ EmptyString); [now intros [= <-] |].
  destruct (find_first_not_of _ " ") as [firstChar |]; [| now intros [= <-]].
  destruct (String.eqb _ "[").
  { destruct (find_first_of _ "]" _); [now intros [= <-] | discriminate]. }
  destruct (negb (haveBlock this)); [discriminate |].
  destruct (words _) as [| paramName paramValues]; [now intros [= <-] |].
  intros [= <-]. cbn [inputParameters].
  generalize (inputParameters this) Hm. clear Hm.
  induction paramValues as [| v values IH]; intros m Hm; cbn [fold_left];
    [exact Hm |].
  apply IH. now apply push_back_populated.
Qed.

Lemma parse_file_populated (lines : list string) (this : parser) :
  parse_file lines = Returns this -> populated (inputParameters this).
Proof.
  unfold parse_file.
  assert (Hinit : populated (inputParameters
                               (mkParser EmptyString false (fun _ => None))))
    by (intros b block; discriminate).
  revert Hinit. generalize (mkParser EmptyString false (fun _ => None)).
  induction lines as [| l lines IH]; intros this0 H0; cbn [parse_lines].
  - now intros [= <-].
  - destruct (parse_line this0 l) as [this1 | msg] eqn:E; [| discriminate].
    apply IH. now apply (parse_line_populated this0 this1 l).
Qed.

(** X24.  After any file is read without error, no stored block is
    without parameter and no stored parameter without value: a block
    header alone or a parameter name alone creates no entry.  Hence
    [CheckEntry] never gives 0 for an entry of fewer than 2^31 values:
    it gives -1 or the positive number of values. *)
Theorem parsed_entries_are_never_empty (lines : list string) (this : parser) :
  parse_file lines = Returns this ->
  (forall b block,
     inputParameters this b = Some block ->
     (exists p values, block p = Some values) /\
     (forall p values, block p = Some values -> values <> nil)) /\
  (forall b p,
     (forall param, lookup (inputParameters this) b p = Some param ->
                    (Z.of_nat (List.length param) < 2 ^ 31)%Z) ->
     CheckEntry (inputParameters this) b p = (-1)%Z \/
     (1 <= CheckEntry (inputParameters this) b p)%Z).
Proof.
  intros Hparse. pose proof (parse_file_populated lines this Hparse) as Hpop.
  split; [exact Hpop |].
  intros b p Hsize. unfold CheckEntry, lookup in *.
  destruct (inputParameters this b) as [block |] eqn:Eb; [| now left].
  destruct (block p) as [param |] eqn:Ep; [| now left].
  right. specialize (Hsize param eq_refl).
  rewrite to_int_small by lia.
  destruct (Hpop b block Eb) as [_ Hne]. specialize (Hne p param Ep).
  destruct param; [congruence | cbn [List.length]; lia].
Qed.

Lemma parsed_entries_are_never_empty_witness :
  let lines := "# set-up" :: "[Setup]" :: "Rin  1.0" :: "[Output]" :: "vtk"
               :: nil in
  exists this,
    parse_file lines = Returns this /\
    inputParameters this "Output" = None /\
    CheckEntry (inputParameters this) "Setup" "Rin" = 1%Z /\
    forall b block,
      inputParameters this b = Some block ->
      (exists p values, block p = Some values) /\
      (forall p values, block p = Some values -> values <> nil).
Proof.
  intros lines.
  assert (H : exists this, parse_file lines = Returns this /\
                           inputParameters this "Output" = None /\
                           CheckEntry (inputParameters this) "Setup" "Rin" = 1%Z).
  { eexists. split; [reflexivity |]. split; reflexivity. }
  destruct H as (this & Hparse & Hout & Hcheck).
  exists this. split; [exact Hparse |]. split; [exact Hout |].
  split; [exact Hcheck |].
  exact (proj1 (parsed_entries_are_never_empty lines this Hparse)).
Defined.

(** *** From the file to the accessors *)







End InputFacts.
